(** * Adaptive Gauss-Kronrod quadrature ([gausskronrod.py])

    A shallow embedding of [integrate_gausskronrod] and [integrate], and the
    properties of the specification checked against it.

    The program computes with numpy/Python binary64 numbers.  The embedding
    is written once, over an interface [Arith] of the arithmetic operations
    the program uses, and is read at two instances:

    - [binary64]: IEEE 754 double precision (Rocq's primitive floats), the
      arithmetic the program runs on, with its infinities, NaN and signed
      zeros.  The C library's [pow] is not part of the repository and is a
      parameter of that instance;
    - [real_arith]: the real numbers, the exact arithmetic in which the
      specification writes its formulas (it qualifies them itself with
      "to floating-point rounding").

    What follows from the control structure alone is proved for every
    [Arith], binary64 included: the order of the tests in the loop, the
    termination bound, the unused [args], the assertion on the bounds, the
    chain of intervals.  The order of the interval list is proved for every
    [Arith] whose comparison is a total order on the numbers that compare
    with themselves, which the reals are and binary64 is.  Identities of
    the formulas and sums of widths are proved at [real_arith], where
    addition is associative.  What depends on division by zero is proved at
    [binary64].

    The file has four parts: the embedding and the two arithmetics; the
    definitions the properties are stated with; lemmas and one theorem for
    each property of the specification; and, at the end, further properties
    of the code with their lemmas. *)

From Stdlib Require Import List ZArith QArith Qreals Reals Lra Lia Bool.
From Stdlib Require Import Permutation Sorted Floats.
Import ListNotations.

(** ** The arithmetic interface *)

Record Arith : Type := MkArith {
  num   : Type;
  lit   : Q -> num;              (* a numeric literal of the source text *)
  add   : num -> num -> num;     (* x + y *)
  sub   : num -> num -> num;     (* x - y *)
  mul   : num -> num -> num;     (* x * y *)
  div   : num -> num -> num;     (* x / y on numpy floats: never raises *)
  absf  : num -> num;            (* abs(x) *)
  sqrtf : num -> num;            (* math.sqrt(x), x a sum of squares *)
  powf  : num -> num -> num;     (* x ** y *)
  ltb   : num -> num -> bool;    (* x < y *)
  eqb   : num -> num -> bool     (* x == y *)
}.

(** ** Python values and exceptions *)

Inductive exn : Set :=
| AssertionError      (* a failed [assert] *)
| ZeroDivisionError   (* float / int 0 *)
| ValueError          (* np.linspace with a negative number of samples *)
| IndexError.         (* pop from an empty list *)

Inductive outcome (T : Type) : Type :=
| Ok (v : T)
| Raise (e : exn).

Arguments Ok {T} v.
Arguments Raise {T} e.

Definition bind {T U : Type} (m : outcome T) (k : T -> outcome U) : outcome U :=
  match m with
  | Ok v => k v
  | Raise e => Raise e
  end.

Notation "x <- m ;; k" := (bind m (fun x => k))
  (at level 61, m at next level, right associativity).
Notation "' p <- m ;; k" := (bind m (fun x => let p := x in k))
  (at level 61, p pattern, m at next level, right associativity).

(** What [integrate] returns: the pair [(Itotal, err)], or the bare [False]. *)
Inductive py_result (F : Type) : Type :=
| Tuple (Itotal err : F)
| PyFalse.

Arguments Tuple {F} Itotal err.
Arguments PyFalse {F}.

(** One pass through the body of [while True]: the function returns, or the
    loop goes round again with a new interval list. *)
Inductive step (F : Type) : Type :=
| Return (r : py_result F)
| Continue (intervals : list (F * F * F * F)).

Arguments Return {F} r.
Arguments Continue {F} intervals.

(** A literal with fifteen decimal places, as the tables write them. *)
Definition e15 (n : Z) : Q := Qmake n 1000000000000000.

(** An entry of [intervals]: the tuple [(err, left, right, I)]. *)
Abbreviation interval A := (num A * num A * num A * num A)%type.

Section Embedding.

Variable A : Arith.

Local Abbreviation F := (num A) (only parsing).
Local Notation "x +. y" := (add A x y) (at level 50, left associativity).
Local Notation "x -. y" := (sub A x y) (at level 50, left associativity).
Local Notation "x *. y" := (mul A x y) (at level 40, left associativity).
Local Notation "x /. y" := (div A x y) (at level 40, left associativity).
Local Notation "x <. y" := (ltb A x y) (at level 70, no associativity).
Local Notation "x >. y" := (ltb A y x) (at level 70, no associativity).
Local Notation "x ==. y" := (eqb A x y) (at level 70, no associativity).
Local Notation "x **. y" := (powf A x y) (at level 30, right associativity).
Local Abbreviation L := (lit A) (only parsing).

(** *** nodes and weights for Gauss-Kronrod *)

Definition gausskronrod_nodes : list F :=
  map (fun n => L (e15 n))
    [ 949107912342759; -949107912342759;
      741531185599394; -741531185599394;
      405845151377397; -405845151377397;
      0;
      991455371120813; -991455371120813;
      864864423359769; -864864423359769;
      586087235467691; -586087235467691;
      207784955007898; -207784955007898 ]%Z.

Definition gauss_weights : list F :=
  map (fun n => L (e15 n))
    [ 129484966168870; 129484966168870;
      279705391489277; 279705391489277;
      381830050505119; 381830050505119;
      417959183673469 ]%Z.

Definition kronrod_weights : list F :=
  map (fun n => L (e15 n))
    [ 63092092629979; 63092092629979;
      140653259715525; 140653259715525;
      190350578064785; 190350578064785;
      209482141084728;
      22935322010529; 22935322010529;
      104790010322250; 104790010322250;
      169004726639267; 169004726639267;
      204432940075298; 204432940075298 ]%Z.

(** *** numpy and Python built-ins the program calls

    These are library routines, not code of the repository; each is
    modelled from its documented behaviour. *)

(** Elementwise product of two arrays of one shape. *)
Fixpoint array_mul (v w : list F) : list F :=
  match v, w with
  | x :: v', y :: w' => x *. y :: array_mul v' w'
  | _, _ => []
  end.

(** [np.sum] of a float array.  numpy's reduction starts from [0] and adds
    to it what its pairwise summation returns: for fewer than eight entries
    their sum from the left; otherwise eight running sums [r0 .. r7], one
    for each place in the blocks of eight entries, combined as
    [((r0+r1)+(r2+r3)) + ((r4+r5)+(r6+r7))], to which the entries behind
    the last full block are added one by one.  (numpy halves an array of
    more than 128 entries first; the program sums 7 and 15 entries.  Newer
    versions start from [-0.0], which changes the sign of a zero sum
    only.) *)
Fixpoint add_blocks (r : F * F * F * F * F * F * F * F) (v : list F)
    : (F * F * F * F * F * F * F * F) * list F :=
  match v with
  | b0 :: b1 :: b2 :: b3 :: b4 :: b5 :: b6 :: b7 :: v' =>
      let '(r0, r1, r2, r3, r4, r5, r6, r7) := r in
      add_blocks (r0 +. b0, r1 +. b1, r2 +. b2, r3 +. b3,
                  r4 +. b4, r5 +. b5, r6 +. b6, r7 +. b7) v'
  | _ => (r, v)
  end.

Definition pairwise_sum (v : list F) : F :=
  match v with
  | a0 :: a1 :: a2 :: a3 :: a4 :: a5 :: a6 :: a7 :: v' =>
      let '((r0, r1, r2, r3, r4, r5, r6, r7), rest) :=
        add_blocks (a0, a1, a2, a3, a4, a5, a6, a7) v' in
      fold_left (add A) rest
        (((r0 +. r1) +. (r2 +. r3)) +. ((r4 +. r5) +. (r6 +. r7)))
  | _ => fold_left (add A) v (L 0)
  end.

Definition np_sum (v : list F) : F := L 0 +. pairwise_sum v.

(** The built-in [sum]: [0 + x0 + x1 + ...], from the left. *)
Definition py_sum (v : list F) : F := fold_left (add A) v (L 0).

(** [np.linspace(start, stop, n)] with [endpoint=True]: [n] samples
    [start + i*step], [step = (stop - start)/(n - 1)], the last one set to
    [stop]; a negative [n] is a [ValueError]. *)
Definition linspace (start stop : F) (n : Z) : outcome (list F) :=
  if (n <? 0)%Z then Raise ValueError
  else
    let d := (n - 1)%Z in
    let delta := stop -. start in
    let y := map (fun i => L (inject_Z (Z.of_nat i))) (seq 0 (Z.to_nat n)) in
    let y :=
      if (0 <? d)%Z then
        let step := delta /. L (inject_Z d) in
        if step ==. L 0
        then map (fun i => i /. L (inject_Z d) *. delta) y
        else map (fun i => i *. step) y
      else map (fun i => i *. delta) y in
    let y := map (fun v => v +. start) y in
    Ok (if (1 <? n)%Z then removelast y ++ [stop] else y).

(** [zip(limits[:-1], limits[1:])] *)
Definition consecutive (limits : list F) : list (F * F) :=
  combine (removelast limits) (tl limits).

Definition err_of (x : interval A) : F := let '(e, _, _, _) := x in e.
Definition left_of (x : interval A) : F := let '(_, l, _, _) := x in l.
Definition right_of (x : interval A) : F := let '(_, _, r, _) := x in r.
Definition I_of (x : interval A) : F := let '(_, _, _, i) := x in i.

(** [x < y] on tuples: the first position where the two are not [==]
    decides, by [<] at that position; tuples equal throughout are not
    below one another. *)
Definition tuple_lt (x y : interval A) : bool :=
  let '(e1, l1, r1, i1) := x in
  let '(e2, l2, r2, i2) := y in
  if negb (e1 ==. e2) then e1 <. e2
  else if negb (l1 ==. l2) then l1 <. l2
  else if negb (r1 ==. r2) then r1 <. r2
  else if negb (i1 ==. i2) then i1 <. i2
  else false.

(** [bisect.bisect_right(a, x)]: binary search.
<<
    lo, hi = 0, len(a)
    while lo < hi:
        mid = (lo + hi) // 2
        if x < a[mid]: hi = mid
        else: lo = mid + 1
    return lo
>>
    [hi - lo] drops at every turn, so [hi - lo] turns are enough. *)
Fixpoint bisect_loop (turns : nat) (a : list (interval A)) (x : interval A)
    (lo hi : nat) : nat :=
  match turns with
  | O => lo
  | S turns' =>
      if (lo <? hi)%nat then
        let mid := ((lo + hi) / 2)%nat in
        if tuple_lt x (nth mid a x)
        then bisect_loop turns' a x lo mid
        else bisect_loop turns' a x (mid + 1) hi
      else lo
  end.

Definition bisect_right (a : list (interval A)) (x : interval A) : nat :=
  bisect_loop (length a) a x 0 (length a).

(** [bisect.insort(a, x)]: [a.insert(bisect_right(a, x), x)]. *)
Definition insort (a : list (interval A)) (x : interval A) : list (interval A) :=
  let lo := bisect_right a x in
  firstn lo a ++ x :: skipn lo a.

(** [a.pop()]: the last element and the list without it. *)
Definition pop (a : list (interval A)) : outcome (interval A * list (interval A)) :=
  match rev a with
  | [] => Raise IndexError
  | x :: r => Ok (x, rev r)
  end.

(** *** [integrate_gausskronrod] *)

Definition integrate_gausskronrod {T : Type} (f : list F -> list F)
    (a b : F) (args : T) : outcome (F * F) :=
  if b >. a then   (* assert b > a *)
    let mid := L (1 # 2) *. (b +. a) in
    let dx := L (1 # 2) *. (b -. a) in
    let zi := map (fun z => mid +. z *. dx) gausskronrod_nodes in
    let integrand := f zi in
    let integral_G7 := np_sum (array_mul (firstn 7 integrand) gauss_weights) in
    let integral_K15 := np_sum (array_mul integrand kronrod_weights) in
    let error := (L 200 *. absf A (integral_G7 -. integral_K15)) **. L (3 # 2) in
    Ok (integral_K15 *. dx, dx *. error)
  else Raise AssertionError.

(** *** [integrate] *)

(** The [for] loop that seeds [intervals]. *)
Fixpoint seed {T : Type} (fv : list F -> list F) (args : T)
    (pairs : list (F * F)) (intervals : list (interval A))
    : outcome (list (interval A)) :=
  match pairs with
  | [] => Ok intervals
  | (left_, right_) :: pairs' =>
      '(I_, err) <- integrate_gausskronrod fv left_ right_ args ;;
      seed fv args pairs' (insort intervals (err, left_, right_, I_))
  end.

(** Lines 71 to 73: the totals over [intervals]. *)
Definition Itotal_of (intervals : list (interval A)) : F :=
  py_sum (map I_of intervals).

Definition err2_of (intervals : list (interval A)) : F :=
  py_sum (map (fun x => err_of x **. L 2) intervals).

Definition total_err (intervals : list (interval A)) : F :=
  sqrtf A (err2_of intervals).

(** [err/Itotal]: the [sum] of an empty list is the integer [0], and a float
    divided by the integer zero raises; the sum of a non-empty list is a
    numpy float, whose division never raises. *)
Definition quotient (intervals : list (interval A)) : outcome F :=
  match intervals with
  | [] => Raise ZeroDivisionError
  | _ :: _ => Ok (total_err intervals /. Itotal_of intervals)
  end.

(** Lines 82 to 92: pop the last interval, split it, insert the halves. *)
Definition bisect_worst {T : Type} (fv : list F -> list F) (args : T)
    (intervals : list (interval A)) : outcome (list (interval A)) :=
  '(x, rest) <- pop intervals ;;
  let '(_, left_, right_, _) := x in
  let mid := left_ +. (right_ -. left_) /. L 2 in
  '(I_, err) <- integrate_gausskronrod fv left_ mid args ;;
  let rest := insort rest (err, left_, mid, I_) in
  '(I_, err) <- integrate_gausskronrod fv mid right_ args ;;
  Ok (insort rest (err, mid, right_, I_)).

(** The body of [while True]. *)
Definition loop_body {T : Type} (fv : list F -> list F) (args : T)
    (limit : Z) (tol : F) (intervals : list (interval A)) : outcome (step F) :=
  let Itotal := Itotal_of intervals in
  let err := total_err intervals in
  q <- quotient intervals ;;
  if absf A q <. tol then Ok (Return (Tuple Itotal err))
  else if (Z.of_nat (length intervals) >=? limit)%Z then Ok (Return PyFalse)
  else
    intervals' <- bisect_worst fv args intervals ;;
    Ok (Continue intervals').

(** [while True]: at most [turns] passes through the body; [None] when the
    function has not returned by then. *)
Fixpoint while_true (turns : nat) {T : Type} (fv : list F -> list F)
    (args : T) (limit : Z) (tol : F) (intervals : list (interval A))
    : option (outcome (py_result F)) :=
  match turns with
  | O => None
  | S turns' =>
      match loop_body fv args limit tol intervals with
      | Raise e => Some (Raise e)
      | Ok (Return r) => Some (Ok r)
      | Ok (Continue intervals') =>
          while_true turns' fv args limit tol intervals'
      end
  end.

(** Lines 61 to 68: [fv = np.vectorize(f)] and the seeding of [intervals].
    Here [f] returns a float at every call, so that [fv] is [map f]; an
    integrand that can raise is the subject of [Raising] below. *)
Definition initial_intervals {T : Type} (f : F -> F) (a b : F) (args : T)
    (minintervals : Z) : outcome (list (interval A)) :=
  let fv := map f in
  limits <- linspace a b (minintervals + 1) ;;
  seed fv args (consecutive limits) [].

Definition integrate (turns : nat) {T : Type} (f : F -> F) (a b : F)
    (args : T) (minintervals limit : Z) (tol : F)
    : option (outcome (py_result F)) :=
  match initial_intervals f a b args minintervals with
  | Raise e => Some (Raise e)
  | Ok intervals => while_true turns (map f) args limit tol intervals
  end.

(** Names for two expressions of the loop: the test of line 75,
    [abs(err/Itotal) < tol], and the midpoint of line 85. *)
Definition tolerance_test (tol : F) (intervals : list (interval A)) : bool :=
  absf A (total_err intervals /. Itotal_of intervals) <. tol.

Definition midpoint (left_ right_ : F) : F :=
  left_ +. (right_ -. left_) /. L 2.

(** The default values of the keyword parameters. *)
Definition default_minintervals : Z := 1.
Definition default_limit : Z := 200.
Definition default_tol : F := L (1 # 10000000000).

End Embedding.

(** ** The two arithmetics *)

(** *** IEEE 754 binary64 *)

(** An integer as a float; exact below [2^53], which covers every integer
    the program converts. *)
Definition Z2F (z : Z) : float :=
  match z with
  | Z0 => PrimFloat.zero
  | Zpos p => PrimFloat.of_uint63 (Uint63.of_Z (Zpos p))
  | Zneg p => PrimFloat.opp (PrimFloat.of_uint63 (Uint63.of_Z (Zpos p)))
  end.

(** A decimal literal [n/d] as Python reads it: the binary64 number nearest
    to it.  Numerator and denominator of every literal of the program are
    below [2^53], so the correctly rounded quotient is that number. *)
Definition float_lit (q : Q) : float :=
  PrimFloat.div (Z2F (Qnum q)) (Z2F (Zpos (Qden q))).

(** [libm_pow] stands for the C library's [pow], which numpy's [**] calls. *)
Definition binary64 (libm_pow : float -> float -> float) : Arith :=
  MkArith float float_lit PrimFloat.add PrimFloat.sub PrimFloat.mul PrimFloat.div
          PrimFloat.abs PrimFloat.sqrt libm_pow PrimFloat.ltb PrimFloat.eqb.

(** A concrete [libm_pow] to run the embedding with: the correctly rounded
    power for the two exponents the program uses, [x ** 2] as [x * x] and
    [x ** 1.5] as the square root of the exact cube; NaN for any other
    exponent. *)
Definition pow_exact (x y : float) : float :=
  if PrimFloat.eqb y (float_lit 2) then PrimFloat.mul x x
  else if PrimFloat.eqb y (float_lit (3 # 2)) then
    match Prim2SF x with
    | S754_zero _ => PrimFloat.zero
    | S754_infinity _ => PrimFloat.infinity
    | S754_nan => PrimFloat.nan
    | S754_finite true _ _ => PrimFloat.nan
    | S754_finite false m e =>
        SF2Prim (SFsqrt prec emax (S754_finite false (m * m * m) (3 * e)))
    end
  else PrimFloat.nan.

(** *** The real numbers *)

Definition Rltb (x y : R) : bool := if Rlt_dec x y then true else false.
Definition Reqb (x y : R) : bool := if Req_dec_T x y then true else false.

(** [x ** y] for [y > 0]: [0] at [0], and the power of [|x|] elsewhere
    (the program raises non-negative numbers only, and squares). *)
Definition Rpow (x y : R) : R :=
  if Req_dec_T x 0 then 0%R else Rpower (Rabs x) y.

Definition real_arith : Arith :=
  MkArith R Q2R Rplus Rminus Rmult Rdiv Rabs R_sqrt.sqrt Rpow Rltb Reqb.

(** ** What the properties are stated with *)

Section Statements.

Local Open Scope R_scope.

(** *** The quadrature rule as the specification words it

    Section 4.1: map the reference abscissas by [x = a + (z+1)*(b-a)/2];
    the integral is the dot product of the fifteen values with the
    high-order weights, scaled by [(b-a)/2]; the error estimate is
    [(200*|G7 - K15|)^1.5 * (b-a)/2], with [G7] and [K15] the unscaled
    low-order and high-order dot products. *)

Fixpoint dot (v w : list R) : R :=
  match v, w with
  | x :: v', y :: w' => x * y + dot v' w'
  | _, _ => 0
  end.

Definition spec_points (a b : R) : list R :=
  map (fun z => a + (z + 1) * (b - a) / 2) (gausskronrod_nodes real_arith).

Definition quadrature_rule_spec (f : list R -> list R) (a b : R) : R * R :=
  let values := f (spec_points a b) in
  let K15 := dot values (kronrod_weights real_arith) in
  let G7 := dot (firstn 7 values) (gauss_weights real_arith) in
  (K15 * ((b - a) / 2), Rpow (200 * Rabs (G7 - K15)) (3 / 2) * ((b - a) / 2)).

(** *** The totals as the specification words them

    Section 4.2, [total()]: the sum of all [I] values, and the root of the
    sum of the squared per-interval errors. *)

Definition sum_of_estimates (intervals : list (interval real_arith)) : R :=
  fold_right Rplus 0 (map (I_of real_arith) intervals).

Definition root_sum_square (intervals : list (interval real_arith)) : R :=
  R_sqrt.sqrt
    (fold_right Rplus 0
       (map (fun x => err_of real_arith x * err_of real_arith x) intervals)).

(** *** The partition of [[a, b]] *)

(** The [i]-th sample of [np.linspace(a, b, n+1)]. *)
Definition sample (a b : R) (n : Z) (i : nat) : R :=
  a + INR i * ((b - a) / IZR n).

(** The end points of an entry of [intervals]. *)
Definition bounds (A : Arith) (x : interval A) : num A * num A :=
  (left_of A x, right_of A x).

(** The interval lists the loop passes through, from a first one on. *)
Inductive loop_reaches (A : Arith) {T : Type} (fv : list (num A) -> list (num A))
    (args : T) (limit : Z) (tol : num A)
    : list (interval A) -> list (interval A) -> Prop :=
| reaches_first intervals :
    loop_reaches A fv args limit tol intervals intervals
| reaches_next intervals intervals' intervals'' :
    loop_reaches A fv args limit tol intervals intervals' ->
    loop_body A fv args limit tol intervals' = Ok (Continue intervals'') ->
    loop_reaches A fv args limit tol intervals intervals''.

(** Intervals laid end to end from [a] to [b]: each one starts where the one
    before it ends, and each passes the assertion [right > left]. *)
Inductive chain (A : Arith) : num A -> num A -> list (num A * num A) -> Prop :=
| chain_last a b : ltb A a b = true -> chain A a b [(a, b)]
| chain_next a m b c :
    ltb A a m = true -> chain A m b c -> chain A a b ((a, m) :: c).

(** The intervals are, in some order, a chain from [a] to [b]. *)
Definition partition_of (A : Arith) (a b : num A)
    (intervals : list (interval A)) : Prop :=
  exists c, chain A a b c /\ Permutation c (map (bounds A) intervals).

Definition width (p : R * R) : R := snd p - fst p.

Definition total_width (intervals : list (interval real_arith)) : R :=
  fold_right Rplus 0 (map width (map (bounds real_arith) intervals)).

(** *** The order of [intervals] *)

(** A number that compares: [x == x] holds.  Every real number does, and
    every binary64 number but NaN. *)
Definition comparable (A : Arith) (x : num A) : Prop := eqb A x x = true.

Definition comparable_tuple (A : Arith) (x : interval A) : Prop :=
  comparable A (err_of A x) /\ comparable A (left_of A x) /\
  comparable A (right_of A x) /\ comparable A (I_of A x).

(** On the numbers that compare, [<] and [==] are the order and the equality
    of a real-valued key. *)
Definition ordered_by (A : Arith) (key : num A -> R) : Prop :=
  forall x y, comparable A x -> comparable A y ->
    (ltb A x y = true <-> key x < key y) /\
    (eqb A x y = true <-> key x = key y).

(** A key for binary64: the sign, then exponent and mantissa, as one
    integer.  The mantissa of a binary64 number is below
    [2^53 = 9007199254740992] and its exponent lies between [-1074] and
    [971]; the infinities are put at [2^70], beyond them all. *)
Definition float_rank (x : spec_float) : Z :=
  match x with
  | S754_zero _ => 0
  | S754_nan => 0
  | S754_infinity s =>
      if s then (- 1180591620717411303424)%Z else 1180591620717411303424%Z
  | S754_finite s m e =>
      let k := ((e + 1075) * 9007199254740992 + Zpos m)%Z in
      if s then (- k)%Z else k
  end.

Definition float_key (x : float) : R := IZR (float_rank (Prim2SF x)).

(** [u] stands before [v] in an ascending list: not [v < u]. *)
Definition not_above (A : Arith) (u v : interval A) : Prop :=
  tuple_lt A v u = false.

(** [intervals] ascends in the order of its tuples. *)
Definition ascending (A : Arith) (intervals : list (interval A)) : Prop :=
  StronglySorted (not_above A) intervals.

(** [intervals] ascends in the error estimate: no entry has a larger [err]
    than one behind it. *)
Definition ascending_err (A : Arith) (intervals : list (interval A)) : Prop :=
  StronglySorted
    (fun u v => ltb A (err_of A v) (err_of A u) = false) intervals.

(** One position of the tuple comparison. *)
Definition lexb (A : Arith) (a b : num A) (rest : bool) : bool :=
  if negb (eqb A a b) then ltb A a b else rest.

End Statements.

(** ** What the counterexamples are stated with *)

(** *** The rule as the specification words it, in any arithmetic

    The points [a + (z+1)*(b-a)/2]; the dot product of the values with the
    high-order weights, scaled by [(b-a)/2]; the error estimate
    [(200*|G7 - K15|)^1.5 * (b-a)/2].  The dot products are summed as
    [np.sum] does. *)
Definition claimed_points (A : Arith) (a b : num A) : list (num A) :=
  map (fun z =>
         add A a (div A (mul A (add A z (lit A 1)) (sub A b a)) (lit A 2)))
      (gausskronrod_nodes A).

Definition claimed_rule (A : Arith) (f : list (num A) -> list (num A))
    (a b : num A) : num A * num A :=
  let values := f (claimed_points A a b) in
  let half := div A (sub A b a) (lit A 2) in
  let K15 := np_sum A (array_mul A values (kronrod_weights A)) in
  let G7 := np_sum A (array_mul A (firstn 7 values) (gauss_weights A)) in
  (mul A K15 half,
   mul A (powf A (mul A (lit A 200) (absf A (sub A G7 K15))) (lit A (3 # 2)))
       half).

(** *** Integrands of the counterexamples, in binary64 *)

(** [lambda x: 1.0/x], away from zero. *)
Definition reciprocal (x : float) : float := PrimFloat.div 1 x.

(** [lambda x: 1.0 if x == p else 0.0] *)
Definition indicator (p x : float) : float :=
  if PrimFloat.eqb x p then 1%float else 0%float.

(** [lambda x: 1.0 if x > p else 0.0] *)
Definition step_after (p x : float) : float :=
  if PrimFloat.ltb p x then 1%float else 0%float.

(** [1.0] below [0.25], [0.0] up to [0.5], [inf] up to [0.75], [0.0] from
    there on. *)
Definition steps_to_infinity (x : float) : float :=
  if PrimFloat.ltb x 0.25 then 1%float
  else if PrimFloat.ltb x 0.5 then 0%float
  else if PrimFloat.ltb x 0.75 then PrimFloat.infinity
  else 0%float.

(** ** What the further properties are stated with *)

(** An entry of [intervals] holds what the rule returns on its bounds:
    [(err, left, right, I)] with
    [I, err = integrate_gausskronrod(fv, left, right, args)]. *)
Definition rule_entry (A : Arith) {T : Type} (fv : list (num A) -> list (num A))
    (args : T) (x : interval A) : Prop :=
  integrate_gausskronrod A fv (left_of A x) (right_of A x) args
  = Ok (I_of A x, err_of A x).

(** [f] and [g] take the same values strictly inside [[a, b]]. *)
Definition agree_inside (a b : R) (f g : R -> R) : Prop :=
  forall x : R, (a < x < b)%R -> f x = g x.

(** The nodes and the weights are symmetric: reflecting the points about the
    middle of the interval exchanges them in pairs of one weight. *)
Definition swap_pairs (v : list R) : list R :=
  match v with
  | [x1; x2; x3; x4; x5; x6; x7; x8; x9; x10; x11; x12; x13; x14; x15] =>
      [x2; x1; x4; x3; x6; x5; x7; x9; x8; x11; x10; x13; x12; x15; x14]
  | _ => v
  end.

(** *** Polynomials and their integrals over [[-1, 1]] *)

(** [c0 + c1 z + c2 z^2 + ...], by Horner's rule. *)
Fixpoint poly (c : list R) (z : R) : R :=
  match c with
  | [] => 0%R
  | ck :: c' => (ck + z * poly c' z)%R
  end.

(** The integral of [z^k] over [[-1, 1]]: [2/(k+1)] for even [k], [0] for
    odd [k]. *)
Definition moment (k : nat) : R :=
  if Nat.even k then (2 / INR (S k))%R else 0%R.

(** [c0 mu(k) + c1 mu(k+1) + ...]: a linear functional with the values
    [mu] on the monomials, applied to [z^k (c0 + c1 z + ...)]. *)
Fixpoint poly_rule (mu : nat -> R) (c : list R) (k : nat) : R :=
  match c with
  | [] => 0%R
  | ck :: c' => (ck * mu k + poly_rule mu c' (S k))%R
  end.

(** The integral of [c0 + c1 z + ...] over [[-1, 1]]. *)
Definition poly_integral (c : list R) : R := poly_rule moment c 0.

(** [|c0| + |c1| + ...] *)
Fixpoint norm1 (c : list R) : R :=
  match c with
  | [] => 0%R
  | ck :: c' => (Rabs ck + norm1 c')%R
  end.

(** What the tables give for [z^k], as an integer over [10^(15(k+1))], the
    entries of the tables being integers over [10^15]; and the test that it
    lies within [10^-14] of the integral of [z^k]. *)
Fixpoint zdot (v w : list Z) : Z :=
  match v, w with
  | x :: v', y :: w' => (x * y + zdot v' w')%Z
  | _, _ => 0%Z
  end.

Definition moment_ok (ns ms : list Z) (k : nat) : bool :=
  let M := zdot (map (fun n => (n ^ Z.of_nat k)%Z) ns) ms in
  let N := (1000000000000000 ^ Z.of_nat (S k))%Z in
  let P := if Nat.even k then 2%Z else 0%Z in
  (Z.abs (M * Z.of_nat (S k) - P * N) * 100000000000000
   <=? N * Z.of_nat (S k))%Z.

(** *** The script under [if __name__ == "__main__"] *)

(** What ends the script early: an exception that [integrate] or the
    division [result/expected] raises, or the [TypeError] of unpacking
    [False] into [result, esterror]. *)
Inductive script_exn : Set :=
| Uncaught (e : exn)
| TypeError.

Module Script.
Section Script.

Local Open Scope float_scope.

Variable libm_pow : float -> float -> float.   (* the C library's [pow] *)
Variables sin cos : float -> float.            (* [math.sin], [math.cos] *)
(* [scipy.integrate.quad]: the pair [(y, abserr)] of Python floats *)
Variable quad : (float -> float) -> float -> float -> float * float.

(** [p], [a], [b] are Python integers; the products, quotients and the
    square [p**2 = 10000] of the script are exact in binary64. *)
Definition p : float := 100.
Definition f (x : float) : float := x * sin (p * x).
Definition g (x : float) : float :=
  - x / p * cos (p * x) + 1 / 10000 * sin (p * x).
Definition a : float := 1.
Definition b : float := 4.
Definition expected : float := g b - g a.

(** The arguments of [print]'s format string: the line printed. *)
Definition line (result esterror : float) : float * float * float :=
  (result, esterror, 1 - result / expected).

(** The lines printed, and the exception the script dies of, if any.  The
    tuple [(quad(f, a, b), integrate(f, a, b))] is built before the loop
    starts; [result/expected] with [quad]'s Python float raises on a zero
    divisor. *)
Definition main (turns : nat)
    : option (list (float * float * float) * option script_exn) :=
  let first := quad f a b in
  match integrate (binary64 libm_pow) turns f a b tt
                  default_minintervals default_limit
                  (default_tol (binary64 libm_pow)) with
  | None => None
  | Some (Raise e) => Some ([], Some (Uncaught e))
  | Some (Ok second) =>
      let '(result, esterror) := first in
      if expected =? 0 then Some ([], Some (Uncaught ZeroDivisionError))
      else
        match second with
        | PyFalse => Some ([line result esterror], Some TypeError)
        | Tuple Itotal err =>
            Some ([line result esterror; line Itotal err], None)
        end
  end.

End Script.
End Script.

(** *** The program with an integrand that can raise

    [f] is any Python callable: a call of it returns a float or raises.
    The program catches nothing, so an exception of the integrand ends the
    call of [integrate].  The embedding is repeated here with such an
    integrand; with an integrand that always returns, it does what the
    embedding above does. *)
Module Raising.

(** What a call of the integrand gives: a float, or an exception of its
    own, of any kind [E]. *)
Inductive answer (E X : Type) : Type :=
| Returns (x : X)
| Raises (e : E).

Arguments Returns {E X} x.
Arguments Raises {E X} e.

(** What a call of the program gives: a value, an exception that the
    program or a library routine raises, or the exception of the
    integrand. *)
Inductive run (E X : Type) : Type :=
| Done (x : X)
| Fails (e : exn)
| Propagates (e : E).

Arguments Done {E X} x.
Arguments Fails {E X} e.
Arguments Propagates {E X} e.

Definition bind {E X Y : Type} (m : run E X) (k : X -> run E Y) : run E Y :=
  match m with
  | Done x => k x
  | Fails e => Fails e
  | Propagates e => Propagates e
  end.

(** A step that calls no integrand. *)
Definition lift {E X : Type} (o : outcome X) : run E X :=
  match o with
  | Ok x => Done x
  | Raise e => Fails e
  end.

(** The integrand with its exceptions replaced by the value [d]. *)
Definition returning {E X : Type} (d : X) (f : X -> answer E X) (x : X) : X :=
  match f x with
  | Returns v => v
  | Raises _ => d
  end.

Section Embedding.

Variable A : Arith.
Variable E : Type.

Local Abbreviation F := (num A) (only parsing).
Local Notation "x +. y" := (add A x y) (at level 50, left associativity).
Local Notation "x -. y" := (sub A x y) (at level 50, left associativity).
Local Notation "x *. y" := (mul A x y) (at level 40, left associativity).
Local Notation "x /. y" := (div A x y) (at level 40, left associativity).
Local Notation "x >. y" := (ltb A y x) (at level 70, no associativity).
Local Notation "x <. y" := (ltb A x y) (at level 70, no associativity).
Local Notation "x **. y" := (powf A x y) (at level 30, right associativity).
Local Abbreviation L := (lit A) (only parsing).
Local Notation "x <~ m ;; k" := (bind m (fun x => k))
  (at level 61, m at next level, right associativity).
Local Notation "' p <~ m ;; k" := (bind m (fun x => let p := x in k))
  (at level 61, p pattern, m at next level, right associativity).

(** [np.vectorize(f)] on an array: [f] at one entry after the other, the
    first exception ending the evaluation. *)
Fixpoint vectorize (f : F -> answer E F) (zi : list F) : run E (list F) :=
  match zi with
  | [] => Done []
  | x :: zi' =>
      match f x with
      | Raises e => Propagates e
      | Returns v => vs <~ vectorize f zi' ;; Done (v :: vs)
      end
  end.

Definition integrate_gausskronrod {T : Type} (f : list F -> run E (list F))
    (a b : F) (args : T) : run E (F * F) :=
  if b >. a then   (* assert b > a *)
    let mid := L (1 # 2) *. (b +. a) in
    let dx := L (1 # 2) *. (b -. a) in
    let zi := map (fun z => mid +. z *. dx) (gausskronrod_nodes A) in
    integrand <~ f zi ;;
    let integral_G7 :=
      np_sum A (array_mul A (firstn 7 integrand) (gauss_weights A)) in
    let integral_K15 := np_sum A (array_mul A integrand (kronrod_weights A)) in
    let error := (L 200 *. absf A (integral_G7 -. integral_K15)) **. L (3 # 2) in
    Done (integral_K15 *. dx, dx *. error)
  else Fails AssertionError.

Fixpoint seed {T : Type} (fv : list F -> run E (list F)) (args : T)
    (pairs : list (F * F)) (intervals : list (interval A))
    : run E (list (interval A)) :=
  match pairs with
  | [] => Done intervals
  | (left_, right_) :: pairs' =>
      '(I_, err) <~ integrate_gausskronrod fv left_ right_ args ;;
      seed fv args pairs' (insort A intervals (err, left_, right_, I_))
  end.

Definition bisect_worst {T : Type} (fv : list F -> run E (list F)) (args : T)
    (intervals : list (interval A)) : run E (list (interval A)) :=
  '(x, rest) <~ lift (pop A intervals) ;;
  let '(_, left_, right_, _) := x in
  let mid := left_ +. (right_ -. left_) /. L 2 in
  '(I_, err) <~ integrate_gausskronrod fv left_ mid args ;;
  let rest := insort A rest (err, left_, mid, I_) in
  '(I_, err) <~ integrate_gausskronrod fv mid right_ args ;;
  Done (insort A rest (err, mid, right_, I_)).

Definition loop_body {T : Type} (fv : list F -> run E (list F)) (args : T)
    (limit : Z) (tol : F) (intervals : list (interval A)) : run E (step F) :=
  let Itotal := Itotal_of A intervals in
  let err := total_err A intervals in
  q <~ lift (quotient A intervals) ;;
  if absf A q <. tol then Done (Return (Tuple Itotal err))
  else if (Z.of_nat (length intervals) >=? limit)%Z then Done (Return PyFalse)
  else
    intervals' <~ bisect_worst fv args intervals ;;
    Done (Continue intervals').

Fixpoint while_true (turns : nat) {T : Type} (fv : list F -> run E (list F))
    (args : T) (limit : Z) (tol : F) (intervals : list (interval A))
    : option (run E (py_result F)) :=
  match turns with
  | O => None
  | S turns' =>
      match loop_body fv args limit tol intervals with
      | Done (Return r) => Some (Done r)
      | Done (Continue intervals') =>
          while_true turns' fv args limit tol intervals'
      | Fails e => Some (Fails e)
      | Propagates e => Some (Propagates e)
      end
  end.

Definition initial_intervals {T : Type} (f : F -> answer E F) (a b : F)
    (args : T) (minintervals : Z) : run E (list (interval A)) :=
  let fv := vectorize f in
  limits <~ lift (linspace A a b (minintervals + 1)) ;;
  seed fv args (consecutive A limits) [].

Definition integrate (turns : nat) {T : Type} (f : F -> answer E F) (a b : F)
    (args : T) (minintervals limit : Z) (tol : F)
    : option (run E (py_result F)) :=
  match initial_intervals f a b args minintervals with
  | Done intervals => while_true turns (vectorize f) args limit tol intervals
  | Fails e => Some (Fails e)
  | Propagates e => Some (Propagates e)
  end.

End Embedding.

End Raising.

(** A call with the integrand [f] raises what [f] raised at some point, or
    does what the call [o] with an integrand that returns does. *)
Definition follows {A : Arith} {E X : Type}
    (f : num A -> Raising.answer E (num A))
    (r : Raising.run E X) (o : outcome X) : Prop :=
  (exists e x, f x = Raising.Raises e /\ r = Raising.Propagates e) \/
  r = Raising.lift o.

(** The same for a run of the loop, of which some passes are made. *)
Definition run_follows {A : Arith} {E X : Type}
    (f : num A -> Raising.answer E (num A))
    (r : option (Raising.run E X)) (o : option (outcome X)) : Prop :=
  (exists e x, f x = Raising.Raises e /\ r = Some (Raising.Propagates e)) \/
  r = option_map Raising.lift o.

(** [lambda x: 1.0/x]: the division of Python floats raises at zero. *)
Definition reciprocal_raising (x : float)
    : Raising.answer exn float :=
  if PrimFloat.eqb x PrimFloat.zero then Raising.Raises ZeroDivisionError
  else Raising.Returns (PrimFloat.div 1 x).

(** ** The list operations *)

Lemma last_default {X : Type} (l : list X) (d d' : X) :
  l <> [] -> last l d = last l d'.
Proof.
  induction l as [|x [|y l] IH]; intros H; [now elim H | reflexivity |].
  change (last (y :: l) d = last (y :: l) d'). apply IH. discriminate.
Qed.

Lemma removelast_length {X : Type} (l : list X) :
  length (removelast l) = pred (length l).
Proof.
  induction l as [|x [|y l] IH]; try reflexivity.
  change (removelast (x :: y :: l)) with (x :: removelast (y :: l)).
  simpl length in *. now rewrite IH.
Qed.

Section ListOperations.

Variable A : Arith.

Lemma insort_split (a : list (interval A)) (x : interval A) :
  exists a1 a2, a = a1 ++ a2 /\ insort A a x = a1 ++ x :: a2.
Proof.
  exists (firstn (bisect_right A a x) a), (skipn (bisect_right A a x) a).
  split; [symmetry; apply firstn_skipn | reflexivity].
Qed.

Lemma insort_length (a : list (interval A)) (x : interval A) :
  length (insort A a x) = S (length a).
Proof.
  destruct (insort_split a x) as (a1 & a2 & Ha & Hi).
  rewrite Hi, Ha, !length_app. simpl. lia.
Qed.

Lemma insort_perm (a : list (interval A)) (x : interval A) :
  Permutation (x :: a) (insort A a x).
Proof.
  destruct (insort_split a x) as (a1 & a2 & Ha & Hi).
  rewrite Hi, Ha. apply Permutation_middle.
Qed.

Lemma pop_spec (a : list (interval A)) x rest :
  pop A a = Ok (x, rest) <-> a = rest ++ [x].
Proof.
  unfold pop. split.
  - destruct (rev a) as [|y r] eqn:E; [discriminate|].
    intros H. inversion H; subst.
    rewrite <- (rev_involutive a), E. reflexivity.
  - intros ->. rewrite rev_app_distr. simpl. now rewrite rev_involutive.
Qed.

Lemma pop_empty (a : list (interval A)) e : pop A a = Raise e -> a = [].
Proof.
  unfold pop. destruct (rev a) eqn:E; [|discriminate].
  intros _. rewrite <- (rev_involutive a), E. reflexivity.
Qed.

End ListOperations.

(** ** The control structure, for every arithmetic *)

Section Control.

Variable A : Arith.

Lemma loop_body_nonempty {T : Type} fv (args : T) limit tol x intervals0 :
  let intervals := x :: intervals0 in
  loop_body A fv args limit tol intervals =
    if tolerance_test A tol intervals
    then Ok (Return (Tuple (Itotal_of A intervals) (total_err A intervals)))
    else if (Z.of_nat (length intervals) >=? limit)%Z then Ok (Return PyFalse)
    else bind (bisect_worst A fv args intervals) (fun i => Ok (Continue i)).
Proof. reflexivity. Qed.

Lemma loop_body_empty {T : Type} fv (args : T) limit tol :
  loop_body A fv args limit tol [] = Raise ZeroDivisionError.
Proof. reflexivity. Qed.

Lemma bisect_worst_spec {T : Type} fv (args : T) intervals intervals' :
  bisect_worst A fv args intervals = Ok intervals' <->
  exists rest e left_ right_ i I1 err1 I2 err2,
    intervals = rest ++ [(e, left_, right_, i)] /\
    integrate_gausskronrod A fv left_ (midpoint A left_ right_) args
      = Ok (I1, err1) /\
    integrate_gausskronrod A fv (midpoint A left_ right_) right_ args
      = Ok (I2, err2) /\
    intervals' =
      insort A (insort A rest (err1, left_, midpoint A left_ right_, I1))
             (err2, midpoint A left_ right_, right_, I2).
Proof.
  unfold bisect_worst, midpoint. split.
  - destruct (pop A intervals) as [[[[[e l] r] i] rest]|] eqn:Hp; [|discriminate].
    apply pop_spec in Hp. simpl.
    destruct (integrate_gausskronrod A fv l _ args) as [[I1 err1]|] eqn:H1;
      [|discriminate]. simpl.
    destruct (integrate_gausskronrod A fv _ r args) as [[I2 err2]|] eqn:H2;
      [|discriminate]. simpl.
    intros H. injection H as <-.
    exists rest, e, l, r, i, I1, err1, I2, err2. auto.
  - intros (rest & e & l & r & i & I1 & err1 & I2 & err2 & -> & H1 & H2 & ->).
    rewrite (proj2 (pop_spec A _ _ _) eq_refl). simpl.
    rewrite H1. simpl. rewrite H2. reflexivity.
Qed.

Lemma bisect_worst_length {T : Type} fv (args : T) intervals intervals' :
  bisect_worst A fv args intervals = Ok intervals' ->
  length intervals' = S (length intervals).
Proof.
  intros H. apply bisect_worst_spec in H.
  destruct H as (rest & e & l & r & i & I1 & err1 & I2 & err2 & -> & _ & _ & ->).
  rewrite !insort_length, length_app. simpl. lia.
Qed.

Lemma loop_body_continue {T : Type} fv (args : T) limit tol intervals intervals' :
  loop_body A fv args limit tol intervals = Ok (Continue intervals') <->
  intervals <> [] /\ tolerance_test A tol intervals = false /\
  (Z.of_nat (length intervals) < limit)%Z /\
  bisect_worst A fv args intervals = Ok intervals'.
Proof.
  destruct intervals as [|x l].
  - rewrite loop_body_empty. split; [discriminate | intros [H _]; now elim H].
  - rewrite loop_body_nonempty.
    destruct (tolerance_test A tol (x :: l)).
    + split; [discriminate | intros (_ & H & _); discriminate].
    + destruct (Z.geb_spec (Z.of_nat (length (x :: l))) limit) as [Hge|Hlt].
      * split; [discriminate | intros (_ & _ & H & _); lia].
      * destruct (bisect_worst A fv args (x :: l)) as [i|e]; simpl.
        -- split.
           ++ intros H. injection H as ->. repeat split; auto. discriminate.
           ++ intros (_ & _ & _ & H). now inversion H.
        -- split; [discriminate | intros (_ & _ & _ & H); discriminate].
Qed.

Lemma loop_body_tuple {T : Type} fv (args : T) limit tol intervals v e :
  loop_body A fv args limit tol intervals = Ok (Return (Tuple v e)) <->
  intervals <> [] /\ tolerance_test A tol intervals = true /\
  v = Itotal_of A intervals /\ e = total_err A intervals.
Proof.
  destruct intervals as [|x l].
  - rewrite loop_body_empty. split; [discriminate | intros [H _]; now elim H].
  - rewrite loop_body_nonempty.
    destruct (tolerance_test A tol (x :: l)).
    + split.
      * intros H. inversion H. repeat split; auto. discriminate.
      * intros (_ & _ & -> & ->). reflexivity.
    + split; [|intros (_ & H & _); discriminate].
      destruct (Z.of_nat (length (x :: l)) >=? limit)%Z; [discriminate|].
      destruct (bisect_worst A fv args (x :: l)); discriminate.
Qed.

Lemma loop_body_false {T : Type} fv (args : T) limit tol intervals :
  loop_body A fv args limit tol intervals = Ok (Return PyFalse) <->
  intervals <> [] /\ tolerance_test A tol intervals = false /\
  (Z.of_nat (length intervals) >= limit)%Z.
Proof.
  destruct intervals as [|x l].
  - rewrite loop_body_empty. split; [discriminate | intros [H _]; now elim H].
  - rewrite loop_body_nonempty.
    destruct (tolerance_test A tol (x :: l)).
    + split; [discriminate | intros (_ & H & _); discriminate].
    + destruct (Z.geb_spec (Z.of_nat (length (x :: l))) limit) as [Hge|Hlt].
      * split; [|reflexivity]. intros _. repeat split; [discriminate|lia].
      * split; [|intros (_ & _ & H); lia].
        destruct (bisect_worst A fv args (x :: l)); discriminate.
Qed.

End Control.

(** ** Termination of the loop *)

Section Termination.

Variable A : Arith.

Lemma linspace_length start stop n limits :
  linspace A start stop n = Ok limits -> length limits = Z.to_nat n.
Proof.
  unfold linspace. destruct (Z.ltb_spec n 0) as [|Hn]; [discriminate|].
  intros H. injection H as <-.
  set (y := map _ (if (0 <? n - 1)%Z then _ else _)).
  assert (Hy : length y = Z.to_nat n).
  { unfold y. rewrite length_map.
    destruct (0 <? n - 1)%Z; [destruct (eqb A _ _)|];
      now rewrite !length_map, length_seq. }
  destruct (Z.ltb_spec 1 n) as [H1|H1]; [|exact Hy].
  rewrite length_app, removelast_length, Hy. simpl. lia.
Qed.

Lemma consecutive_length (limits : list (num A)) :
  length (consecutive A limits) = pred (length limits).
Proof.
  unfold consecutive. rewrite length_combine, removelast_length.
  destruct limits as [|x l]; simpl; lia.
Qed.

Lemma seed_length {T : Type} fv (args : T) pairs intervals intervals' :
  seed A fv args pairs intervals = Ok intervals' ->
  length intervals' = (length intervals + length pairs)%nat.
Proof.
  revert intervals. induction pairs as [|[l r] pairs IH]; intros intervals; simpl.
  - intros H. injection H as <-. lia.
  - destruct (integrate_gausskronrod A fv l r args) as [[I_ err]|]; [|discriminate].
    simpl. intros H. apply IH in H. rewrite insort_length in H. lia.
Qed.

Lemma initial_intervals_length {T : Type} f a b (args : T) minintervals intervals :
  initial_intervals A f a b args minintervals = Ok intervals ->
  length intervals = Z.to_nat minintervals.
Proof.
  unfold initial_intervals.
  destruct (linspace A a b (minintervals + 1)) as [limits|] eqn:Hl; [|discriminate].
  simpl. intros H. apply seed_length in H. apply linspace_length in Hl.
  rewrite consecutive_length, Hl in H. simpl in H. lia.
Qed.

Lemma while_true_enough {T : Type} fv (args : T) limit tol turns :
  forall intervals,
  (Z.to_nat (limit - Z.of_nat (length intervals)) < turns)%nat ->
  exists r, while_true A turns fv args limit tol intervals = Some r.
Proof.
  induction turns as [|turns IH]; intros intervals Hm; [lia|].
  simpl.
  destruct (loop_body A fv args limit tol intervals) as [[r|intervals']|e] eqn:Hb;
    eauto.
  apply loop_body_continue in Hb. destruct Hb as (_ & _ & Hlt & Hw).
  apply bisect_worst_length in Hw.
  apply IH. rewrite Hw. lia.
Qed.

Lemma while_true_more {T : Type} fv (args : T) limit tol turns r :
  forall intervals turns',
  while_true A turns fv args limit tol intervals = Some r ->
  (turns <= turns')%nat ->
  while_true A turns' fv args limit tol intervals = Some r.
Proof.
  induction turns as [|turns IH]; intros intervals turns' H Hle; [discriminate|].
  destruct turns' as [|turns']; [lia|].
  simpl in *.
  destruct (loop_body A fv args limit tol intervals) as [[r'|intervals']|e];
    try assumption.
  apply IH; [assumption | lia].
Qed.

Lemma while_true_tuple {T : Type} fv (args : T) limit tol turns v e :
  forall intervals,
  while_true A turns fv args limit tol intervals = Some (Ok (Tuple v e)) ->
  exists intervals',
    loop_body A fv args limit tol intervals' = Ok (Return (Tuple v e)).
Proof.
  induction turns as [|turns IH]; intros intervals H; [discriminate|].
  simpl in H.
  destruct (loop_body A fv args limit tol intervals) as [[r'|intervals']|e0] eqn:Hb.
  - injection H as ->. eauto.
  - eauto.
  - discriminate.
Qed.

End Termination.

(** ** Division by zero in binary64 *)

Section Binary64.

Lemma SFdiv_by_zero_not_below (x t : spec_float) (s : bool) :
  SFltb (SFabs (SFdiv prec emax x (S754_zero s))) t = false.
Proof.
  destruct x as [sx|sx| |sx mx ex]; destruct t as [st|st| |st mt et];
    try reflexivity; destruct st; reflexivity.
Qed.

Lemma SFeqb_zero (x : spec_float) :
  SFeqb x (S754_zero false) = true -> exists s, x = S754_zero s.
Proof.
  destruct x as [sx|sx| |sx mx ex]; [eauto | | discriminate | ];
    destruct sx; discriminate.
Qed.

(** [x / z] with [z == 0] is an infinity or NaN, and [abs] of it is below
    no number. *)
Lemma float_div_by_zero_not_below (x z t : float) :
  PrimFloat.eqb z PrimFloat.zero = true ->
  PrimFloat.ltb (PrimFloat.abs (PrimFloat.div x z)) t = false.
Proof.
  rewrite eqb_spec. change (Prim2SF PrimFloat.zero) with (S754_zero false).
  intros H. apply SFeqb_zero in H. destruct H as [s Hz].
  rewrite ltb_spec, abs_spec, div_spec, Hz.
  apply SFdiv_by_zero_not_below.
Qed.

Variable libm_pow : float -> float -> float.

(** The tables at [binary64] are the doubles that Python reads from the
    source text. *)
#[local] Set Warnings "-inexact-float".

Lemma tables_binary64 :
  gausskronrod_nodes (binary64 libm_pow)
  = [ 0.949107912342759; -0.949107912342759;
      0.741531185599394; -0.741531185599394;
      0.405845151377397; -0.405845151377397;
      0.000000000000000;
      0.991455371120813; -0.991455371120813;
      0.864864423359769; -0.864864423359769;
      0.586087235467691; -0.586087235467691;
      0.207784955007898; -0.207784955007898 ]%float /\
  gauss_weights (binary64 libm_pow)
  = [ 0.129484966168870; 0.129484966168870;
      0.279705391489277; 0.279705391489277;
      0.381830050505119; 0.381830050505119;
      0.417959183673469 ]%float /\
  kronrod_weights (binary64 libm_pow)
  = [ 0.063092092629979; 0.063092092629979;
      0.140653259715525; 0.140653259715525;
      0.190350578064785; 0.190350578064785;
      0.209482141084728;
      0.022935322010529; 0.022935322010529;
      0.104790010322250; 0.104790010322250;
      0.169004726639267; 0.169004726639267;
      0.204432940075298; 0.204432940075298 ]%float /\
  default_tol (binary64 libm_pow) = 1e-10%float.
Proof. repeat split; vm_compute; reflexivity. Qed.


End Binary64.

Open Scope R_scope.

(** ** Real arithmetic *)

Ltac real_ops :=
  cbn [num lit add sub mul div absf sqrtf powf ltb eqb real_arith] in *.

Section RealArithmetic.

Lemma Rltb_true x y : Rltb x y = true <-> x < y.
Proof. unfold Rltb. destruct (Rlt_dec x y); split; auto; discriminate. Qed.

Lemma Rltb_false x y : Rltb x y = false <-> y <= x.
Proof.
  unfold Rltb. destruct (Rlt_dec x y); split; auto; try discriminate; lra.
Qed.

Lemma Reqb_true x y : Reqb x y = true <-> x = y.
Proof. unfold Reqb. destruct (Req_dec_T x y); split; auto; discriminate. Qed.

Lemma Q2R_nat (i : nat) : Q2R (inject_Z (Z.of_nat i)) = INR i.
Proof. unfold Q2R, inject_Z. simpl. rewrite INR_IZR_INZ. field. Qed.

Lemma Q2R_Z (z : Z) : Q2R (inject_Z z) = IZR z.
Proof. unfold Q2R, inject_Z. simpl. field. Qed.

Lemma fold_left_Rplus (l : list R) (x : R) :
  fold_left Rplus l x = x + fold_right Rplus 0 l.
Proof.
  revert x. induction l as [|y l IH]; intros x; simpl; [lra|].
  rewrite IH. lra.
Qed.

Lemma py_sum_real (l : list R) : py_sum real_arith l = fold_right Rplus 0 l.
Proof.
  unfold py_sum. real_ops. rewrite fold_left_Rplus.
  change (Q2R 0) with (0 * / 1). lra.
Qed.

Lemma add_blocks_real (n : nat) :
  forall (v : list R) r0 r1 r2 r3 r4 r5 r6 r7,
  (length v <= n)%nat ->
  let '((s0, s1, s2, s3, s4, s5, s6, s7), rest) :=
    add_blocks real_arith (r0, r1, r2, r3, r4, r5, r6, r7) v in
  s0 + s1 + s2 + s3 + s4 + s5 + s6 + s7 + fold_right Rplus 0 rest
  = r0 + r1 + r2 + r3 + r4 + r5 + r6 + r7 + fold_right Rplus 0 v.
Proof.
  induction n as [|n IH]; intros v r0 r1 r2 r3 r4 r5 r6 r7 Hn.
  - destruct v; [reflexivity | simpl in Hn; lia].
  - destruct v as [|b0 [|b1 [|b2 [|b3 [|b4 [|b5 [|b6 [|b7 v]]]]]]]];
      try reflexivity.
    cbn [add_blocks]. real_ops.
    specialize (IH v (r0 + b0) (r1 + b1) (r2 + b2) (r3 + b3)
                  (r4 + b4) (r5 + b5) (r6 + b6) (r7 + b7)).
    destruct (add_blocks real_arith _ v)
      as [[[[[[[[s0 s1] s2] s3] s4] s5] s6] s7] rest].
    rewrite IH by (simpl in Hn; lia). simpl. lra.
Qed.

Lemma np_sum_real (l : list R) : np_sum real_arith l = fold_right Rplus 0 l.
Proof.
  unfold np_sum, pairwise_sum.
  destruct l as [|a0 [|a1 [|a2 [|a3 [|a4 [|a5 [|a6 [|a7 v]]]]]]]];
    try (real_ops; rewrite fold_left_Rplus;
         change (Q2R 0) with (0 * / 1); simpl; lra).
  pose proof (add_blocks_real (length v) v a0 a1 a2 a3 a4 a5 a6 a7 (le_n _))
    as H.
  destruct (add_blocks real_arith _ v)
    as [[[[[[[[s0 s1] s2] s3] s4] s5] s6] s7] rest].
  real_ops. rewrite fold_left_Rplus. change (Q2R 0) with (0 * / 1).
  simpl. lra.
Qed.

Lemma np_sum_array_mul (v w : list R) :
  np_sum real_arith (array_mul real_arith v w) = dot v w.
Proof.
  rewrite np_sum_real. revert w.
  induction v as [|x v IH]; intros [|y w]; simpl; try reflexivity.
  now rewrite IH.
Qed.

Lemma eval_points_real (a b : R) :
  map (fun z => add real_arith (mul real_arith (lit real_arith (1 # 2))
                                   (add real_arith b a))
                  (mul real_arith z (mul real_arith (lit real_arith (1 # 2))
                                         (sub real_arith b a))))
      (gausskronrod_nodes real_arith)
  = spec_points a b.
Proof.
  unfold spec_points. apply map_ext. intros z. real_ops.
  unfold Q2R. simpl. field.
Qed.

Lemma integrate_gausskronrod_real {T : Type} f a b (args : T) :
  a < b ->
  integrate_gausskronrod real_arith f a b args = Ok (quadrature_rule_spec f a b).
Proof.
  intros Hab. unfold integrate_gausskronrod.
  replace (ltb real_arith a b) with true
    by (symmetry; now apply Rltb_true).
  rewrite eval_points_real. unfold quadrature_rule_spec.
  rewrite !np_sum_array_mul. real_ops. f_equal. f_equal.
  - unfold Q2R. simpl. field.
  - replace (Q2R 200) with 200 by (unfold Q2R; simpl; field).
    replace (Q2R (3 # 2)) with (3 / 2) by (unfold Q2R; simpl; field).
    unfold Q2R. simpl. field.
Qed.

Lemma integrate_gausskronrod_assert (A : Arith) {T : Type} f a b (args : T) :
  ltb A a b = false ->
  integrate_gausskronrod A f a b args = Raise AssertionError.
Proof. intros H. unfold integrate_gausskronrod. now rewrite H. Qed.

Lemma integrate_gausskronrod_ok (A : Arith) {T : Type} f a b (args : T) r :
  integrate_gausskronrod A f a b args = Ok r -> ltb A a b = true.
Proof.
  unfold integrate_gausskronrod. destruct (ltb A a b); [reflexivity|discriminate].
Qed.

End RealArithmetic.

(** ** The initial partition in real arithmetic *)

Section InitialPartition.

Lemma sample_first a b n : sample a b n 0 = a.
Proof. unfold sample. simpl. lra. Qed.

Lemma sample_last a b n :
  (1 <= n)%Z -> sample a b n (Z.to_nat n) = b.
Proof.
  intros Hn. unfold sample. rewrite INR_IZR_INZ, Z2Nat.id by lia.
  assert (IZR n <> 0) by (apply not_0_IZR; lia). field. assumption.
Qed.

Lemma sample_step a b n i :
  (1 <= n)%Z -> sample a b n (S i) - sample a b n i = (b - a) / IZR n.
Proof. intros Hn. unfold sample. rewrite S_INR. lra. Qed.

Lemma linspace_real (a b : R) (n : Z) :
  (1 <= n)%Z ->
  linspace real_arith a b (n + 1)
  = Ok (map (sample a b n) (seq 0 (S (Z.to_nat n)))).
Proof.
  intros Hn. unfold linspace.
  destruct (Z.ltb_spec (n + 1) 0) as [|_]; [lia|].
  replace (n + 1 - 1)%Z with n by lia.
  destruct (Z.ltb_spec 0 n) as [_|]; [|lia].
  destruct (Z.ltb_spec 1 (n + 1)) as [_|]; [|lia].
  replace (Z.to_nat (n + 1)) with (S (Z.to_nat n)) by lia.
  assert (Hz : IZR n <> 0) by (apply not_0_IZR; lia).
  f_equal.
  match goal with
  | |- removelast (map ?g ?y) ++ _ = _ =>
      assert (Hy : map g y = map (sample a b n) (seq 0 (S (Z.to_nat n))))
  end.
  { destruct (eqb real_arith _ _); rewrite !map_map; apply map_ext; intros i;
      real_ops; rewrite Q2R_nat, Q2R_Z; unfold sample; field; assumption. }
  rewrite Hy, seq_S, map_app. simpl map at 2.
  rewrite removelast_last.
  change (0 + Z.to_nat n)%nat with (Z.to_nat n).
  simpl map. now rewrite sample_last.
Qed.

Lemma consecutive_map (g : nat -> R) (m start : nat) :
  consecutive real_arith (map g (seq start (S m)))
  = map (fun i => (g i, g (S i))) (seq start m).
Proof.
  unfold consecutive. revert start.
  induction m as [|m IH]; intros start; [reflexivity|].
  specialize (IH (S start)).
  change (seq start (S (S m))) with (start :: seq (S start) (S m)).
  rewrite map_cons.
  change (seq start (S m)) with (start :: seq (S start) m).
  rewrite map_cons, <- IH. clear IH.
  change (seq (S start) (S m)) with (S start :: seq (S (S start)) m).
  reflexivity.
Qed.

End InitialPartition.

(** ** The partition of [[a, b]] *)

Section Partition.

Variable A : Arith.

Local Abbreviation passes := (fun p => ltb A (fst p) (snd p) = true).

Lemma chain_bisect c1 : forall a b l r m c2,
  chain A a b (c1 ++ (l, r) :: c2) ->
  ltb A l m = true -> ltb A m r = true ->
  chain A a b (c1 ++ (l, m) :: (m, r) :: c2).
Proof.
  induction c1 as [|p c1 IH]; intros a b l r m c2 H Hl Hr; simpl in *.
  - inversion H; subst.
    + apply chain_next; [assumption|]. now apply chain_last.
    + apply chain_next; [assumption|]. now apply chain_next.
  - inversion H; subst.
    + destruct c1; discriminate.
    + apply chain_next; [assumption|]. now apply IH.
Qed.

Lemma chain_passes a b c : chain A a b c -> Forall passes c.
Proof.
  induction 1 as [a b H|a m b c H Hc IH]; constructor; auto.
Qed.

Lemma consecutive_cons (x y : num A) (l : list (num A)) :
  consecutive A (x :: y :: l) = (x, y) :: consecutive A (y :: l).
Proof. reflexivity. Qed.

Lemma consecutive_chain (limits : list (num A)) : forall first,
  limits <> [] ->
  Forall passes (consecutive A (first :: limits)) ->
  chain A first (last limits first) (consecutive A (first :: limits)).
Proof.
  induction limits as [|y limits IH]; intros first Hne Hp; [now elim Hne|].
  rewrite consecutive_cons in *. inversion Hp as [|p ps Hy Hrest]; subst.
  destruct limits as [|z limits].
  - apply chain_last. exact Hy.
  - apply chain_next; [exact Hy|].
    change (last (y :: z :: limits) first) with (last (z :: limits) first).
    rewrite (last_default (z :: limits) first y) by discriminate.
    apply IH; [discriminate | exact Hrest].
Qed.

Lemma seed_passes {T : Type} fv (args : T) pairs :
  forall intervals intervals',
  seed A fv args pairs intervals = Ok intervals' -> Forall passes pairs.
Proof.
  induction pairs as [|[l r] pairs IH]; intros intervals intervals'; simpl;
    [constructor|].
  destruct (integrate_gausskronrod A fv l r args) as [[I_ err]|] eqn:Hq;
    [|discriminate].
  simpl. intros H. constructor.
  - now apply integrate_gausskronrod_ok in Hq.
  - eapply IH. exact H.
Qed.

Lemma seed_perm {T : Type} fv (args : T) pairs :
  forall intervals intervals',
  seed A fv args pairs intervals = Ok intervals' ->
  Permutation (map (bounds A) intervals ++ pairs) (map (bounds A) intervals').
Proof.
  induction pairs as [|[l r] pairs IH]; intros intervals intervals'; simpl.
  - intros H. injection H as <-. now rewrite app_nil_r.
  - destruct (integrate_gausskronrod A fv l r args) as [[I_ err]|];
      [|discriminate].
    simpl. intros H. apply IH in H. rewrite <- H.
    rewrite <- (Permutation_map (bounds A) (insort_perm A intervals (err, l, r, I_))).
    simpl. unfold bounds at 2. simpl.
    change ((l, r) :: map (bounds A) intervals ++ pairs)
      with (((l, r) :: map (bounds A) intervals) ++ pairs).
    symmetry. apply Permutation_middle.
Qed.

(** With at least one initial interval, the samples of [np.linspace] are at
    least two and the last one is [stop]. *)
Lemma linspace_last start stop n limits :
  (1 <= n)%Z -> linspace A start stop (n + 1) = Ok limits ->
  exists first rest,
    limits = first :: rest /\ rest <> [] /\ last rest first = stop.
Proof.
  intros Hn H. pose proof (linspace_length A start stop (n + 1) limits H) as Hlen.
  unfold linspace in H.
  destruct (Z.ltb_spec (n + 1) 0) as [|_]; [lia|].
  destruct (Z.ltb_spec 1 (n + 1)) as [_|]; [|lia].
  injection H as <-.
  match goal with
  | Hl : length (removelast ?y ++ _) = _ |- _ => set (y0 := y) in *
  end.
  rewrite length_app, removelast_length in Hlen. simpl in Hlen.
  destruct (removelast y0) as [|first rest] eqn:Hy.
  - apply (f_equal (@length _)) in Hy. rewrite removelast_length in Hy.
    simpl in Hy. lia.
  - exists first, (rest ++ [stop]). repeat split.
    + now destruct rest.
    + apply last_last.
Qed.

Lemma initial_chain {T : Type} f a b (args : T) minintervals intervals :
  (1 <= minintervals)%Z ->
  initial_intervals A f a b args minintervals = Ok intervals ->
  exists first rest,
    linspace A a b (minintervals + 1) = Ok (first :: rest) /\
    partition_of A first b intervals.
Proof.
  intros Hn. unfold initial_intervals.
  destruct (linspace A a b (minintervals + 1)) as [limits|] eqn:Hl;
    [|discriminate].
  destruct (linspace_last a b minintervals limits Hn Hl)
    as (first & rest & -> & Hne & Hlast).
  cbv beta iota zeta delta [bind]. intros Hs.
  exists first, rest. split; [reflexivity|].
  exists (consecutive A (first :: rest)). split.
  - rewrite <- Hlast. apply consecutive_chain; [exact Hne|].
    eapply seed_passes. exact Hs.
  - apply seed_perm in Hs. exact Hs.
Qed.

(** One bisection: the popped interval [(l, r)] gives way to [(l, mid)] and
    [(mid, r)], and nothing else changes. *)
Lemma bisect_worst_bounds {T : Type} fv (args : T) intervals intervals' :
  bisect_worst A fv args intervals = Ok intervals' ->
  exists rest x,
    intervals = rest ++ [x] /\
    ltb A (left_of A x) (midpoint A (left_of A x) (right_of A x)) = true /\
    ltb A (midpoint A (left_of A x) (right_of A x)) (right_of A x) = true /\
    Permutation
      ((left_of A x, midpoint A (left_of A x) (right_of A x))
       :: (midpoint A (left_of A x) (right_of A x), right_of A x)
       :: map (bounds A) rest)
      (map (bounds A) intervals').
Proof.
  intros H. apply bisect_worst_spec in H.
  destruct H as (rest & e & l & r & i & I1 & err1 & I2 & err2 & -> & H1 & H2 & ->).
  exists rest, (e, l, r, i). simpl.
  apply integrate_gausskronrod_ok in H1, H2.
  repeat split; try assumption.
  rewrite <- (Permutation_map (bounds A) (insort_perm A _ _)). simpl.
  rewrite <- (Permutation_map (bounds A) (insort_perm A _ _)). simpl.
  apply perm_swap.
Qed.

Lemma bisect_worst_partition {T : Type} fv (args : T) a b intervals intervals' :
  bisect_worst A fv args intervals = Ok intervals' ->
  partition_of A a b intervals -> partition_of A a b intervals'.
Proof.
  intros H (c & Hc & Hp). apply bisect_worst_bounds in H.
  destruct H as (rest & x & -> & Hl & Hr & Hperm).
  set (l := left_of A x) in *. set (r := right_of A x) in *.
  set (m := midpoint A l r) in *.
  rewrite map_app in Hp. simpl in Hp.
  change (bounds A x) with (l, r) in Hp.
  assert (Hin : In (l, r) c).
  { apply (Permutation_in _ (Permutation_sym Hp)), in_or_app.
    right. now left. }
  apply in_split in Hin. destruct Hin as (c1 & c2 & ->).
  exists (c1 ++ (l, m) :: (m, r) :: c2). split.
  - now apply chain_bisect.
  - rewrite <- Hperm.
    assert (Hrest : Permutation (c1 ++ c2) (map (bounds A) rest)).
    { apply Permutation_cons_inv with (a := (l, r)).
      rewrite (Permutation_middle c1 c2 (l, r)), Hp.
      symmetry. apply Permutation_cons_append. }
    rewrite <- Hrest.
    rewrite <- (Permutation_middle c1 _ (l, m)).
    apply perm_skip. symmetry. apply Permutation_middle.
Qed.

Lemma loop_reaches_partition {T : Type} fv (args : T) limit tol a b
    intervals0 intervals :
  loop_reaches A fv args limit tol intervals0 intervals ->
  partition_of A a b intervals0 -> partition_of A a b intervals.
Proof.
  induction 1 as [|i0 i1 i2 _ IH Hb]; intros Hp; [assumption|].
  apply loop_body_continue in Hb. destruct Hb as (_ & _ & _ & Hw).
  eapply bisect_worst_partition; [exact Hw | apply IH; exact Hp].
Qed.

End Partition.

(** ** Widths in real arithmetic *)

Section RealPartition.

Lemma chain_width a b c :
  chain real_arith a b c -> fold_right Rplus 0 (map width c) = b - a.
Proof.
  induction 1 as [a b H|a m b c H _ IH]; simpl; unfold width at 1; simpl.
  - lra.
  - rewrite IH. lra.
Qed.

Lemma Permutation_sum (l l' : list R) :
  Permutation l l' -> fold_right Rplus 0 l = fold_right Rplus 0 l'.
Proof. induction 1; simpl; lra. Qed.

Lemma partition_width a b intervals :
  partition_of real_arith a b intervals -> total_width intervals = b - a.
Proof.
  intros (c & Hc & Hp). unfold total_width.
  rewrite <- (chain_width a b c Hc). symmetry.
  apply Permutation_sum. now apply Permutation_map.
Qed.

Lemma sample_increases a b n i :
  a < b -> (1 <= n)%Z -> sample a b n i < sample a b n (S i).
Proof.
  intros Hab Hn. pose proof (sample_step a b n i Hn).
  assert (0 < (b - a) / IZR n).
  { apply Rdiv_lt_0_compat; [lra|]. apply IZR_lt. lia. }
  lra.
Qed.

Lemma seed_succeeds {T : Type} fv (args : T) pairs :
  Forall (fun p => fst p < snd p) pairs ->
  forall intervals, exists intervals',
  seed real_arith fv args pairs intervals = Ok intervals'.
Proof.
  induction 1 as [|[l r] pairs Hlr _ IH]; intros intervals; simpl.
  - eauto.
  - simpl in Hlr. rewrite (integrate_gausskronrod_real fv l r args Hlr). simpl.
    apply IH.
Qed.

(** In real arithmetic with [a < b] no assertion fails while the intervals
    are seeded, and the first sample is [a]. *)
Lemma initial_partition {T : Type} f a b (args : T) minintervals :
  a < b -> (1 <= minintervals)%Z ->
  exists intervals,
    initial_intervals real_arith f a b args minintervals = Ok intervals /\
    Permutation
      (map (fun i => (sample a b minintervals i, sample a b minintervals (S i)))
           (seq 0 (Z.to_nat minintervals)))
      (map (bounds real_arith) intervals) /\
    partition_of real_arith a b intervals.
Proof.
  intros Hab Hn.
  assert (Hok : exists intervals,
             initial_intervals real_arith f a b args minintervals = Ok intervals /\
             Permutation
               (map (fun i => (sample a b minintervals i,
                               sample a b minintervals (S i)))
                    (seq 0 (Z.to_nat minintervals)))
               (map (bounds real_arith) intervals)).
  { unfold initial_intervals.
    rewrite (linspace_real a b minintervals Hn).
    cbv beta iota zeta delta [bind]. rewrite consecutive_map.
    destruct (seed_succeeds (map f) args
                (map (fun i => (sample a b minintervals i,
                                sample a b minintervals (S i)))
                     (seq 0 (Z.to_nat minintervals)))) with (intervals := @nil (interval real_arith))
      as [intervals Hs].
    - rewrite Forall_forall. intros p Hp. apply in_map_iff in Hp.
      destruct Hp as (i & <- & _). simpl. now apply sample_increases.
    - exists intervals. split; [exact Hs|].
      apply seed_perm in Hs. exact Hs. }
  destruct Hok as (intervals & Hinit & Hperm).
  exists intervals. repeat split; try assumption.
  destruct (initial_chain real_arith f a b args minintervals intervals Hn Hinit)
    as (first & rest & Hl & Hp).
  rewrite (linspace_real a b minintervals Hn) in Hl.
  change (seq 0 (S (Z.to_nat minintervals)))
    with (0%nat :: seq 1 (Z.to_nat minintervals)) in Hl.
  rewrite map_cons, sample_first in Hl. injection Hl as <- _. exact Hp.
Qed.

End RealPartition.

(** ** The order of [intervals] *)

Section Order.

Variable A : Arith.
Variable key : num A -> R.
Hypothesis Hord : ordered_by A key.

Lemma tuple_lt_lexb e1 l1 r1 i1 e2 l2 r2 i2 :
  tuple_lt A (e1, l1, r1, i1) (e2, l2, r2, i2)
  = lexb A e1 e2 (lexb A l1 l2 (lexb A r1 r2 (lexb A i1 i2 false))).
Proof. reflexivity. Qed.

(** Two numbers that compare stand in one of three ways. *)
Lemma compare_cases x y :
  comparable A x -> comparable A y ->
  (key x < key y /\ ltb A x y = true /\ ltb A y x = false /\
   eqb A x y = false /\ eqb A y x = false) \/
  (key x = key y /\ ltb A x y = false /\ ltb A y x = false /\
   eqb A x y = true /\ eqb A y x = true) \/
  (key y < key x /\ ltb A x y = false /\ ltb A y x = true /\
   eqb A x y = false /\ eqb A y x = false).
Proof.
  intros Hx Hy.
  destruct (Hord x y Hx Hy) as [Hlt Heq].
  destruct (Hord y x Hy Hx) as [Hgt Heq'].
  assert (Hb : forall b (P : Prop), (b = true <-> P) -> ~ P -> b = false).
  { intros [|] P HP Hn; [elim Hn; now apply HP | reflexivity]. }
  destruct (Rtotal_order (key x) (key y)) as [H|[H|H]].
  - left. repeat split; try assumption.
    + now apply Hlt.
    + apply (Hb _ _ Hgt). lra.
    + apply (Hb _ _ Heq). lra.
    + apply (Hb _ _ Heq'). lra.
  - right. left. repeat split; try assumption.
    + apply (Hb _ _ Hlt). lra.
    + apply (Hb _ _ Hgt). lra.
    + now apply Heq.
    + now apply Heq'.
  - right. right. repeat split; try assumption.
    + apply (Hb _ _ Hlt). lra.
    + now apply Hgt.
    + apply (Hb _ _ Heq). lra.
    + apply (Hb _ _ Heq'). lra.
Qed.

Ltac three_ways x y Hx Hy :=
  let K := fresh "K" in
  let L1 := fresh "L" in let L2 := fresh "L" in
  let E1 := fresh "E" in let E2 := fresh "E" in
  destruct (compare_cases x y Hx Hy)
    as [(K & L1 & L2 & E1 & E2)|[(K & L1 & L2 & E1 & E2)|(K & L1 & L2 & E1 & E2)]];
  unfold lexb; rewrite ?L1, ?L2, ?E1, ?E2; simpl.

Lemma lexb_below_trans a b c p q r :
  comparable A a -> comparable A b -> comparable A c ->
  lexb A a b p = true -> lexb A c b q = false ->
  (p = true -> q = false -> r = true) -> lexb A a c r = true.
Proof.
  intros Ha Hb Hc.
  three_ways a b Ha Hb; three_ways c b Hc Hb; three_ways a c Ha Hc;
    intros; try discriminate; try reflexivity; try lra; auto.
Qed.

Lemma lexb_not_below_trans a b c p q r :
  comparable A a -> comparable A b -> comparable A c ->
  lexb A a b p = false -> lexb A b c q = false ->
  (p = false -> q = false -> r = false) -> lexb A a c r = false.
Proof.
  intros Ha Hb Hc.
  three_ways a b Ha Hb; three_ways b c Hb Hc; three_ways a c Ha Hc;
    intros; try discriminate; try reflexivity; try lra; auto.
Qed.

Lemma lexb_asym a b p q :
  comparable A a -> comparable A b ->
  lexb A a b p = true -> (p = true -> q = false) -> lexb A b a q = false.
Proof.
  intros Ha Hb.
  three_ways a b Ha Hb; intros; try discriminate; try reflexivity; auto.
Qed.

Lemma lexb_first a b p :
  comparable A a -> comparable A b ->
  lexb A a b p = false -> ltb A a b = false.
Proof.
  intros Ha Hb.
  three_ways a b Ha Hb; intros; try discriminate; try reflexivity; auto.
Qed.

Lemma tuple_lt_le_trans x y z :
  comparable_tuple A x -> comparable_tuple A y -> comparable_tuple A z ->
  tuple_lt A x y = true -> tuple_lt A z y = false -> tuple_lt A x z = true.
Proof.
  destruct x as [[[e1 l1] r1] i1], y as [[[e2 l2] r2] i2],
           z as [[[e3 l3] r3] i3].
  intros (X1 & X2 & X3 & X4) (Y1 & Y2 & Y3 & Y4) (Z1 & Z2 & Z3 & Z4).
  cbn [err_of left_of right_of I_of] in *. rewrite !tuple_lt_lexb. intros H1 H2.
  repeat (eapply lexb_below_trans;
          [eassumption | | eassumption | eassumption | eassumption | intros];
          [eassumption|]).
  discriminate.
Qed.

Lemma tuple_not_lt_trans x y z :
  comparable_tuple A x -> comparable_tuple A y -> comparable_tuple A z ->
  tuple_lt A x y = false -> tuple_lt A y z = false -> tuple_lt A x z = false.
Proof.
  destruct x as [[[e1 l1] r1] i1], y as [[[e2 l2] r2] i2],
           z as [[[e3 l3] r3] i3].
  intros (X1 & X2 & X3 & X4) (Y1 & Y2 & Y3 & Y4) (Z1 & Z2 & Z3 & Z4).
  cbn [err_of left_of right_of I_of] in *. rewrite !tuple_lt_lexb. intros H1 H2.
  repeat (eapply lexb_not_below_trans;
          [eassumption | | eassumption | eassumption | eassumption | intros];
          [eassumption|]).
  reflexivity.
Qed.

Lemma tuple_lt_asym x y :
  comparable_tuple A x -> comparable_tuple A y ->
  tuple_lt A x y = true -> tuple_lt A y x = false.
Proof.
  destruct x as [[[e1 l1] r1] i1], y as [[[e2 l2] r2] i2].
  intros (X1 & X2 & X3 & X4) (Y1 & Y2 & Y3 & Y4).
  cbn [err_of left_of right_of I_of] in *. rewrite !tuple_lt_lexb. intros H.
  repeat (eapply lexb_asym; [eassumption | eassumption | eassumption | intros]).
  discriminate.
Qed.

Lemma not_above_err u v :
  comparable_tuple A u -> comparable_tuple A v ->
  not_above A u v -> ltb A (err_of A v) (err_of A u) = false.
Proof.
  destruct u as [[[e1 l1] r1] i1], v as [[[e2 l2] r2] i2].
  intros (X1 & _) (Y1 & _). cbn [err_of left_of right_of I_of] in *.
  unfold not_above. rewrite tuple_lt_lexb. now apply lexb_first.
Qed.

Lemma ascending_ascending_err intervals :
  Forall (comparable_tuple A) intervals ->
  ascending A intervals -> ascending_err A intervals.
Proof.
  intros Hc Hs. induction Hs as [|x l _ IH Hx]; constructor.
  - apply IH. now inversion Hc.
  - inversion Hc as [|x' l' Hcx Hcl]; subst.
    rewrite Forall_forall in *. intros y Hy.
    apply not_above_err; auto.
Qed.

End Order.

(** ** Binary search and insertion *)

Section Insertion.

Variable X : Type.
Variable rel : X -> X -> Prop.

Lemma StronglySorted_app_inv (l1 l2 : list X) :
  StronglySorted rel (l1 ++ l2) ->
  StronglySorted rel l1 /\ StronglySorted rel l2 /\
  Forall (fun u => Forall (rel u) l2) l1.
Proof.
  induction l1 as [|x l1 IH]; simpl; intros H.
  - repeat split; [constructor | assumption | constructor].
  - apply StronglySorted_inv in H. destruct H as [H Hx].
    destruct (IH H) as (H1 & H2 & H12).
    apply Forall_app in Hx. destruct Hx as [Hx1 Hx2].
    repeat split; try constructor; assumption.
Qed.

Lemma StronglySorted_insert (l1 l2 : list X) (x : X) :
  StronglySorted rel (l1 ++ l2) ->
  Forall (fun u => rel u x) l1 -> Forall (rel x) l2 ->
  StronglySorted rel (l1 ++ x :: l2).
Proof.
  induction l1 as [|y l1 IH]; simpl; intros H H1 H2.
  - now constructor.
  - apply StronglySorted_inv in H. destruct H as [H Hy].
    inversion H1; subst.
    constructor; [now apply IH|].
    apply Forall_app in Hy. destruct Hy as [Hy1 Hy2].
    apply Forall_app. split; [assumption|]. now constructor.
Qed.

Lemma skipn_nth (l : list X) (n : nat) (d : X) :
  (n < length l)%nat -> skipn n l = nth n l d :: skipn (S n) l.
Proof.
  revert n. induction l as [|x l IH]; intros [|n] H; simpl in *;
    try lia; [reflexivity|].
  apply IH. lia.
Qed.

Lemma firstn_nth (l : list X) (n : nat) (d : X) :
  (n < length l)%nat -> firstn (S n) l = firstn n l ++ [nth n l d].
Proof.
  revert n. induction l as [|x l IH]; intros [|n] H; simpl in *;
    try lia; [reflexivity|].
  f_equal. apply IH. lia.
Qed.

End Insertion.

(** [bisect.insort] on an ascending list, and [pop]. *)

Section BinarySearch.

Variable A : Arith.
Variable key : num A -> R.
Hypothesis Hord : ordered_by A key.

Local Abbreviation below x := (fun v => tuple_lt A x v = true).
Local Abbreviation not_below x := (fun u => tuple_lt A x u = false).
Local Abbreviation clean := (Forall (comparable_tuple A)).

Lemma bisect_loop_sorted (a : list (interval A)) x :
  clean a -> comparable_tuple A x -> ascending A a ->
  forall turns lo hi,
  (lo <= hi)%nat -> (hi <= length a)%nat -> (hi - lo <= turns)%nat ->
  Forall (not_below x) (firstn lo a) -> Forall (below x) (skipn hi a) ->
  Forall (not_below x) (firstn (bisect_loop A turns a x lo hi) a) /\
  Forall (below x) (skipn (bisect_loop A turns a x lo hi) a).
Proof.
  intros Hc Hx Hs.
  induction turns as [|turns IH]; intros lo hi Hlh Hh Ht Hlo Hhi.
  - simpl. replace hi with lo in Hhi by lia. auto.
  - cbn [bisect_loop]. destruct (Nat.ltb_spec lo hi) as [Hlt|Hge].
    + set (mid := ((lo + hi) / 2)%nat).
      assert (Hmid : (lo <= mid /\ mid < hi)%nat).
      { unfold mid. split.
        - apply Nat.div_le_lower_bound; lia.
        - apply Nat.Div0.div_lt_upper_bound; lia. }
      assert (Hsplit : a = firstn mid a ++ nth mid a x :: skipn (S mid) a).
      { rewrite <- (skipn_nth _ a mid x) by lia. symmetry. apply firstn_skipn. }
      assert (Hcm : comparable_tuple A (nth mid a x)).
      { rewrite Forall_forall in Hc. apply Hc, nth_In. lia. }
      assert (Hc1 : clean (firstn mid a) /\ clean (skipn (S mid) a)).
      { pose proof Hc as Hc'. rewrite Hsplit in Hc'.
        apply Forall_app in Hc'. destruct Hc' as [H1 H2].
        split; [exact H1 | now inversion H2]. }
      destruct Hc1 as [Hcf Hcs].
      pose proof Hs as Hs'. unfold ascending in Hs'. rewrite Hsplit in Hs'.
      apply StronglySorted_app_inv in Hs'. destruct Hs' as (_ & Hs2 & H12).
      apply StronglySorted_inv in Hs2. destruct Hs2 as [_ Hafter].
      destruct (tuple_lt A x (nth mid a x)) eqn:Hcmp.
      * apply IH; try lia; [assumption|].
        rewrite (skipn_nth _ a mid x) by lia. constructor; [assumption|].
        rewrite Forall_forall in Hafter, Hcs. apply Forall_forall. intros v Hv.
        apply (tuple_lt_le_trans A key Hord x (nth mid a x) v); auto.
        now apply Hafter.
      * apply IH; try lia; [|assumption].
        replace (mid + 1)%nat with (S mid) by lia.
        rewrite (firstn_nth _ a mid x) by lia.
        apply Forall_app. split; [|now repeat constructor].
        rewrite Forall_forall in H12, Hcf. apply Forall_forall. intros u Hu.
        apply (tuple_not_lt_trans A key Hord x (nth mid a x) u); auto.
        specialize (H12 u Hu). now apply Forall_inv in H12.
    + replace hi with lo in Hhi by lia. auto.
Qed.

Lemma insort_ascending (a : list (interval A)) x :
  clean a -> comparable_tuple A x ->
  ascending A a -> ascending A (insort A a x).
Proof.
  intros Hc Hx Hs.
  destruct (bisect_loop_sorted a x Hc Hx Hs (length a) 0%nat (length a))
    as [H1 H2]; try lia.
  - constructor.
  - rewrite skipn_all. constructor.
  - unfold insort, bisect_right.
    apply StronglySorted_insert.
    + now rewrite firstn_skipn.
    + exact H1.
    + assert (Hcs : clean (skipn (bisect_loop A (length a) a x 0 (length a)) a)).
      { rewrite <- (firstn_skipn (bisect_loop A (length a) a x 0 (length a)) a)
          in Hc.
        now apply Forall_app in Hc. }
      rewrite Forall_forall in H2, Hcs. apply Forall_forall. intros v Hv.
      apply (tuple_lt_asym A key Hord); auto.
Qed.

Lemma pop_ascending (a : list (interval A)) x rest :
  clean a -> ascending A a -> pop A a = Ok (x, rest) ->
  clean rest /\ ascending A rest /\
  Forall (fun y => ltb A (err_of A x) (err_of A y) = false) a.
Proof.
  intros Hc Hs Hp. apply pop_spec in Hp. subst a.
  apply Forall_app in Hc. destruct Hc as [Hcr Hcx].
  apply Forall_inv in Hcx.
  unfold ascending in Hs. apply StronglySorted_app_inv in Hs.
  destruct Hs as (H1 & _ & H12). repeat split; try assumption.
  apply Forall_app. split.
  - rewrite Forall_forall in H12, Hcr. apply Forall_forall. intros u Hu.
    apply (not_above_err A key Hord); auto.
    specialize (H12 u Hu). now apply Forall_inv in H12.
  - constructor; [|constructor].
    destruct x as [[[e l] r] i]. destruct Hcx as (He & _). simpl in *.
    destruct (compare_cases A key Hord e e He He)
      as [(K & _)|[(_ & L1 & _)|(K & _)]]; try lra. exact L1.
Qed.

Lemma seed_incl {T : Type} fv (args : T) pairs :
  forall intervals intervals',
  seed A fv args pairs intervals = Ok intervals' -> incl intervals intervals'.
Proof.
  induction pairs as [|[l r] pairs IH]; intros intervals intervals'; simpl.
  - intros H. injection H as <-. apply incl_refl.
  - destruct (integrate_gausskronrod A fv l r args) as [[I_ err]|];
      [|discriminate].
    simpl. intros H. apply IH in H.
    intros y Hy. apply H.
    apply (Permutation_in _ (insort_perm A intervals (err, l, r, I_))).
    now right.
Qed.

Lemma seed_ascending {T : Type} fv (args : T) pairs :
  forall intervals intervals',
  seed A fv args pairs intervals = Ok intervals' ->
  clean intervals' -> ascending A intervals -> ascending A intervals'.
Proof.
  induction pairs as [|[l r] pairs IH]; intros intervals intervals'; simpl.
  - intros H. now injection H as <-.
  - destruct (integrate_gausskronrod A fv l r args) as [[I_ err]|];
      [|discriminate].
    simpl. intros H Hc Hs. apply (IH _ _ H Hc).
    pose proof (seed_incl fv args pairs _ _ H) as Hi.
    rewrite Forall_forall in Hc.
    apply insort_ascending; [| |exact Hs].
    + rewrite Forall_forall. intros y Hy. apply Hc, Hi.
      apply (Permutation_in _ (insort_perm A intervals (err, l, r, I_))).
      now right.
    + apply Hc, Hi.
      apply (Permutation_in _ (insort_perm A intervals (err, l, r, I_))).
      now left.
Qed.

Lemma bisect_worst_ascending {T : Type} fv (args : T) intervals intervals' :
  clean intervals -> clean intervals' -> ascending A intervals ->
  bisect_worst A fv args intervals = Ok intervals' ->
  ascending A intervals'.
Proof.
  intros Hc Hc' Hs H. apply bisect_worst_spec in H.
  destruct H as (rest & e & l & r & i & I1 & err1 & I2 & err2 & -> & _ & _ & ->).
  unfold ascending in Hs. apply StronglySorted_app_inv in Hs.
  destruct Hs as (Hs & _).
  apply Forall_app in Hc. destruct Hc as [Hcr _].
  rewrite Forall_forall in Hc'.
  set (t1 := (err1, l, midpoint A l r, I1)) in *.
  set (t2 := (err2, midpoint A l r, r, I2)) in *.
  assert (Ht2 : comparable_tuple A t2).
  { apply Hc'. apply (Permutation_in _ (insort_perm A _ t2)). now left. }
  assert (Ht1 : comparable_tuple A t1).
  { apply Hc'. apply (Permutation_in _ (insort_perm A _ t2)). right.
    apply (Permutation_in _ (insort_perm A _ t1)). now left. }
  apply insort_ascending; [|exact Ht2|].
  - rewrite Forall_forall. intros y Hy.
    apply (Permutation_in _ (Permutation_sym (insort_perm A rest t1))) in Hy.
    destruct Hy as [<-|Hy]; [exact Ht1|].
    rewrite Forall_forall in Hcr. now apply Hcr.
  - now apply insort_ascending.
Qed.

Lemma loop_reaches_trans {T : Type} fv (args : T) limit tol i0 i1 i2 :
  loop_reaches A fv args limit tol i0 i1 ->
  loop_reaches A fv args limit tol i1 i2 ->
  loop_reaches A fv args limit tol i0 i2.
Proof.
  intros H01 H12. induction H12 as [|i1 i2 i3 _ IH Hb]; [assumption|].
  eapply reaches_next; [apply IH; exact H01 | exact Hb].
Qed.

Lemma loop_reaches_ascending {T : Type} fv (args : T) limit tol
    intervals0 intervals :
  loop_reaches A fv args limit tol intervals0 intervals ->
  (forall l, loop_reaches A fv args limit tol intervals0 l -> clean l) ->
  ascending A intervals0 -> ascending A intervals.
Proof.
  intros Hr Hclean Hs.
  induction Hr as [|i0 i1 i2 Hr IH Hb]; [assumption|].
  pose proof Hb as Hb'.
  apply loop_body_continue in Hb. destruct Hb as (_ & _ & _ & Hw).
  apply (bisect_worst_ascending fv args i1 i2); auto.
  apply Hclean. eapply reaches_next; eassumption.
Qed.

End BinarySearch.

(** ** The order of the two arithmetics *)

Section RealOrder.

Lemma real_comparable (x : R) : comparable real_arith x.
Proof. unfold comparable. real_ops. now apply Reqb_true. Qed.

Lemma real_clean (l : list (interval real_arith)) :
  Forall (comparable_tuple real_arith) l.
Proof.
  rewrite Forall_forall. intros x _. repeat split; apply real_comparable.
Qed.

Lemma real_ordered : ordered_by real_arith (fun x => x).
Proof.
  intros x y _ _. real_ops. split; [apply Rltb_true | apply Reqb_true].
Qed.

End RealOrder.

Section Binary64Order.

Local Open Scope Z_scope.

Lemma digits2_pos_bound (m : positive) : Zpos m < 2 ^ Zpos (digits2_pos m).
Proof.
  induction m as [m IH|m IH|]; simpl digits2_pos;
    rewrite ?Pos2Z.inj_succ, ?Z.pow_succ_r by lia; lia.
Qed.

Lemma valid_finite_bounds (s : bool) (m : positive) (e : Z) :
  SpecFloat.valid_binary prec emax (S754_finite s m e) = true ->
  Zpos m < 9007199254740992 /\ -1074 <= e <= 971.
Proof.
  unfold SpecFloat.valid_binary, bounded, canonical_mantissa, fexp.
  change (SpecFloat.emin prec emax) with (-1074).
  change prec with 53. change emax with 1024.
  intros H. apply andb_true_iff in H. destruct H as [H1 H2].
  apply Z.leb_le in H2. apply Z.eqb_eq in H1.
  pose proof (digits2_pos_bound m) as Hd.
  assert (Zpos (digits2_pos m) <= 53) by lia.
  assert (2 ^ Zpos (digits2_pos m) <= 2 ^ 53)
    by (apply Z.pow_le_mono_r; lia).
  change (2 ^ 53) with 9007199254740992 in *. lia.
Qed.

Lemma SFcompare_rank (x y : spec_float) :
  SpecFloat.valid_binary prec emax x = true -> SpecFloat.valid_binary prec emax y = true ->
  x <> S754_nan -> y <> S754_nan ->
  SFcompare x y = Some (float_rank x ?= float_rank y).
Proof.
  intros Vx Vy Nx Ny.
  destruct x as [sx|sx| |sx mx ex]; try (now elim Nx);
    destruct y as [sy|sy| |sy my ey]; try (now elim Ny);
    try (apply valid_finite_bounds in Vx); try (apply valid_finite_bounds in Vy);
    unfold SFcompare, float_rank; cbv zeta;
    try destruct sx; try destruct sy; try reflexivity;
    f_equal; symmetry;
    try (apply Z.compare_lt_iff; lia); try (apply Z.compare_gt_iff; lia).
  all: change (PosDef.Pos.compare_cont Eq mx my) with (Pos.compare mx my).
  all: destruct (Z.compare_spec ex ey) as [->|H|H];
    [destruct (Pos.compare_spec mx my) as [->|H|H]; cbn [CompOpp]| |].
  all: first [ apply Z.compare_eq_iff; lia
             | apply Z.compare_lt_iff; lia
             | apply Z.compare_gt_iff; lia ].
Qed.

Variable libm_pow : float -> float -> float.

Lemma binary64_comparable (x : float) :
  comparable (binary64 libm_pow) x <-> Prim2SF x <> S754_nan.
Proof.
  unfold comparable. cbn [eqb binary64]. rewrite eqb_spec.
  pose proof (Prim2SF_valid x) as V.
  destruct (Prim2SF x) as [s|s| |s m e] eqn:E.
  - split; [discriminate | reflexivity].
  - split; [discriminate | intros _; now destruct s].
  - split; [discriminate | intros H; now elim H].
  - split; [discriminate|]. intros _.
    unfold SFeqb. rewrite SFcompare_rank, Z.compare_refl by (auto; discriminate).
    reflexivity.
Qed.

Lemma binary64_ordered : ordered_by (binary64 libm_pow) float_key.
Proof.
  intros x y Hx Hy. apply binary64_comparable in Hx, Hy.
  cbn [ltb eqb binary64]. rewrite ltb_spec, eqb_spec.
  unfold SFltb, SFeqb, float_key.
  rewrite (SFcompare_rank (Prim2SF x) (Prim2SF y))
    by (auto using Prim2SF_valid).
  destruct (Z.compare_spec (float_rank (Prim2SF x)) (float_rank (Prim2SF y)))
    as [H|H|H]; split; split; intros H'; try discriminate; try reflexivity;
    try (now apply IZR_lt); try (now rewrite H);
    try (apply lt_IZR in H'; lia); try (apply eq_IZR in H'; lia).
Qed.

End Binary64Order.

(** ** The totals in real arithmetic *)

Section Totals.

Lemma Rpow_2 (x : R) : Rpow x (Q2R 2) = x * x.
Proof.
  unfold Rpow. destruct (Req_dec_T x 0) as [->|Hx]; [lra|].
  replace (Q2R 2) with (INR 2) by (unfold Q2R; simpl; field).
  rewrite Rpower_pow by (now apply Rabs_pos_lt).
  simpl. rewrite Rmult_1_r, <- Rabs_mult.
  apply Rabs_right. nra.
Qed.

Lemma Itotal_of_real intervals :
  Itotal_of real_arith intervals = sum_of_estimates intervals.
Proof. apply py_sum_real. Qed.

Lemma total_err_real intervals :
  total_err real_arith intervals = root_sum_square intervals.
Proof.
  unfold total_err, err2_of, root_sum_square. rewrite py_sum_real. real_ops.
  f_equal. f_equal. apply map_ext. intros x. apply Rpow_2.
Qed.

End Totals.

(** ** The assertion on the bounds *)

Section Precondition.

Lemma SFltb_irrefl (x : spec_float) : SFltb x x = false.
Proof.
  unfold SFltb, SFcompare.
  destruct x as [s|s| |s m e]; try reflexivity; destruct s; try reflexivity;
    rewrite Z.compare_refl, ?Pos.compare_cont_refl; reflexivity.
Qed.

Lemma float_ltb_irrefl (x : float) : PrimFloat.ltb x x = false.
Proof. rewrite ltb_spec. apply SFltb_irrefl. Qed.

Lemma initial_intervals_assert {T : Type} f a b (args : T) minintervals :
  b <= a -> (1 <= minintervals)%Z ->
  initial_intervals real_arith f a b args minintervals = Raise AssertionError.
Proof.
  intros Hba Hn. unfold initial_intervals.
  rewrite (linspace_real a b minintervals Hn). cbv beta iota zeta delta [bind].
  rewrite consecutive_map.
  destruct (Z.to_nat minintervals) as [|m] eqn:Hm; [lia|].
  change (seq 0 (S m)) with (0%nat :: seq 1 m). rewrite map_cons.
  cbn [seed].
  rewrite integrate_gausskronrod_assert; [reflexivity|].
  real_ops. apply Rltb_false.
  pose proof (sample_step a b minintervals 0 Hn) as Hs.
  assert (0 < IZR minintervals) by (apply IZR_lt; lia).
  assert ((b - a) / IZR minintervals <= 0).
  { assert (0 < / IZR minintervals) by (now apply Rinv_0_lt_compat).
    unfold Rdiv. nra. }
  lra.
Qed.

(** In binary64, [0*s + a] is [a], a zero when [a] is one, or NaN: it is
    not below what [a] is not below. *)
Lemma SF_zero_mul_add_ltb (s a b : spec_float) (sz : bool) :
  SFltb a b = false ->
  SFltb (SFadd prec emax (SFmul prec emax (S754_zero sz) s) a) b = false.
Proof.
  intros H.
  destruct s as [ss|ss| |ss ms es]; cbn [SFmul];
    destruct a as [sa|sa| |sa ma ea]; cbn [SFadd]; try exact H; try reflexivity.
  all: destruct b as [sb|sb| |sb mb eb]; try reflexivity.
  all: repeat match goal with
              | |- context [if ?c then _ else _] => destruct c
              end; try reflexivity; try exact H.
Qed.

Lemma float_zero_mul_add_ltb (z s a b : float) :
  Prim2SF z = S754_zero false ->
  PrimFloat.ltb a b = false ->
  PrimFloat.ltb (PrimFloat.add (PrimFloat.mul z s) a) b = false.
Proof.
  intros Hz. rewrite !ltb_spec, add_spec, mul_spec, Hz.
  apply SF_zero_mul_add_ltb.
Qed.

(** The two samples of [np.linspace(a, b, 2)]. *)
Lemma linspace_two (A : Arith) (a b : num A) :
  exists z s,
    linspace A a b 2 = Ok [add A (mul A z s) a; b] /\
    (z = lit A 0 \/ z = div A (lit A 0) (lit A (inject_Z 1))).
Proof.
  unfold linspace. simpl.
  destruct (eqb A _ _); do 2 eexists; split; try reflexivity; auto.
Qed.

Lemma binary64_integrate_assert (libm_pow : float -> float -> float)
    {T : Type} (f : float -> float) (a b : float) (args : T) (limit : Z)
    (tol : float) (turns : nat) :
  PrimFloat.ltb a b = false ->
  integrate (binary64 libm_pow) turns f a b args default_minintervals limit tol
  = Some (Raise AssertionError).
Proof.
  intros H. unfold integrate, initial_intervals, default_minintervals.
  destruct (linspace_two (binary64 libm_pow) a b) as (z & s & Hl & Hz).
  change (1 + 1)%Z with 2%Z. rewrite Hl.
  cbv beta iota zeta delta [bind]. cbn [consecutive removelast tl combine seed].
  rewrite integrate_gausskronrod_assert; [reflexivity|].
  apply float_zero_mul_add_ltb; [|exact H].
  destruct Hz as [->| ->]; reflexivity.
Qed.

(** In binary64, [b <= a] excludes [a < b]. *)
Lemma float_leb_not_ltb (a b : float) :
  PrimFloat.leb b a = true -> PrimFloat.ltb a b = false.
Proof.
  rewrite leb_spec, ltb_spec. unfold SFleb, SFltb.
  pose proof (Prim2SF_valid a) as Va. pose proof (Prim2SF_valid b) as Vb.
  destruct (Prim2SF a) as [sa|sa| |sa ma ea] eqn:Ea;
    destruct (Prim2SF b) as [sb|sb| |sb mb eb] eqn:Eb;
    try discriminate; try reflexivity.
  all: rewrite !SFcompare_rank by (assumption || discriminate).
  all: rewrite (Z.compare_antisym (float_rank _) (float_rank _)).
  all: match goal with
       | |- context [(?x ?= ?y)%Z] => destruct (x ?= y)%Z
       end; cbn [CompOpp]; try discriminate; reflexivity.
Qed.

End Precondition.

(** ** The exceptions of a pass *)

Section PassExceptions.

Variable A : Arith.

Lemma integrate_gausskronrod_raise {T : Type} f a b (args : T) e :
  integrate_gausskronrod A f a b args = Raise e ->
  e = AssertionError /\ ltb A a b = false.
Proof.
  unfold integrate_gausskronrod. destruct (ltb A a b); [discriminate|].
  intros H. inversion H. auto.
Qed.

Lemma bisect_worst_raise {T : Type} fv (args : T) intervals e :
  bisect_worst A fv args intervals = Raise e ->
  (intervals = [] /\ e = IndexError) \/ (intervals <> [] /\ e = AssertionError).
Proof.
  unfold bisect_worst.
  destruct (pop A intervals) as [[[[[e0 l] r] i] rest]|e'] eqn:Hp; simpl.
  - apply pop_spec in Hp. intros H. right. split; [subst; now destruct rest|].
    destruct (integrate_gausskronrod A fv l _ args) as [[I1 err1]|e1] eqn:H1;
      simpl in H.
    + destruct (integrate_gausskronrod A fv _ r args) as [[I2 err2]|e2] eqn:H2;
        simpl in H; [discriminate|].
      inversion H; subst. now apply integrate_gausskronrod_raise in H2.
    + inversion H; subst. now apply integrate_gausskronrod_raise in H1.
  - intros H. inversion H; subst. left.
    pose proof (pop_empty A _ _ Hp) as ->. split; [reflexivity|].
    unfold pop in Hp. simpl in Hp. now inversion Hp.
Qed.

Lemma loop_body_raise {T : Type} fv (args : T) limit tol intervals e :
  loop_body A fv args limit tol intervals = Raise e ->
  (intervals = [] /\ e = ZeroDivisionError) \/
  (intervals <> [] /\ e = AssertionError).
Proof.
  destruct intervals as [|x l].
  - rewrite loop_body_empty. intros H. inversion H. now left.
  - rewrite loop_body_nonempty.
    destruct (tolerance_test A tol (x :: l)); [discriminate|].
    destruct (Z.of_nat (length (x :: l)) >=? limit)%Z; [discriminate|].
    destruct (bisect_worst A fv args (x :: l)) as [i|e'] eqn:Hw; simpl;
      [discriminate|].
    intros H. inversion H; subst. right. split; [discriminate|].
    apply bisect_worst_raise in Hw. destruct Hw as [[Hn _]|[_ He]];
      [discriminate | exact He].
Qed.

Lemma bisect_worst_assert {T : Type} fv (args : T) rest e l r i :
  ltb A l (midpoint A l r) = false \/ ltb A (midpoint A l r) r = false ->
  bisect_worst A fv args (rest ++ [(e, l, r, i)]) = Raise AssertionError.
Proof.
  intros H. unfold bisect_worst.
  rewrite (proj2 (pop_spec A _ _ _) eq_refl).
  cbv beta iota zeta delta [bind]. fold (midpoint A l r).
  destruct (ltb A l (midpoint A l r)) eqn:H1.
  - destruct H as [H|H]; [discriminate|].
    destruct (integrate_gausskronrod A fv l (midpoint A l r) args)
      as [[I1 err1]|e1] eqn:Hq.
    + now rewrite integrate_gausskronrod_assert.
    + apply integrate_gausskronrod_raise in Hq. now destruct Hq as [-> _].
  - now rewrite integrate_gausskronrod_assert.
Qed.



End PassExceptions.

(** ** The properties of the specification *)

Open Scope Z_scope.

(** C1.  When [integrate] reaches the interval limit before the tolerance
    test is met it returns the bare constant [False].  Here: with the zero
    integrand on [[0, 1]] and [limit = 1] the totals reached are
    [Itotal = 0.0] and some [err], the quotient [err/Itotal] is NaN or an
    infinity whatever [pow] returns, and the call returns [False], a value
    with no field that could hold the achieved [(value, error)]; the
    same happens with [sqrt] as integrand. *)
Theorem limit_failure_returns_bare_False (libm_pow : float -> float -> float) :
  integrate (binary64 libm_pow) 1 (fun _ => PrimFloat.zero)
            PrimFloat.zero PrimFloat.one tt 1 1
            (default_tol (binary64 libm_pow))
    = Some (Ok PyFalse) /\
  integrate (binary64 pow_exact) 1 PrimFloat.sqrt
            PrimFloat.zero PrimFloat.one tt 1 1
            (default_tol (binary64 pow_exact))
    = Some (Ok PyFalse).
Proof.
  split.
  - vm_compute.
    rewrite float_div_by_zero_not_below by reflexivity. reflexivity.
  - vm_compute. reflexivity.
Qed.

(** C2.  In real arithmetic, for all bounds [a < b] and every integrand,
    [integrate_gausskronrod] evaluates [f] at the fifteen points
    [a + (z+1)*(b-a)/2] and returns the Kronrod dot product scaled by
    [(b-a)/2] together with [(200*|G7 - K15|)^1.5 * (b-a)/2]. *)
Theorem quadrature_rule_formulas (T : Type) (f : list R -> list R) (a b : R)
    (args : T) :
  (a < b)%R ->
  integrate_gausskronrod real_arith f a b args
    = Ok (quadrature_rule_spec f a b) /\
  length (spec_points a b) = 15%nat /\
  length (kronrod_weights real_arith) = 15%nat /\
  length (gauss_weights real_arith) = 7%nat.
Proof.
  intros Hab. split; [now apply integrate_gausskronrod_real|].
  repeat split; reflexivity.
Qed.

Lemma quadrature_rule_formulas_witness :
  integrate_gausskronrod real_arith (fun zi => zi) 0%R 1%R tt
    = Ok (quadrature_rule_spec (fun zi => zi) 0%R 1%R) /\
  length (spec_points 0 1) = 15%nat /\
  length (kronrod_weights real_arith) = 15%nat /\
  length (gauss_weights real_arith) = 7%nat.
Proof. apply (quadrature_rule_formulas unit (fun zi => zi) 0%R 1%R tt). lra. Defined.

(** C2, counterexample.  In binary64 the rule is not the one of the claim.
    With [a = 2^1023] and [b = 1.5 * 2^1023], where [b > a] holds, [b + a]
    overflows: [mid] is [inf], every evaluation point is [inf], and for
    [1/x] the call returns [(0, 0)]; the fifteen points
    [a + (z+1)*(b-a)/2] are finite and the claimed integral is above
    [0.375].  On [[1, 4]] no overflow is needed: the tenth point
    [a + (z+1)*(b-a)/2] is not among the points [mid + z*dx] the code
    evaluates, so that the integrand that is [1] at this point and [0]
    elsewhere gives [(0, 0)] where the claimed rule does not. *)
Lemma quadrature_rule_formulas_counterexample :
  let A := binary64 pow_exact in
  let a := 0x1p+1023%float in
  let b := 0x1.8p+1023%float in
  let p := nth 9 (claimed_points A 1%float 4%float) PrimFloat.zero in
  (ltb A a b = true /\
   integrate_gausskronrod A (map reciprocal) a b tt
   = Ok (PrimFloat.zero, PrimFloat.zero) /\
   (forall f, integrate_gausskronrod A f a b tt
              = integrate_gausskronrod A
                  (fun _ => f (repeat PrimFloat.infinity 15)) a b tt) /\
   forallb PrimFloat.is_finite (claimed_points A a b) = true /\
   PrimFloat.ltb 0.375 (fst (claimed_rule A (map reciprocal) a b)) = true /\
   integrate_gausskronrod A (map reciprocal) a b tt
   <> Ok (claimed_rule A (map reciprocal) a b)) /\
  (ltb A 1%float 4%float = true /\
   In p (claimed_points A 1%float 4%float) /\
   integrate_gausskronrod A (map (indicator p)) 1%float 4%float tt
   = Ok (PrimFloat.zero, PrimFloat.zero) /\
   PrimFloat.ltb 0 (fst (claimed_rule A (map (indicator p)) 1%float 4%float))
   = true /\
   integrate_gausskronrod A (map (indicator p)) 1%float 4%float tt
   <> Ok (claimed_rule A (map (indicator p)) 1%float 4%float)).
Proof.
  cbv zeta. split.
  - split; [vm_compute; reflexivity|].
    split; [vm_compute; reflexivity|].
    split; [intros f; reflexivity|].
    split; [vm_compute; reflexivity|].
    split; [vm_compute; reflexivity|].
    intros H.
    assert (E : PrimFloat.ltb 0.375
                  (match integrate_gausskronrod (binary64 pow_exact)
                           (map reciprocal) 0x1p+1023%float 0x1.8p+1023%float tt
                   with Ok r => fst r | Raise _ => PrimFloat.zero end)
                = true).
    { rewrite H. vm_compute. reflexivity. }
    vm_compute in E. discriminate.
  - split; [vm_compute; reflexivity|].
    split; [do 9 right; left; reflexivity|].
    split; [vm_compute; reflexivity|].
    split; [vm_compute; reflexivity|].
    intros H.
    assert (E : PrimFloat.ltb 0
                  (match integrate_gausskronrod (binary64 pow_exact)
                           (map (indicator
                                   (nth 9 (claimed_points (binary64 pow_exact)
                                             1%float 4%float) PrimFloat.zero)))
                           1%float 4%float tt
                   with Ok r => fst r | Raise _ => PrimFloat.zero end)
                = true).
    { rewrite H. vm_compute. reflexivity. }
    vm_compute in E. discriminate.
Qed.



(** C4.  Bounds with [b <= a] fail the assertion [b > a].  In every
    arithmetic [integrate_gausskronrod] raises [AssertionError] when
    [a < b] does not hold.  In real arithmetic, for [b <= a] and at least one
    initial interval, both entry points raise it, [integrate] whatever the
    integrand and before the loop is entered.  In binary64, where [b <= a]
    excludes [a < b], both entry points raise it when [a < b] does not
    hold, [integrate] with the default [minintervals]; so does
    [integrate(f, 5, 5)] with the default options. *)
Theorem precondition_error :
  (forall (A : Arith) (T : Type) fv a b (args : T),
     ltb A a b = false ->
     integrate_gausskronrod A fv a b args = Raise AssertionError) /\
  (forall (T : Type) fv f (a b : R) (args : T) minintervals limit tol turns,
     (b <= a)%R -> 1 <= minintervals ->
     integrate_gausskronrod real_arith fv a b args = Raise AssertionError /\
     integrate real_arith turns f a b args minintervals limit tol
       = Some (Raise AssertionError)) /\
  (forall libm_pow (T : Type) fv f (a b : float) (args : T) limit tol turns,
     (PrimFloat.leb b a = true -> PrimFloat.ltb a b = false) /\
     (PrimFloat.ltb a b = false ->
      integrate_gausskronrod (binary64 libm_pow) fv a b args
        = Raise AssertionError /\
      integrate (binary64 libm_pow) turns f a b args
                default_minintervals limit tol
        = Some (Raise AssertionError))) /\
  (forall libm_pow (T : Type) f (args : T) turns,
     integrate (binary64 libm_pow) turns f 5%float 5%float args
               default_minintervals default_limit
               (default_tol (binary64 libm_pow))
       = Some (Raise AssertionError)).
Proof.
  split; [|split; [|split]].
  - intros. now apply integrate_gausskronrod_assert.
  - intros T fv f a b args minintervals limit tol turns Hba Hn. split.
    + apply integrate_gausskronrod_assert. real_ops. now apply Rltb_false.
    + unfold integrate. now rewrite initial_intervals_assert.
  - intros libm_pow T fv f a b args limit tol turns. split.
    + apply float_leb_not_ltb.
    + intros H. split.
      * now apply integrate_gausskronrod_assert.
      * now apply binary64_integrate_assert.
  - intros libm_pow T f args turns.
    apply binary64_integrate_assert. reflexivity.
Qed.

Lemma precondition_error_witness :
  integrate_gausskronrod real_arith (fun zi => zi) 5%R 5%R tt
    = Raise AssertionError /\
  integrate real_arith 0 (fun x => x) 5%R 5%R tt 1 200 (default_tol real_arith)
    = Some (Raise AssertionError).
Proof.
  apply (proj1 (proj2 precondition_error)); [lra | lia].
Defined.

(** C5.  For every arithmetic and [minintervals >= 1]: every interval
    list the loop passes through is, in some order, a chain of intervals
    laid end to end from the first sample of [np.linspace] to [b], each
    passing [right > left]; and a pass that goes round again replaces the
    popped interval [(l, r)] by [(l, mid)] and [(mid, r)],
    [mid = l + (r-l)/2], and changes nothing else.  In real arithmetic with
    [a < b], moreover: the seeding succeeds, the first sample is [a], the
    initial intervals are the [minintervals] intervals
    [[a + i*h, a + (i+1)*h]] of one width [h = (b-a)/minintervals], and the
    widths of every interval list the loop passes through add up to
    [b - a]. *)
Theorem partition_invariant :
  (forall (A : Arith) (T : Type) (f : num A -> num A) (a b : num A) (args : T)
          (minintervals limit : Z) (tol : num A)
          (intervals0 intervals : list (interval A)),
     1 <= minintervals ->
     initial_intervals A f a b args minintervals = Ok intervals0 ->
     loop_reaches A (map f) args limit tol intervals0 intervals ->
     exists first rest,
       linspace A a b (minintervals + 1) = Ok (first :: rest) /\
       partition_of A first b intervals /\
       forall intervals',
         loop_body A (map f) args limit tol intervals
           = Ok (Continue intervals') ->
         exists others x,
           let l := left_of A x in
           let r := right_of A x in
           let mid := add A l (div A (sub A r l) (lit A 2)) in
           intervals = others ++ [x] /\
           ltb A l mid = true /\ ltb A mid r = true /\
           Permutation ((l, mid) :: (mid, r) :: map (bounds A) others)
                       (map (bounds A) intervals')) /\
  (forall (T : Type) (f : R -> R) (a b : R) (args : T)
          (minintervals limit : Z) (tol : R),
     (a < b)%R -> 1 <= minintervals ->
     exists intervals0,
       initial_intervals real_arith f a b args minintervals = Ok intervals0 /\
       Permutation
         (map (fun i => (sample a b minintervals i,
                         sample a b minintervals (S i)))
              (seq 0 (Z.to_nat minintervals)))
         (map (bounds real_arith) intervals0) /\
       Forall (fun x => width (bounds real_arith x)
                        = ((b - a) / IZR minintervals)%R) intervals0 /\
       forall intervals,
         loop_reaches real_arith (map f) args limit tol intervals0 intervals ->
         partition_of real_arith a b intervals /\
         total_width intervals = (b - a)%R).
Proof.
  split.
  - intros A T f a b args minintervals limit tol intervals0 intervals
           Hn Hinit Hreach.
    destruct (initial_chain A f a b args minintervals intervals0 Hn Hinit)
      as (first & rest & Hl & Hp).
    exists first, rest. split; [exact Hl|]. split.
    + eapply loop_reaches_partition; eassumption.
    + intros intervals' Hb.
      apply loop_body_continue in Hb. destruct Hb as (_ & _ & _ & Hw).
      apply bisect_worst_bounds in Hw.
      destruct Hw as (others & x & -> & Hlt & Hrt & Hperm).
      exists others, x. cbv zeta. auto.
  - intros T f a b args minintervals limit tol Hab Hn.
    destruct (initial_partition f a b args minintervals Hab Hn)
      as (intervals0 & Hinit & Hperm & Hpart).
    exists intervals0. repeat split; try assumption.
    + rewrite Forall_forall. intros x Hx.
      apply (in_map (bounds real_arith)) in Hx.
      apply (Permutation_in _ (Permutation_sym Hperm)) in Hx.
      apply in_map_iff in Hx. destruct Hx as (i & <- & _).
      unfold width. simpl. now apply sample_step.
    + eapply loop_reaches_partition; eassumption.
    + apply partition_width. eapply loop_reaches_partition; eassumption.
Qed.

Lemma partition_invariant_witness :
  exists intervals0,
    initial_intervals real_arith (fun x => x) 0%R 1%R tt 1 = Ok intervals0 /\
    partition_of real_arith 0%R 1%R intervals0 /\
    total_width intervals0 = (1 - 0)%R.
Proof.
  destruct (proj2 partition_invariant unit (fun x => x) 0%R 1%R tt 1 200
              (default_tol real_arith))
    as (intervals0 & Hinit & _ & _ & Hloop); [lra | lia |].
  exists intervals0. split; [exact Hinit|].
  exact (Hloop intervals0 (reaches_first _ _ _ _ _ _)).
Defined.

(** C6.  In every pass the tolerance test is made on, and a converged
    pass returns, the left-to-right sum of the [I] entries paired with
    [sqrt] of the left-to-right sum of the [err ** 2] entries, for every
    arithmetic; in real arithmetic these are the sum of all per-interval
    estimates and the root of the sum of the squared per-interval errors,
    so that errors [3] and [4] combine to [5], not to their sum. *)
Theorem aggregate_is_root_sum_square :
  (forall (A : Arith) (tol : num A) (intervals : list (interval A)),
     tolerance_test A tol intervals
     = ltb A
         (absf A
            (div A
               (sqrtf A
                  (fold_left (add A)
                     (map (fun x => powf A (err_of A x) (lit A 2)) intervals)
                     (lit A 0)))
               (fold_left (add A) (map (I_of A) intervals) (lit A 0))))
         tol) /\
  (forall (A : Arith) (T : Type) fv (args : T) limit tol intervals v e,
     loop_body A fv args limit tol intervals = Ok (Return (Tuple v e)) ->
     v = fold_left (add A) (map (I_of A) intervals) (lit A 0) /\
     e = sqrtf A (fold_left (add A)
                    (map (fun x => powf A (err_of A x) (lit A 2)) intervals)
                    (lit A 0)) /\
     tolerance_test A tol intervals = true) /\
  (forall intervals : list (interval real_arith),
     Itotal_of real_arith intervals = sum_of_estimates intervals /\
     total_err real_arith intervals = root_sum_square intervals) /\
  total_err real_arith [(3, 0, 1, 0); (4, 1, 2, 0)]%R = 5%R.
Proof.
  split; [reflexivity|]. split; [|split].
  - intros A T fv args limit tol intervals v e H.
    apply loop_body_tuple in H. destruct H as (_ & Ht & -> & ->).
    repeat split. exact Ht.
  - intros intervals. split; [apply Itotal_of_real | apply total_err_real].
  - rewrite total_err_real. unfold root_sum_square. simpl.
    replace (3 * 3 + (4 * 4 + 0))%R with (5 * 5)%R by lra.
    apply sqrt_square. lra.
Qed.

(** C7.  For every arithmetic whose [<] and [==] are the order and equality
    of a real key on the numbers that compare, and every run of [integrate]
    whose interval lists hold only such numbers: each interval list of the
    run ascends in the order of its tuples, hence in the error estimate; an
    insertion into it gives an ascending list again; and [pop] takes its
    last entry, above whose error estimate no entry's lies.  The real
    numbers are such an arithmetic, all of them comparing, so that in real
    arithmetic the popped entry has the largest error estimate of the list;
    binary64 is one too, every number but NaN comparing. *)
Theorem intervals_sorted_pop_max :
  (forall (A : Arith) (key : num A -> R) (T : Type) (f : num A -> num A)
          (a b : num A) (args : T) (minintervals limit : Z) (tol : num A)
          (intervals0 intervals : list (interval A)),
     ordered_by A key ->
     initial_intervals A f a b args minintervals = Ok intervals0 ->
     (forall l, loop_reaches A (map f) args limit tol intervals0 l ->
                Forall (comparable_tuple A) l) ->
     loop_reaches A (map f) args limit tol intervals0 intervals ->
     ascending A intervals /\
     ascending_err A intervals /\
     (forall x, comparable_tuple A x ->
        ascending A (insort A intervals x) /\
        ascending_err A (insort A intervals x)) /\
     (forall x rest,
        pop A intervals = Ok (x, rest) ->
        intervals = rest ++ [x] /\
        Forall (fun y => ltb A (err_of A x) (err_of A y) = false) intervals)) /\
  (forall (T : Type) (f : R -> R) (a b : R) (args : T)
          (minintervals limit : Z) (tol : R)
          (intervals0 intervals : list (interval real_arith)),
     initial_intervals real_arith f a b args minintervals = Ok intervals0 ->
     loop_reaches real_arith (map f) args limit tol intervals0 intervals ->
     ascending_err real_arith intervals /\
     forall x rest,
       pop real_arith intervals = Ok (x, rest) ->
       Forall (fun y => (err_of real_arith y <= err_of real_arith x)%R)
              intervals) /\
  (ordered_by real_arith (fun x => x) /\
   forall x : R, comparable real_arith x) /\
  (forall libm_pow : float -> float -> float,
     ordered_by (binary64 libm_pow) float_key /\
     forall x : float,
       comparable (binary64 libm_pow) x <-> Prim2SF x <> S754_nan).
Proof.
  assert (General :
    forall (A : Arith) (key : num A -> R) (T : Type) (f : num A -> num A)
           (a b : num A) (args : T) (minintervals limit : Z) (tol : num A)
           (intervals0 intervals : list (interval A)),
      ordered_by A key ->
      initial_intervals A f a b args minintervals = Ok intervals0 ->
      (forall l, loop_reaches A (map f) args limit tol intervals0 l ->
                 Forall (comparable_tuple A) l) ->
      loop_reaches A (map f) args limit tol intervals0 intervals ->
      ascending A intervals /\
      ascending_err A intervals /\
      (forall x, comparable_tuple A x ->
         ascending A (insort A intervals x) /\
         ascending_err A (insort A intervals x)) /\
      (forall x rest,
         pop A intervals = Ok (x, rest) ->
         intervals = rest ++ [x] /\
         Forall (fun y => ltb A (err_of A x) (err_of A y) = false) intervals)).
  { intros A key T f a b args minintervals limit tol intervals0 intervals
           Hord Hinit Hclean Hreach.
    assert (H0 : ascending A intervals0).
    { unfold initial_intervals in Hinit.
      destruct (linspace A a b (minintervals + 1)); [|discriminate].
      simpl in Hinit.
      eapply (seed_ascending A key Hord); [exact Hinit | | constructor].
      apply Hclean. constructor. }
    assert (Hc : Forall (comparable_tuple A) intervals) by now apply Hclean.
    assert (Hs : ascending A intervals)
      by (eapply (loop_reaches_ascending A key Hord); eassumption).
    split; [exact Hs|]. split; [|split].
    - now apply (ascending_ascending_err A key Hord).
    - intros x Hx.
      assert (Hi : ascending A (insort A intervals x))
        by now apply (insort_ascending A key Hord).
      split; [exact Hi|].
      apply (ascending_ascending_err A key Hord); [|exact Hi].
      rewrite Forall_forall in *. intros y Hy.
      apply (Permutation_in _ (Permutation_sym (insort_perm A intervals x)))
        in Hy.
      destruct Hy as [<-|Hy]; auto.
    - intros x rest Hp. split; [now apply pop_spec|].
      now apply (pop_ascending A key Hord intervals x rest Hc Hs Hp). }
  split; [exact General|]. split; [|split].
  - intros T f a b args minintervals limit tol intervals0 intervals
           Hinit Hreach.
    destruct (General real_arith (fun x => x) T f a b args minintervals limit
                tol intervals0 intervals real_ordered Hinit
                (fun l _ => real_clean l) Hreach)
      as (_ & Herr & _ & Hpop).
    split; [exact Herr|].
    intros x rest Hp. destruct (Hpop x rest Hp) as [_ Hmax].
    eapply Forall_impl; [|exact Hmax].
    intros y Hy. real_ops. now apply Rltb_false in Hy.
  - split; [exact real_ordered | exact real_comparable].
  - intros libm_pow.
    split; [apply binary64_ordered | apply binary64_comparable].
Qed.

Lemma intervals_sorted_pop_max_witness :
  exists intervals0,
    initial_intervals real_arith (fun x => x) 0%R 1%R tt 2 = Ok intervals0 /\
    ascending real_arith intervals0 /\
    ascending_err real_arith intervals0.
Proof.
  destruct (initial_partition (fun x => x) 0%R 1%R tt 2) as (i0 & Hinit & _);
    [lra | lia |].
  exists i0. split; [exact Hinit|].
  destruct (proj1 intervals_sorted_pop_max real_arith (fun x => x) unit
              (fun x => x) 0%R 1%R tt 2 200 (default_tol real_arith) i0 i0
              real_ordered Hinit (fun l _ => real_clean l)
              (reaches_first _ _ _ _ _ _))
    as (Hs & He & _).
  split; assumption.
Defined.

(** C7, counterexample.  A NaN error estimate breaks the order.  With
    [minintervals = 2] on [[0, 1]] and an integrand that is [inf] on
    [[0.5, 0.75)], the interval [(0.5, 1)] gets the estimate NaN.  After
    one pass the list holds, in this order, an entry of positive estimate,
    one of estimate NaN and one of estimate [0]: it does not ascend in
    the error estimate, and [pop] returns the entry of estimate [0], below
    the estimate of the first. *)
Lemma intervals_sorted_pop_max_counterexample :
  let A := binary64 pow_exact in
  exists (i0 i1 rest : list (interval A)) (x y : interval A),
    initial_intervals A steps_to_infinity 0%float 1%float tt 2 = Ok i0 /\
    loop_body A (map steps_to_infinity) tt default_limit (default_tol A) i0
    = Ok (Continue i1) /\
    ~ ascending_err A i1 /\
    pop A i1 = Ok (x, rest) /\
    In y i1 /\
    ltb A (err_of A x) (err_of A y) = true.
Proof.
  cbv zeta.
  destruct (initial_intervals (binary64 pow_exact) steps_to_infinity
              0%float 1%float tt 2) as [i0|] eqn:H0;
    [|vm_compute in H0; discriminate].
  destruct (loop_body (binary64 pow_exact) (map steps_to_infinity) tt
              default_limit (default_tol (binary64 pow_exact)) i0)
    as [[r|i1]|] eqn:H1.
  1, 3: vm_compute in H0; inversion H0; subst; vm_compute in H1; discriminate.
  vm_compute in H0. inversion H0; subst. clear H0.
  vm_compute in H1. inversion H1; subst. clear H1.
  eexists _, _, _, _, _.
  split; [reflexivity|]. split; [reflexivity|]. split; [|split; [|split]].
  - intros H. apply StronglySorted_inv in H. destruct H as [_ H].
    apply Forall_inv_tail in H. apply Forall_inv in H.
    vm_compute in H. discriminate.
  - vm_compute. reflexivity.
  - left. reflexivity.
  - vm_compute. reflexivity.
Qed.




(** C9.  [args] is never used: for every arithmetic, two calls of
    [integrate_gausskronrod], or of [integrate], that differ only in [args]
    give the same result.  (The integrand takes the evaluation points and
    nothing else.) *)
Theorem args_unused (A : Arith) (T1 T2 : Type) (args1 : T1) (args2 : T2) :
  (forall f a b,
     integrate_gausskronrod A f a b args1
     = integrate_gausskronrod A f a b args2) /\
  (forall turns f a b minintervals limit tol,
     integrate A turns f a b args1 minintervals limit tol
     = integrate A turns f a b args2 minintervals limit tol).
Proof.
  split; [reflexivity|].
  assert (Hseed : forall fv pairs intervals,
             seed A fv args1 pairs intervals = seed A fv args2 pairs intervals).
  { intros fv. induction pairs as [|[l r] pairs IH]; intros intervals;
      [reflexivity|].
    simpl.
    change (integrate_gausskronrod A fv l r args1)
      with (integrate_gausskronrod A fv l r args2).
    destruct (integrate_gausskronrod A fv l r args2) as [[I_ err]|];
      [apply IH | reflexivity]. }
  assert (Hloop : forall fv limit tol turns intervals,
             while_true A turns fv args1 limit tol intervals
             = while_true A turns fv args2 limit tol intervals).
  { intros fv limit tol. induction turns as [|turns IH]; intros intervals;
      [reflexivity|].
    simpl.
    change (loop_body A fv args1 limit tol intervals)
      with (loop_body A fv args2 limit tol intervals).
    destruct (loop_body A fv args2 limit tol intervals) as [[r|i]|e];
      auto. }
  intros turns f a b minintervals limit tol. unfold integrate, initial_intervals.
  destruct (linspace A a b (minintervals + 1)) as [limits|e]; [|reflexivity].
  simpl. rewrite Hseed.
  destruct (seed A (map f) args2 (consecutive A limits) []); auto.
Qed.

(** C10.  The loop terminates, for every arithmetic: a pass that goes round
    again leaves one interval more than it found, and with
    [minintervals >= 1] and [limit >= 1] the call returns or raises within
    [max(0, limit - minintervals) + 1] passes through the loop body; more
    passes allowed change nothing. *)
Theorem loop_terminates (A : Arith) (T : Type) (f : num A -> num A)
    (a b : num A) (args : T) (minintervals limit : Z) (tol : num A)
    (turns : nat) :
  1 <= minintervals -> 1 <= limit ->
  (Z.to_nat (Z.max 0 (limit - minintervals)) + 1 <= turns)%nat ->
  (exists r,
     integrate A turns f a b args minintervals limit tol = Some r /\
     forall turns', (turns <= turns')%nat ->
       integrate A turns' f a b args minintervals limit tol = Some r) /\
  (forall intervals intervals',
     loop_body A (map f) args limit tol intervals = Ok (Continue intervals') ->
     length intervals' = S (length intervals)).
Proof.
  intros Hn Hl Ht. split.
  - unfold integrate.
    destruct (initial_intervals A f a b args minintervals) as [intervals|e] eqn:Hi;
      [|eauto].
    apply initial_intervals_length in Hi.
    destruct (while_true_enough A (map f) args limit tol turns intervals)
      as [r Hr]; [rewrite Hi; lia|].
    exists r. split; [exact Hr|].
    intros turns' Hle. eapply while_true_more; eassumption.
  - intros intervals intervals' H. apply loop_body_continue in H.
    destruct H as (_ & _ & _ & H). now apply bisect_worst_length in H.
Qed.

Lemma loop_terminates_witness :
  exists r,
    integrate (binary64 pow_exact) 3 PrimFloat.sqrt 0%float 1%float tt 1 3
              (default_tol (binary64 pow_exact)) = Some r.
Proof.
  destruct (proj1 (loop_terminates (binary64 pow_exact) unit PrimFloat.sqrt
                     0%float 1%float tt 1 3
                     (default_tol (binary64 pow_exact)) 3
                     ltac:(lia) ltac:(lia) ltac:(lia)))
    as (r & Hr & _).
  exists r. exact Hr.
Defined.

(** ** Lemmas for the further properties *)

(** *** Exceptions *)

Section Exceptions.

Variable A : Arith.

Lemma linspace_raise start stop n e :
  linspace A start stop n = Raise e -> e = ValueError /\ n < 0.
Proof.
  unfold linspace. destruct (Z.ltb_spec n 0) as [Hn|Hn]; [|discriminate].
  intros H. inversion H. auto.
Qed.

Lemma linspace_negative start stop n :
  n < 0 -> linspace A start stop n = Raise ValueError.
Proof.
  intros H. unfold linspace. destruct (Z.ltb_spec n 0) as [Hn|Hn]; [reflexivity | lia].
Qed.

Lemma seed_raise {T : Type} fv (args : T) pairs :
  forall intervals e,
  seed A fv args pairs intervals = Raise e -> e = AssertionError.
Proof.
  induction pairs as [|[l r] pairs IH]; intros intervals e; simpl;
    [discriminate|].
  destruct (integrate_gausskronrod A fv l r args) as [[I_ err]|e'] eqn:Hq; simpl.
  - apply IH.
  - intros H. inversion H; subst. now apply integrate_gausskronrod_raise in Hq.
Qed.

Lemma initial_intervals_raise {T : Type} f a b (args : T) minintervals e :
  initial_intervals A f a b args minintervals = Raise e ->
  (e = ValueError /\ minintervals < -1) \/ e = AssertionError.
Proof.
  unfold initial_intervals.
  destruct (linspace A a b (minintervals + 1)) as [limits|e'] eqn:Hl; simpl.
  - intros H. right. now apply seed_raise in H.
  - intros H. inversion H; subst. apply linspace_raise in Hl. left. split; [tauto | lia].
Qed.

Lemma initial_intervals_none {T : Type} f a b (args : T) minintervals :
  -1 <= minintervals <= 0 ->
  initial_intervals A f a b args minintervals = Ok [].
Proof.
  intros H. assert (Hm : minintervals = 0 \/ minintervals = -1) by lia.
  destruct Hm as [-> | ->]; reflexivity.
Qed.

Lemma loop_body_continue_nonempty {T : Type} fv (args : T) limit tol
    intervals intervals' :
  loop_body A fv args limit tol intervals = Ok (Continue intervals') ->
  intervals' <> [].
Proof.
  intros H. apply loop_body_continue in H. destruct H as (_ & _ & _ & H).
  apply bisect_worst_length in H. now destruct intervals'.
Qed.

Lemma while_true_raise {T : Type} fv (args : T) limit tol turns e :
  forall intervals,
  while_true A turns fv args limit tol intervals = Some (Raise e) ->
  (intervals = [] /\ e = ZeroDivisionError) \/ e = AssertionError.
Proof.
  induction turns as [|turns IH]; intros intervals H; [discriminate|].
  simpl in H.
  destruct (loop_body A fv args limit tol intervals) as [[r|intervals']|e0] eqn:Hb.
  - discriminate.
  - apply IH in H. destruct H as [[Hn _]|H]; [|now right].
    now apply loop_body_continue_nonempty in Hb.
  - inversion H; subst. apply loop_body_raise in Hb. tauto.
Qed.

End Exceptions.

(** *** An integrand that can raise *)

Section RaisingIntegrand.

Variable A : Arith.
Variable E : Type.
Variable f : num A -> Raising.answer E (num A).
Variable g : num A -> num A.
Hypothesis f_g : forall x v, f x = Raising.Returns v -> g x = v.

Lemma vectorize_follows zi :
  follows f (Raising.vectorize A E f zi) (Ok (map g zi)).
Proof.
  induction zi as [|x zi IH]; [now right|].
  simpl. destruct (f x) as [v|e] eqn:Hx.
  - destruct IH as [(e & y & Hy & ->) | ->].
    + left. exists e, y. auto.
    + right. simpl. now rewrite (f_g x v Hx).
  - left. exists e, x. auto.
Qed.

Lemma rule_follows {T : Type} a b (args : T) :
  follows f
    (Raising.integrate_gausskronrod A E (Raising.vectorize A E f) a b args)
    (integrate_gausskronrod A (map g) a b args).
Proof.
  unfold Raising.integrate_gausskronrod, integrate_gausskronrod.
  destruct (ltb A a b); [|now right].
  cbv zeta.
  destruct (vectorize_follows
              (map (fun z => add A (mul A (lit A (1 # 2)) (add A b a))
                               (mul A z (mul A (lit A (1 # 2)) (sub A b a))))
                   (gausskronrod_nodes A)))
    as [(e & y & Hy & ->) | ->].
  - left. exists e, y. auto.
  - now right.
Qed.

Lemma seed_follows {T : Type} (args : T) pairs :
  forall intervals,
  follows f
    (Raising.seed A E (Raising.vectorize A E f) args pairs intervals)
    (seed A (map g) args pairs intervals).
Proof.
  induction pairs as [|[l r] pairs IH]; intros intervals; [now right|].
  simpl. destruct (rule_follows l r args) as [(e & y & Hy & ->) | ->].
  - left. exists e, y. auto.
  - destruct (integrate_gausskronrod A (map g) l r args) as [[I_ err]|e];
      simpl; [apply IH | now right].
Qed.

Lemma initial_follows {T : Type} a b (args : T) minintervals :
  follows f
    (Raising.initial_intervals A E f a b args minintervals)
    (initial_intervals A g a b args minintervals).
Proof.
  unfold Raising.initial_intervals, initial_intervals.
  destruct (linspace A a b (minintervals + 1)) as [limits|e]; simpl;
    [apply seed_follows | now right].
Qed.

Lemma bisect_worst_follows {T : Type} (args : T) intervals :
  follows f
    (Raising.bisect_worst A E (Raising.vectorize A E f) args intervals)
    (bisect_worst A (map g) args intervals).
Proof.
  unfold Raising.bisect_worst, bisect_worst.
  destruct (pop A intervals) as [[[[[e0 l] r] i] rest]|e]; simpl;
    [|now right].
  destruct (rule_follows l (add A l (div A (sub A r l) (lit A 2))) args)
    as [(e & y & Hy & ->) | ->]; [left; exists e, y; auto|].
  destruct (integrate_gausskronrod A (map g) l _ args) as [[I1 err1]|e];
    simpl; [|now right].
  destruct (rule_follows (add A l (div A (sub A r l) (lit A 2))) r args)
    as [(e & y & Hy & ->) | ->]; [left; exists e, y; auto|].
  destruct (integrate_gausskronrod A (map g) _ r args) as [[I2 err2]|e];
    simpl; now right.
Qed.

Lemma loop_body_follows {T : Type} (args : T) limit tol intervals :
  follows f
    (Raising.loop_body A E (Raising.vectorize A E f) args limit tol intervals)
    (loop_body A (map g) args limit tol intervals).
Proof.
  unfold Raising.loop_body, loop_body.
  destruct (quotient A intervals) as [q|e]; simpl; [|now right].
  destruct (ltb A (absf A q) tol); [now right|].
  destruct (Z.of_nat (length intervals) >=? limit); [now right|].
  destruct (bisect_worst_follows args intervals) as [(e & y & Hy & ->) | ->];
    [left; exists e, y; auto|].
  destruct (bisect_worst A (map g) args intervals); simpl; now right.
Qed.

Lemma while_true_follows {T : Type} (args : T) limit tol turns :
  forall intervals,
  run_follows f
    (Raising.while_true A E turns (Raising.vectorize A E f) args limit tol
       intervals)
    (while_true A turns (map g) args limit tol intervals).
Proof.
  induction turns as [|turns IH]; intros intervals; [now right|].
  simpl.
  destruct (loop_body_follows args limit tol intervals)
    as [(e & y & Hy & ->) | ->]; [left; exists e, y; auto|].
  destruct (loop_body A (map g) args limit tol intervals) as [[r|i']|e];
    simpl; [now right | apply IH | now right].
Qed.

Lemma integrate_follows {T : Type} a b (args : T) minintervals limit tol turns :
  run_follows f
    (Raising.integrate A E turns f a b args minintervals limit tol)
    (integrate A turns g a b args minintervals limit tol).
Proof.
  unfold Raising.integrate, integrate.
  destruct (initial_follows a b args minintervals) as [(e & y & Hy & ->) | ->];
    [left; exists e, y; auto|].
  destruct (initial_intervals A g a b args minintervals) as [i0|e]; simpl;
    [apply while_true_follows | now right].
Qed.

End RaisingIntegrand.

Section RaisingCases.

Variable A : Arith.

(** What [integrate] raises with an integrand that returns. *)
Lemma integrate_raise_cases {T : Type} (g : num A -> num A) a b (args : T)
    minintervals limit tol turns e :
  integrate A turns g a b args minintervals limit tol = Some (Raise e) ->
  (e = ValueError /\ minintervals < -1) \/
  (e = ZeroDivisionError /\ -1 <= minintervals <= 0) \/
  (e = AssertionError /\ 1 <= minintervals).
Proof.
  intros H.
  assert (Hm : minintervals < -1 \/ -1 <= minintervals <= 0 \/ 1 <= minintervals)
    by lia.
  destruct Hm as [Hm|[Hm|Hm]].
  - unfold integrate, initial_intervals in H.
    rewrite linspace_negative in H by lia. inversion H. auto.
  - unfold integrate in H. rewrite initial_intervals_none in H by exact Hm.
    destruct turns as [|turns]; [discriminate|].
    cbn [while_true] in H. rewrite loop_body_empty in H. inversion H. auto.
  - right. right. split; [|exact Hm]. unfold integrate in H.
    destruct (initial_intervals A g a b args minintervals) as [intervals|e'] eqn:Hi.
    + apply initial_intervals_length in Hi.
      apply while_true_raise in H. destruct H as [[-> _]|H]; [|exact H].
      simpl in Hi. lia.
    + inversion H; subst. apply initial_intervals_raise in Hi.
      destruct Hi as [[_ Hi]|Hi]; [lia | exact Hi].
Qed.

Lemma returning_spec {E : Type} (f : num A -> Raising.answer E (num A)) d x v :
  f x = Raising.Returns v -> Raising.returning d f x = v.
Proof. intros H. unfold Raising.returning. now rewrite H. Qed.

(** With no interval to seed, the integrand is not called. *)
Lemma raising_initial_none {E T : Type} (f : num A -> Raising.answer E (num A))
    a b (args : T) minintervals :
  -1 <= minintervals <= 0 ->
  Raising.initial_intervals A E f a b args minintervals = Raising.Done [].
Proof.
  intros H. assert (Hm : minintervals = 0 \/ minintervals = -1) by lia.
  destruct Hm as [-> | ->]; reflexivity.
Qed.

End RaisingCases.

(** *** The runs of the loop *)

Section Runs.

Variable A : Arith.

Lemma loop_reaches_step {T : Type} fv (args : T) limit tol i0 i1 i2 :
  loop_body A fv args limit tol i0 = Ok (Continue i1) ->
  loop_reaches A fv args limit tol i1 i2 ->
  loop_reaches A fv args limit tol i0 i2.
Proof.
  intros Hb H. apply (loop_reaches_trans A fv args limit tol i0 i1 i2); [|exact H].
  eapply reaches_next; [apply reaches_first | exact Hb].
Qed.

Lemma while_true_reaches {T : Type} fv (args : T) limit tol turns o :
  forall intervals,
  while_true A turns fv args limit tol intervals = Some o ->
  exists l,
    loop_reaches A fv args limit tol intervals l /\
    match o with
    | Ok r => loop_body A fv args limit tol l = Ok (Return r)
    | Raise e => loop_body A fv args limit tol l = Raise e
    end.
Proof.
  induction turns as [|turns IH]; intros intervals H; [discriminate|].
  simpl in H.
  destruct (loop_body A fv args limit tol intervals) as [[r|intervals']|e] eqn:Hb.
  - inversion H; subst. exists intervals. split; [apply reaches_first | exact Hb].
  - apply IH in H. destruct H as (l & Hr & Hl).
    exists l. split; [|exact Hl]. eapply loop_reaches_step; eassumption.
  - inversion H; subst. exists intervals. split; [apply reaches_first | exact Hb].
Qed.

Lemma loop_reaches_length {T : Type} fv (args : T) limit tol intervals l :
  loop_reaches A fv args limit tol intervals l ->
  l = intervals \/
  (intervals <> [] /\ (length intervals < length l)%nat /\
   Z.of_nat (length l) <= limit).
Proof.
  induction 1 as [|i0 i1 i2 _ IH Hb]; [now left|]. right.
  apply loop_body_continue in Hb. destruct Hb as (Hne & _ & Hlt & Hw).
  apply bisect_worst_length in Hw. rewrite Hw.
  destruct IH as [->|(IH0 & IH & _)]; repeat split; auto; lia.
Qed.

Lemma insort_Forall (P : interval A -> Prop) a x :
  Forall P (insort A a x) <-> P x /\ Forall P a.
Proof.
  rewrite !Forall_forall. split.
  - intros H. split.
    + apply H. apply (Permutation_in _ (insort_perm A a x)). now left.
    + intros y Hy. apply H. apply (Permutation_in _ (insort_perm A a x)).
      now right.
  - intros [Hx Ha] y Hy.
    apply (Permutation_in _ (Permutation_sym (insort_perm A a x))) in Hy.
    destruct Hy as [<-|Hy]; auto.
Qed.

Lemma seed_entries {T : Type} fv (args : T) pairs :
  forall intervals intervals',
  seed A fv args pairs intervals = Ok intervals' ->
  Forall (rule_entry A fv args) intervals ->
  Forall (rule_entry A fv args) intervals'.
Proof.
  induction pairs as [|[l r] pairs IH]; intros intervals intervals'; simpl.
  - intros H. now inversion H.
  - destruct (integrate_gausskronrod A fv l r args) as [[I_ err]|] eqn:Hq;
      [|discriminate].
    simpl. intros H Hi. apply (IH _ _ H). apply insort_Forall. split; assumption.
Qed.

Lemma initial_entries {T : Type} f a b (args : T) minintervals intervals :
  initial_intervals A f a b args minintervals = Ok intervals ->
  Forall (rule_entry A (map f) args) intervals.
Proof.
  unfold initial_intervals.
  destruct (linspace A a b (minintervals + 1)) as [limits|]; [|discriminate].
  simpl. intros H. apply (seed_entries _ _ _ _ _ H). constructor.
Qed.

Lemma bisect_worst_entries {T : Type} fv (args : T) intervals intervals' :
  bisect_worst A fv args intervals = Ok intervals' ->
  Forall (rule_entry A fv args) intervals ->
  Forall (rule_entry A fv args) intervals'.
Proof.
  intros H Hi. apply bisect_worst_spec in H.
  destruct H as (rest & e & l & r & i & I1 & err1 & I2 & err2 & -> & H1 & H2 & ->).
  apply Forall_app in Hi. destruct Hi as [Hi _].
  apply insort_Forall. split; [exact H2|].
  apply insort_Forall. split; [exact H1 | exact Hi].
Qed.

Lemma loop_reaches_entries {T : Type} fv (args : T) limit tol intervals l :
  loop_reaches A fv args limit tol intervals l ->
  Forall (rule_entry A fv args) intervals ->
  Forall (rule_entry A fv args) l.
Proof.
  induction 1 as [|i0 i1 i2 _ IH Hb]; intros Hi; [assumption|].
  apply loop_body_continue in Hb. destruct Hb as (_ & _ & _ & Hw).
  eapply bisect_worst_entries; [exact Hw | auto].
Qed.

End Runs.

(** *** A returned pair in binary64 *)

Section Binary64Result.

Lemma SFabs_below_positive (q t : spec_float) :
  SFltb (SFabs q) t = true -> SFltb (S754_zero false) t = true.
Proof.
  intros H.
  destruct q as [s|s| |s m e], t as [st|st| |st mt et];
    try destruct st; try discriminate H; try reflexivity.
Qed.

Lemma SFdiv_abs_below (x y t : spec_float) :
  SFltb (SFabs (SFdiv prec emax x y)) t = true ->
  match x with S754_zero _ | S754_finite _ _ _ => True | _ => False end /\
  y <> S754_nan.
Proof.
  intros H.
  destruct x as [sx|sx| |sx mx ex], y as [sy|sy| |sy my ey];
    try (split; [exact Logic.I | discriminate]);
    exfalso; cbn [SFdiv SFabs] in H;
    destruct t as [st|st| |st mt et]; try destruct st; discriminate H.
Qed.

Lemma SFeqb_refl (x : spec_float) : x <> S754_nan -> SFeqb x x = true.
Proof.
  intros Hx. unfold SFeqb, SFcompare.
  destruct x as [s|s| |s m e]; try reflexivity; try (now elim Hx);
    destruct s; try reflexivity;
    rewrite Z.compare_refl, ?Pos.compare_cont_refl; reflexivity.
Qed.

Lemma is_nan_spec (x : float) :
  PrimFloat.is_nan x = match Prim2SF x with S754_nan => true | _ => false end.
Proof.
  unfold PrimFloat.is_nan. rewrite eqb_spec.
  destruct (Prim2SF x) as [s|s| |s m e] eqn:E; try reflexivity;
    rewrite SFeqb_refl by discriminate; reflexivity.
Qed.

Lemma is_finite_spec (x : float) :
  PrimFloat.is_finite x
  = match Prim2SF x with
    | S754_zero _ | S754_finite _ _ _ => true
    | _ => false
    end.
Proof.
  unfold PrimFloat.is_finite, PrimFloat.is_infinity.
  rewrite is_nan_spec, eqb_spec, abs_spec.
  change (Prim2SF infinity) with (S754_infinity false).
  destruct (Prim2SF x) as [s|s| |s m e]; reflexivity.
Qed.

(** A sum that meets NaN is NaN. *)
Lemma fold_add_nan (l : list float) (acc : float) :
  PrimFloat.is_nan acc = true ->
  PrimFloat.is_nan (fold_left PrimFloat.add l acc) = true.
Proof.
  revert acc. induction l as [|y l IH]; intros acc H; [exact H|].
  simpl. apply IH. rewrite is_nan_spec in *. rewrite add_spec.
  destruct (Prim2SF acc); try discriminate. reflexivity.
Qed.

Lemma fold_add_nan_in (l : list float) (acc x : float) :
  In x l -> PrimFloat.is_nan x = true ->
  PrimFloat.is_nan (fold_left PrimFloat.add l acc) = true.
Proof.
  revert acc. induction l as [|y l IH]; intros acc Hin Hx; [now elim Hin|].
  simpl. destruct Hin as [->|Hin]; [|now apply IH].
  apply fold_add_nan. rewrite is_nan_spec in *. rewrite add_spec.
  destruct (Prim2SF x); try discriminate. now destruct (Prim2SF acc).
Qed.

Lemma float_div_by_nan_not_below (x z t : float) :
  PrimFloat.is_nan z = true ->
  PrimFloat.ltb (PrimFloat.abs (PrimFloat.div x z)) t = false.
Proof.
  rewrite is_nan_spec, ltb_spec, abs_spec, div_spec.
  destruct (Prim2SF z); try discriminate. intros _.
  now destruct (Prim2SF x).
Qed.

Lemma float_below_tol (e v tol : float) :
  PrimFloat.ltb (PrimFloat.abs (PrimFloat.div e v)) tol = true ->
  PrimFloat.ltb PrimFloat.zero tol = true /\
  PrimFloat.is_finite e = true /\ PrimFloat.is_nan v = false.
Proof.
  rewrite !ltb_spec, abs_spec, div_spec, is_finite_spec, is_nan_spec.
  change (Prim2SF PrimFloat.zero) with (S754_zero false).
  intros H. split; [now apply SFabs_below_positive in H|].
  apply SFdiv_abs_below in H. destruct H as [He Hv].
  split.
  - now destruct (Prim2SF e).
  - destruct (Prim2SF v); try reflexivity. now elim Hv.
Qed.

End Binary64Result.

(** *** The assertion inside the loop *)

Section BisectionAssertion.

Lemma midpoint_real (l r : R) :
  (l < r)%R -> (l < midpoint real_arith l r < r)%R.
Proof.
  intros H. unfold midpoint. real_ops.
  replace (Q2R 2) with 2%R by (unfold Q2R; simpl; field). lra.
Qed.

Lemma real_bisect_worst_ok {T : Type} fv (args : T) intervals :
  intervals <> [] -> Forall (rule_entry real_arith fv args) intervals ->
  exists intervals', bisect_worst real_arith fv args intervals = Ok intervals'.
Proof.
  intros Hne He.
  destruct (exists_last Hne) as (rest & [[[e l] r] i] & ->).
  apply Forall_app in He. destruct He as [_ He]. apply Forall_inv in He.
  apply integrate_gausskronrod_ok in He. simpl in He.
  apply Rltb_true in He. apply midpoint_real in He. destruct He as [H1 H2].
  eexists. apply bisect_worst_spec.
  exists rest, e, l, r, i.
  exists (fst (quadrature_rule_spec fv l (midpoint real_arith l r))),
         (snd (quadrature_rule_spec fv l (midpoint real_arith l r))),
         (fst (quadrature_rule_spec fv (midpoint real_arith l r) r)),
         (snd (quadrature_rule_spec fv (midpoint real_arith l r) r)).
  split; [reflexivity|].
  rewrite <- !surjective_pairing.
  split; [now apply integrate_gausskronrod_real|].
  split; [now apply integrate_gausskronrod_real | reflexivity].
Qed.

Lemma real_loop_body_ok {T : Type} fv (args : T) limit tol intervals :
  intervals <> [] -> Forall (rule_entry real_arith fv args) intervals ->
  exists s, loop_body real_arith fv args limit tol intervals = Ok s.
Proof.
  intros Hne He.
  destruct (real_bisect_worst_ok fv args intervals Hne He) as [i' Hw].
  destruct intervals as [|x l]; [now elim Hne|].
  rewrite loop_body_nonempty.
  destruct (tolerance_test real_arith tol (x :: l)); [eauto|].
  destruct (Z.of_nat (length (x :: l)) >=? limit); [eauto|].
  rewrite Hw. simpl. eauto.
Qed.

End BisectionAssertion.

(** *** Where the integrand is evaluated, in real arithmetic *)

Section EvaluationPoints.

Local Open Scope R_scope.

Lemma nodes_inside :
  Forall (fun z => -1 < z < 1) (gausskronrod_nodes real_arith).
Proof.
  unfold gausskronrod_nodes. cbn [map lit real_arith].
  repeat (constructor; [unfold Q2R, e15; simpl; lra|]). constructor.
Qed.

Lemma spec_points_inside (a b : R) :
  a < b -> Forall (fun x => a < x < b) (spec_points a b).
Proof.
  intros Hab. unfold spec_points. apply Forall_forall. intros x Hx.
  apply in_map_iff in Hx. destruct Hx as (z & <- & Hz).
  pose proof nodes_inside as Hn. rewrite Forall_forall in Hn.
  specialize (Hn z Hz). split; nra.
Qed.

Lemma rule_local {T : Type} (f g : R -> R) (a b l r : R) (args : T) :
  a <= l -> r <= b -> agree_inside a b f g ->
  integrate_gausskronrod real_arith (map f) l r args
  = integrate_gausskronrod real_arith (map g) l r args.
Proof.
  intros Hl Hr Hfg. destruct (Rlt_dec l r) as [Hlr|Hlr].
  - rewrite !integrate_gausskronrod_real by exact Hlr.
    unfold quadrature_rule_spec.
    replace (map g (spec_points l r)) with (map f (spec_points l r));
      [reflexivity|].
    apply map_ext_in. intros x Hx.
    pose proof (spec_points_inside l r Hlr) as Hin. rewrite Forall_forall in Hin.
    specialize (Hin x Hx). apply Hfg. lra.
  - rewrite !integrate_gausskronrod_assert; [reflexivity| |];
      real_ops; apply Rltb_false; lra.
Qed.

Lemma chain_within a b c :
  chain real_arith a b c ->
  a < b /\ Forall (fun p => a <= fst p /\ fst p < snd p /\ snd p <= b) c.
Proof.
  induction 1 as [a b H|a m b c H _ [IHab IH]]; real_ops; apply Rltb_true in H.
  - split; [exact H|]. constructor; [simpl; lra | constructor].
  - split; [lra|]. constructor; [simpl; lra|].
    eapply Forall_impl; [|exact IH]. simpl. intros p Hp. lra.
Qed.

Lemma partition_within a b intervals :
  partition_of real_arith a b intervals ->
  Forall (fun x => a <= left_of real_arith x /\
                   left_of real_arith x < right_of real_arith x /\
                   right_of real_arith x <= b) intervals.
Proof.
  intros (c & Hc & Hp). apply chain_within in Hc. destruct Hc as [_ Hc].
  rewrite Forall_forall in *. intros x Hx.
  apply (in_map (bounds real_arith)) in Hx.
  apply (Permutation_in _ (Permutation_sym Hp)) in Hx.
  exact (Hc _ Hx).
Qed.

Lemma seed_local {T : Type} (f g : R -> R) (a b : R) (args : T) pairs :
  agree_inside a b f g ->
  Forall (fun p => a <= fst p /\ snd p <= b) pairs ->
  forall intervals,
  seed real_arith (map f) args pairs intervals
  = seed real_arith (map g) args pairs intervals.
Proof.
  intros Hfg. induction 1 as [|[l r] pairs [Hl Hr] _ IH]; intros intervals;
    [reflexivity|].
  simpl in Hl, Hr. cbn [seed].
  rewrite (rule_local f g a b l r args Hl Hr Hfg).
  destruct (integrate_gausskronrod real_arith (map g) l r args) as [[I_ err]|];
    [apply IH | reflexivity].
Qed.

Lemma bisect_worst_local {T : Type} (f g : R -> R) (a b : R) (args : T)
    intervals :
  agree_inside a b f g -> partition_of real_arith a b intervals ->
  bisect_worst real_arith (map f) args intervals
  = bisect_worst real_arith (map g) args intervals.
Proof.
  intros Hfg Hp. apply partition_within in Hp. unfold bisect_worst.
  destruct (pop real_arith intervals) as [[[[[e l] r] i] rest]|e'] eqn:Hpop;
    [|reflexivity].
  apply pop_spec in Hpop. subst intervals.
  apply Forall_app in Hp. destruct Hp as [_ Hp]. apply Forall_inv in Hp.
  simpl in Hp. destruct Hp as (Hl & Hlr & Hr).
  pose proof (midpoint_real l r Hlr) as Hm. unfold midpoint in Hm.
  cbv beta iota zeta delta [bind].
  rewrite (rule_local f g a b l _ args) by (assumption || lra).
  destruct (integrate_gausskronrod real_arith (map g) l _ args) as [[I1 err1]|];
    [|reflexivity].
  rewrite (rule_local f g a b _ r args) by (assumption || lra).
  reflexivity.
Qed.

Lemma loop_body_local {T : Type} (f g : R -> R) (a b : R) (args : T)
    limit tol intervals :
  agree_inside a b f g -> partition_of real_arith a b intervals ->
  loop_body real_arith (map f) args limit tol intervals
  = loop_body real_arith (map g) args limit tol intervals.
Proof.
  intros Hfg Hp. unfold loop_body.
  now rewrite (bisect_worst_local f g a b args intervals Hfg Hp).
Qed.

Lemma while_true_local {T : Type} (f g : R -> R) (a b : R) (args : T)
    limit tol turns :
  agree_inside a b f g ->
  forall intervals, partition_of real_arith a b intervals ->
  while_true real_arith turns (map f) args limit tol intervals
  = while_true real_arith turns (map g) args limit tol intervals.
Proof.
  intros Hfg. induction turns as [|turns IH]; intros intervals Hp;
    [reflexivity|].
  cbn [while_true].
  rewrite <- (loop_body_local f g a b args limit tol intervals Hfg Hp).
  destruct (loop_body real_arith (map f) args limit tol intervals)
    as [[r|intervals']|e] eqn:Hb; try reflexivity.
  apply IH. apply loop_body_continue in Hb. destruct Hb as (_ & _ & _ & Hw).
  eapply bisect_worst_partition; eassumption.
Qed.

Lemma initial_local {T : Type} (f g : R -> R) (a b : R) (args : T)
    minintervals :
  a < b -> (1 <= minintervals)%Z -> agree_inside a b f g ->
  initial_intervals real_arith f a b args minintervals
  = initial_intervals real_arith g a b args minintervals.
Proof.
  intros Hab Hm Hfg.
  destruct (initial_partition f a b args minintervals Hab Hm)
    as (i0 & _ & Hperm & Hp).
  apply partition_within in Hp.
  unfold initial_intervals. rewrite (linspace_real a b minintervals Hm).
  cbv beta iota zeta delta [bind]. rewrite consecutive_map.
  apply (seed_local f g a b args _ Hfg).
  rewrite Forall_forall in *. intros p Hin.
  apply (Permutation_in _ Hperm) in Hin. apply in_map_iff in Hin.
  destruct Hin as (x & <- & Hx). specialize (Hp x Hx). simpl. lra.
Qed.

End EvaluationPoints.

(** *** The rule as a map of the integrand, in real arithmetic *)

Section RuleAlgebra.

Local Open Scope R_scope.

Lemma spec_points_reference :
  spec_points (-1) 1 = gausskronrod_nodes real_arith.
Proof.
  unfold spec_points. rewrite <- map_id. apply map_ext. intros z. field.
Qed.

Lemma spec_points_affine (a b : R) :
  spec_points a b
  = map (fun z => (b - a) / 2 * (z + 1) + a) (spec_points (-1) 1).
Proof.
  rewrite spec_points_reference. unfold spec_points. apply map_ext.
  intros z. field.
Qed.

Lemma dot_map_linear (f g : R -> R) (alpha beta : R) (p : list R) :
  forall w,
  dot (map (fun x => alpha * f x + beta * g x) p) w
  = alpha * dot (map f p) w + beta * dot (map g p) w.
Proof.
  induction p as [|x p IH]; intros [|y w]; simpl; try lra.
  rewrite IH. lra.
Qed.

Lemma dot_map_scale (f : R -> R) (alpha : R) (p w : list R) :
  dot (map (fun x => alpha * f x) p) w = alpha * dot (map f p) w.
Proof.
  rewrite (map_ext (fun x => alpha * f x) (fun x => alpha * f x + 0 * f x))
    by (intros; lra).
  rewrite dot_map_linear. lra.
Qed.

Lemma Rpow_abs (x y : R) : Rpow (Rabs x) y = Rpow x y.
Proof.
  unfold Rpow. destruct (Req_dec_T x 0) as [->|Hx].
  - rewrite Rabs_R0. now destruct (Req_dec_T 0 0).
  - destruct (Req_dec_T (Rabs x) 0) as [H|_].
    + now apply Rabs_no_R0 in H.
    + now rewrite Rabs_Rabsolu.
Qed.

Lemma Rpow_mult (x y z : R) : Rpow (x * y) z = Rpow x z * Rpow y z.
Proof.
  unfold Rpow.
  destruct (Req_dec_T x 0) as [->|Hx].
  - rewrite Rmult_0_l. destruct (Req_dec_T 0 0); [lra | contradiction].
  - destruct (Req_dec_T y 0) as [->|Hy].
    + rewrite Rmult_0_r. destruct (Req_dec_T 0 0); [lra | contradiction].
    + destruct (Req_dec_T (x * y) 0) as [H|_].
      * apply Rmult_integral in H. tauto.
      * rewrite Rabs_mult. symmetry.
        apply Rpower_mult_distr; now apply Rabs_pos_lt.
Qed.

Lemma Rpow_three_halves (x : R) : 0 < x -> Rpow x (3 / 2) = x * R_sqrt.sqrt x.
Proof.
  intros Hx. unfold Rpow. destruct (Req_dec_T x 0) as [->|_]; [lra|].
  rewrite Rabs_right by lra.
  replace (3 / 2) with (1 + / 2) by field.
  rewrite Rpower_plus, Rpower_1, Rpower_sqrt by exact Hx. reflexivity.
Qed.

Lemma rule_scale (f : R -> R) (alpha a b : R) :
  quadrature_rule_spec (map (fun x => alpha * f x)) a b
  = (alpha * fst (quadrature_rule_spec (map f) a b),
     Rpow alpha (3 / 2) * snd (quadrature_rule_spec (map f) a b)).
Proof.
  unfold quadrature_rule_spec. cbn [fst snd].
  rewrite !firstn_map, !dot_map_scale. f_equal; [lra|].
  rewrite <- Rmult_minus_distr_l, Rabs_mult.
  replace (200 * (Rabs alpha * Rabs (dot (map f (firstn 7 (spec_points a b)))
                                        (gauss_weights real_arith)
                                    - dot (map f (spec_points a b))
                                        (kronrod_weights real_arith))))
    with (Rabs alpha * (200 * Rabs (dot (map f (firstn 7 (spec_points a b)))
                                        (gauss_weights real_arith)
                                    - dot (map f (spec_points a b))
                                        (kronrod_weights real_arith))))
    by lra.
  rewrite Rpow_mult, Rpow_abs. lra.
Qed.

Lemma spec_points_reflect (a b : R) :
  map (fun x => a + b - x) (spec_points a b) = swap_pairs (spec_points a b).
Proof.
  unfold spec_points, gausskronrod_nodes. cbn [map lit real_arith swap_pairs].
  repeat (apply f_equal2; [unfold Q2R, e15; simpl; lra|]). reflexivity.
Qed.

Lemma rule_reflect (f : R -> R) (a b : R) :
  quadrature_rule_spec (map (fun x => f (a + b - x))) a b
  = quadrature_rule_spec (map f) a b.
Proof.
  unfold quadrature_rule_spec.
  rewrite <- (map_map (fun x => a + b - x) f), spec_points_reflect.
  unfold spec_points, gausskronrod_nodes, kronrod_weights, gauss_weights.
  cbn [map lit real_arith swap_pairs firstn dot].
  f_equal; [lra|]. f_equal. f_equal. f_equal. f_equal. lra.
Qed.

End RuleAlgebra.

Section RuleSymmetry.

Local Open Scope R_scope.

Lemma Rpow_zero (y : R) : Rpow 0 y = 0.
Proof. unfold Rpow. destruct (Req_dec_T 0 0); [reflexivity | contradiction]. Qed.

(** An integrand that is odd about the middle of the interval: both dot
    products vanish. *)
Lemma rule_odd (f : R -> R) (a b : R) :
  (forall x, f (a + b - x) = - f x) ->
  dot (map f (spec_points a b)) (kronrod_weights real_arith) = 0 /\
  dot (firstn 7 (map f (spec_points a b))) (gauss_weights real_arith) = 0.
Proof.
  intros Hodd.
  assert (H : map f (swap_pairs (spec_points a b))
              = map (fun x => - f x) (spec_points a b)).
  { rewrite <- spec_points_reflect, map_map. apply map_ext. intros x. apply Hodd. }
  unfold spec_points, gausskronrod_nodes, kronrod_weights, gauss_weights in *.
  cbn [map lit real_arith swap_pairs firstn dot] in *.
  injection H as H1 H2 H3 H4 H5 H6 H7 H8 H9 H10 H11 H12 H13 H14 H15.
  unfold Q2R, e15 in *. cbn [Qnum Qden] in *. split; lra.
Qed.

End RuleSymmetry.

(** *** The tables and the polynomials *)

Section TableExactness.

Local Open Scope R_scope.

Lemma Q2R_e15 (n : Z) : Q2R (e15 n) = IZR n / 1000000000000000.
Proof. reflexivity. Qed.

Lemma dot_scaled (k : nat) (ns : list Z) :
  forall ms,
  dot (map (fun z => z ^ k) (map (fun n => Q2R (e15 n)) ns))
      (map (fun m => Q2R (e15 m)) ms)
  = IZR (zdot (map (fun n => (n ^ Z.of_nat k)%Z) ns) ms)
    / 1000000000000000 ^ S k.
Proof.
  assert (HD : 1000000000000000 <> 0) by lra.
  assert (HDk : 1000000000000000 ^ k <> 0) by now apply pow_nonzero.
  induction ns as [|n ns IH]; intros [|m ms]; cbn [map dot zdot];
    try (unfold Rdiv; now rewrite Rmult_0_l).
  rewrite IH, !Q2R_e15, plus_IZR, mult_IZR, <- pow_IZR.
  unfold Rdiv at 1. rewrite Rpow_mult_distr, pow_inv.
  cbn [pow]. field. repeat split; assumption.
Qed.

Lemma close_from_Z (M N P Qd E : Z) :
  (0 < N)%Z -> (0 < Qd)%Z -> (0 < E)%Z ->
  (Z.abs (M * Qd - P * N) * E <= N * Qd)%Z ->
  Rabs (IZR M / IZR N - IZR P / IZR Qd) <= / IZR E.
Proof.
  intros HN HQ HE H.
  assert (HN' : 0 < IZR N) by now apply IZR_lt.
  assert (HQ' : 0 < IZR Qd) by now apply IZR_lt.
  assert (HE' : 0 < IZR E) by now apply IZR_lt.
  replace (IZR M / IZR N - IZR P / IZR Qd)
    with (IZR (M * Qd - P * N) * / (IZR N * IZR Qd))
    by (rewrite minus_IZR, !mult_IZR; field; lra).
  rewrite Rabs_mult, Rabs_inv, <- abs_IZR.
  rewrite (Rabs_right (IZR N * IZR Qd)) by (apply Rle_ge; nra).
  apply IZR_le in H. rewrite !mult_IZR in H.
  set (A := IZR (Z.abs (M * Qd - P * N))) in *.
  assert (HNQ : 0 < IZR N * IZR Qd) by nra.
  apply (Rmult_le_reg_r (IZR N * IZR Qd)); [exact HNQ|].
  rewrite Rmult_assoc, Rinv_l, Rmult_1_r by lra.
  apply (Rmult_le_reg_r (IZR E)); [exact HE'|].
  replace (/ IZR E * (IZR N * IZR Qd) * IZR E) with (IZR N * IZR Qd)
    by (field; lra).
  exact H.
Qed.

Lemma moment_Z (k : nat) :
  moment k = IZR (if Nat.even k then 2 else 0) / IZR (Z.of_nat (S k)).
Proof.
  unfold moment. rewrite INR_IZR_INZ.
  destruct (Nat.even k); [reflexivity|]. unfold Rdiv. now rewrite Rmult_0_l.
Qed.

Lemma moments_within (ns ms : list Z) (n : nat) :
  forallb (moment_ok ns ms) (seq 0 n) = true ->
  forall k, (k < n)%nat ->
  Rabs (dot (map (fun z => z ^ k) (map (fun n => Q2R (e15 n)) ns))
            (map (fun m => Q2R (e15 m)) ms)
        - moment k) <= / 100000000000000.
Proof.
  intros H k Hk. rewrite forallb_forall in H.
  specialize (H k). rewrite in_seq in H. specialize (H ltac:(lia)).
  unfold moment_ok in H. cbv zeta in H. apply Z.leb_le in H.
  rewrite dot_scaled, moment_Z.
  change 1000000000000000 with (IZR 1000000000000000). rewrite pow_IZR.
  apply close_from_Z; lia.
Qed.

Lemma kronrod_moments (k : nat) :
  (k < 24)%nat ->
  Rabs (dot (map (fun z => z ^ k) (gausskronrod_nodes real_arith))
            (kronrod_weights real_arith)
        - moment k) <= / 100000000000000.
Proof.
  intros Hk. unfold gausskronrod_nodes, kronrod_weights.
  apply (moments_within _ _ 24); [vm_compute; reflexivity | exact Hk].
Qed.

Lemma gauss_moments (k : nat) :
  (k < 14)%nat ->
  Rabs (dot (map (fun z => z ^ k) (firstn 7 (gausskronrod_nodes real_arith)))
            (gauss_weights real_arith)
        - moment k) <= / 100000000000000.
Proof.
  intros Hk. unfold gausskronrod_nodes, gauss_weights.
  rewrite firstn_map. cbn [firstn].
  apply (moments_within _ _ 14); [vm_compute; reflexivity | exact Hk].
Qed.

Lemma dot_poly (p w c : list R) :
  forall j,
  dot (map (fun z => z ^ j * poly c z) p) w
  = poly_rule (fun k => dot (map (fun z => z ^ k) p) w) c j.
Proof.
  induction c as [|ck c IH]; intros j; cbn [poly poly_rule].
  - rewrite (map_ext _ (fun z => 0 * (z ^ j) + 0 * (z ^ j)))
      by (intros; lra).
    rewrite dot_map_linear. lra.
  - rewrite <- IH.
    rewrite (map_ext _ (fun z => ck * z ^ j + 1 * (z ^ S j * poly c z)))
      by (intros; simpl; lra).
    rewrite dot_map_linear. lra.
Qed.

Lemma dot_poly_0 (p w c : list R) :
  dot (map (poly c) p) w
  = poly_rule (fun k => dot (map (fun z => z ^ k) p) w) c 0.
Proof.
  rewrite <- dot_poly. f_equal. apply map_ext. intros z. simpl. lra.
Qed.

Lemma poly_rule_close (mu nu : nat -> R) (eps : R) (n : nat) (c : list R) :
  (forall k, (k < n)%nat -> Rabs (mu k - nu k) <= eps) ->
  forall j, (j + length c <= n)%nat ->
  Rabs (poly_rule mu c j - poly_rule nu c j) <= eps * norm1 c.
Proof.
  intros H. induction c as [|ck c IH]; intros j Hj; cbn [poly_rule norm1].
  - rewrite Rminus_diag, Rabs_R0. lra.
  - simpl in Hj.
    replace (ck * mu j + poly_rule mu c (S j)
             - (ck * nu j + poly_rule nu c (S j)))
      with (ck * (mu j - nu j)
            + (poly_rule mu c (S j) - poly_rule nu c (S j))) by lra.
    eapply Rle_trans; [apply Rabs_triang|].
    rewrite Rabs_mult.
    specialize (IH (S j) ltac:(lia)). specialize (H j ltac:(lia)).
    pose proof (Rabs_pos ck). pose proof (Rabs_pos (mu j - nu j)). nra.
Qed.

Lemma norm1_nonneg (c : list R) : 0 <= norm1 c.
Proof.
  induction c as [|ck c IH]; simpl; [lra|]. pose proof (Rabs_pos ck). lra.
Qed.

Lemma Rpow_le (x y p : R) : 0 <= p -> 0 <= x <= y -> Rpow x p <= Rpow y p.
Proof.
  intros Hp [Hx Hxy]. unfold Rpow.
  destruct (Req_dec_T x 0) as [->|Hx0].
  - destruct (Req_dec_T y 0); [lra|]. unfold Rpower. left. apply exp_pos.
  - destruct (Req_dec_T y 0); [lra|].
    rewrite !Rabs_right by lra. apply Rle_Rpower_l; lra.
Qed.

(** The values of the integrand [p(2(x-a)/(b-a) - 1)] at the points of
    [[a, b]] are the values of [p] at the nodes. *)
Lemma poly_points (c : list R) (a b : R) :
  a < b ->
  map (fun x => poly c (2 * (x - a) / (b - a) - 1)) (spec_points a b)
  = map (poly c) (gausskronrod_nodes real_arith).
Proof.
  intros Hab. unfold spec_points. rewrite map_map. apply map_ext.
  intros z. f_equal. field. lra.
Qed.

End TableExactness.

Section TableExactnessBounds.

Local Open Scope R_scope.

Lemma above_from_Z (M N P Qd A B : Z) :
  (0 < N)%Z -> (0 < Qd)%Z -> (0 < B)%Z ->
  (A * (N * Qd) < (M * Qd - P * N) * B)%Z ->
  IZR A / IZR B < IZR M / IZR N - IZR P / IZR Qd.
Proof.
  intros HN HQ HB H.
  assert (HN' : 0 < IZR N) by now apply IZR_lt.
  assert (HQ' : 0 < IZR Qd) by now apply IZR_lt.
  assert (HB' : 0 < IZR B) by now apply IZR_lt.
  apply IZR_lt in H. rewrite !mult_IZR, minus_IZR, !mult_IZR in H.
  assert (HNQ : 0 < IZR N * IZR Qd) by nra.
  apply (Rmult_lt_reg_r (IZR B * (IZR N * IZR Qd))); [nra|].
  replace (IZR A / IZR B * (IZR B * (IZR N * IZR Qd)))
    with (IZR A * (IZR N * IZR Qd)) by (field; lra).
  replace ((IZR M / IZR N - IZR P / IZR Qd) * (IZR B * (IZR N * IZR Qd)))
    with ((IZR M * IZR Qd - IZR P * IZR N) * IZR B) by (field; lra).
  exact H.
Qed.

Lemma Rpow_nonneg (x y : R) : 0 <= Rpow x y.
Proof.
  unfold Rpow. destruct (Req_dec_T x 0); [lra|].
  unfold Rpower. left. apply exp_pos.
Qed.

(** The two dot products of the rule for a polynomial in the reference
    variable, against its integral over [[-1, 1]]. *)
Lemma poly_dots (c : list R) :
  ((length c <= 24)%nat ->
   Rabs (dot (map (poly c) (gausskronrod_nodes real_arith))
             (kronrod_weights real_arith) - poly_integral c)
   <= / 100000000000000 * norm1 c) /\
  ((length c <= 14)%nat ->
   Rabs (dot (firstn 7 (map (poly c) (gausskronrod_nodes real_arith)))
             (gauss_weights real_arith) - poly_integral c)
   <= / 100000000000000 * norm1 c).
Proof.
  split; intros Hc.
  - rewrite dot_poly_0. unfold poly_integral.
    apply (poly_rule_close _ _ _ 24); [|simpl; lia].
    intros k Hk. now apply kronrod_moments.
  - rewrite firstn_map, dot_poly_0. unfold poly_integral.
    apply (poly_rule_close _ _ _ 14); [|simpl; lia].
    intros k Hk. now apply gauss_moments.
Qed.

End TableExactnessBounds.

(** *** The script, and the greatest tuple *)

Section Callers.

Lemma integrate_enough (A : Arith) {T : Type} f a b (args : T)
    minintervals limit tol turns :
  1 <= minintervals ->
  (Z.to_nat (Z.max 0 (limit - minintervals)) + 1 <= turns)%nat ->
  exists o, integrate A turns f a b args minintervals limit tol = Some o.
Proof.
  intros Hm Ht. unfold integrate.
  destruct (initial_intervals A f a b args minintervals) as [i0|e] eqn:Hi;
    [|eauto].
  apply initial_intervals_length in Hi.
  apply while_true_enough. rewrite Hi. lia.
Qed.

Lemma integrate_raise_assert (A : Arith) {T : Type} f a b (args : T)
    minintervals limit tol turns e :
  1 <= minintervals ->
  integrate A turns f a b args minintervals limit tol = Some (Raise e) ->
  e = AssertionError.
Proof.
  intros Hm H. unfold integrate in H.
  destruct (initial_intervals A f a b args minintervals) as [i0|e'] eqn:Hi.
  - apply initial_intervals_length in Hi.
    apply while_true_raise in H. destruct H as [[-> _]|H]; [|exact H].
    simpl in Hi. lia.
  - inversion H; subst. apply initial_intervals_raise in Hi.
    destruct Hi as [[_ Hi]|Hi]; [lia | exact Hi].
Qed.

Lemma tuple_lt_irrefl (A : Arith) (key : num A -> R) (x : interval A) :
  ordered_by A key -> comparable_tuple A x -> tuple_lt A x x = false.
Proof.
  intros Hord Hx. destruct (tuple_lt A x x) eqn:E; [|reflexivity].
  pose proof (tuple_lt_asym A key Hord x x Hx Hx E). congruence.
Qed.

Lemma reached_ascending (A : Arith) (key : num A -> R) {T : Type}
    (f : num A -> num A) a b (args : T) minintervals limit tol
    intervals0 intervals :
  ordered_by A key ->
  initial_intervals A f a b args minintervals = Ok intervals0 ->
  (forall l, loop_reaches A (map f) args limit tol intervals0 l ->
             Forall (comparable_tuple A) l) ->
  loop_reaches A (map f) args limit tol intervals0 intervals ->
  ascending A intervals.
Proof.
  intros Hord Hinit Hclean Hreach.
  eapply (loop_reaches_ascending A key Hord); try eassumption.
  unfold initial_intervals in Hinit.
  destruct (linspace A a b (minintervals + 1)); [|discriminate].
  simpl in Hinit.
  eapply (seed_ascending A key Hord); [exact Hinit | | constructor].
  apply Hclean. constructor.
Qed.

Lemma pop_greatest (A : Arith) (key : num A -> R) intervals x rest :
  ordered_by A key -> Forall (comparable_tuple A) intervals ->
  ascending A intervals -> pop A intervals = Ok (x, rest) ->
  Forall (fun y => tuple_lt A x y = false) intervals.
Proof.
  intros Hord Hc Hs Hp. apply pop_spec in Hp. subst intervals.
  apply Forall_app in Hc. destruct Hc as [_ Hx]. apply Forall_inv in Hx.
  unfold ascending in Hs. apply StronglySorted_app_inv in Hs.
  destruct Hs as (_ & _ & H12).
  apply Forall_app. split.
  - eapply Forall_impl; [|exact H12]. intros u Hu.
    now apply Forall_inv in Hu.
  - constructor; [|constructor]. now apply (tuple_lt_irrefl A key).
Qed.

End Callers.

(** *** An estimate that does not compare *)

Section Incomparable.

Variable A : Arith.

Lemma bisect_loop_last (a : list (interval A)) (x : interval A) :
  (forall y, tuple_lt A x y = false) ->
  forall turns lo hi,
  (lo <= hi)%nat -> (hi - lo <= turns)%nat ->
  bisect_loop A turns a x lo hi = hi.
Proof.
  intros Hx. induction turns as [|turns IH]; intros lo hi Hlh Ht.
  - simpl. lia.
  - cbn [bisect_loop]. destruct (Nat.ltb_spec lo hi) as [Hlt|Hge]; [|lia].
    rewrite Hx.
    assert (Hmid : (lo <= (lo + hi) / 2 /\ (lo + hi) / 2 < hi)%nat).
    { split.
      - apply Nat.div_le_lower_bound; lia.
      - apply Nat.Div0.div_lt_upper_bound; lia. }
    apply IH; lia.
Qed.

Lemma insort_last (a : list (interval A)) (x : interval A) :
  (forall y, tuple_lt A x y = false) -> insort A a x = a ++ [x].
Proof.
  intros Hx. unfold insort, bisect_right.
  rewrite (bisect_loop_last a x Hx) by lia.
  now rewrite firstn_all, skipn_all.
Qed.

End Incomparable.

Lemma nan_tuple_not_below (libm_pow : float -> float -> float)
    (e l r i : float) (y : interval (binary64 libm_pow)) :
  PrimFloat.is_nan e = true ->
  tuple_lt (binary64 libm_pow) (e, l, r, i) y = false.
Proof.
  intros He. destruct y as [[[e2 l2] r2] i2]. cbn [tuple_lt eqb ltb binary64].
  rewrite is_nan_spec in He.
  rewrite eqb_spec, ltb_spec.
  destruct (Prim2SF e); try discriminate. reflexivity.
Qed.

(** *** The limit and the result *)

Section Limit.

Variable A : Arith.

Lemma loop_body_limit {T : Type} fv (args : T) limit limit' tol intervals s :
  limit <= limit' ->
  loop_body A fv args limit tol intervals = s ->
  s <> Ok (Return PyFalse) ->
  loop_body A fv args limit' tol intervals = s.
Proof.
  intros Hl H Hs. subst s. destruct intervals as [|x l]; [reflexivity|].
  rewrite !loop_body_nonempty in *.
  destruct (tolerance_test A tol (x :: l)); [reflexivity|].
  destruct (Z.geb_spec (Z.of_nat (length (x :: l))) limit) as [Hge|Hlt];
    [now elim Hs|].
  destruct (Z.geb_spec (Z.of_nat (length (x :: l))) limit') as [Hge'|_];
    [lia | reflexivity].
Qed.

Lemma while_true_limit {T : Type} fv (args : T) limit limit' tol turns o :
  limit <= limit' -> o <> Ok PyFalse ->
  forall intervals,
  while_true A turns fv args limit tol intervals = Some o ->
  while_true A turns fv args limit' tol intervals = Some o.
Proof.
  intros Hl Ho. induction turns as [|turns IH]; intros intervals H;
    [discriminate|].
  cbn [while_true] in *.
  destruct (loop_body A fv args limit tol intervals) as [[r|intervals']|e] eqn:Hb.
  - rewrite (loop_body_limit fv args limit limit' tol intervals _ Hl Hb);
      [exact H|].
    intros E. inversion E; subst. inversion H; subst. now elim Ho.
  - rewrite (loop_body_limit fv args limit limit' tol intervals _ Hl Hb);
      [now apply IH | discriminate].
  - rewrite (loop_body_limit fv args limit limit' tol intervals _ Hl Hb);
      [exact H | discriminate].
Qed.

End Limit.

(** *** Bounds on the integral, in real arithmetic *)

Section Bounds.

Local Open Scope R_scope.

Lemma kronrod_weights_nonneg :
  Forall (fun w => 0 <= w) (kronrod_weights real_arith).
Proof.
  unfold kronrod_weights. cbn [map lit real_arith].
  repeat (constructor; [unfold Q2R, e15; simpl; lra|]). constructor.
Qed.

Lemma kronrod_weights_sum :
  fold_right Rplus 0 (kronrod_weights real_arith) <= 2.
Proof.
  unfold kronrod_weights. cbn [map lit real_arith fold_right].
  unfold Q2R, e15. simpl. lra.
Qed.

Lemma dot_bound (M : R) (values : list R) :
  0 <= M -> Forall (fun v => Rabs v <= M) values ->
  forall w, Forall (fun y => 0 <= y) w ->
  Rabs (dot values w) <= M * fold_right Rplus 0 w.
Proof.
  intros HM Hv. induction Hv as [|v values Hv _ IH]; intros w Hw.
  - simpl. rewrite Rabs_R0.
    assert (0 <= fold_right Rplus 0 w)
      by (induction Hw; simpl; lra).
    nra.
  - destruct Hw as [|y w Hy Hw]; simpl.
    + rewrite Rabs_R0. lra.
    + specialize (IH w Hw).
      eapply Rle_trans; [apply Rabs_triang|].
      rewrite Rabs_mult, (Rabs_right y) by lra. nra.
Qed.

Lemma dot_nonneg (values : list R) :
  Forall (fun v => 0 <= v) values ->
  forall w, Forall (fun y => 0 <= y) w -> 0 <= dot values w.
Proof.
  induction 1 as [|v values Hv _ IH]; intros w Hw; [simpl; lra|].
  destruct Hw as [|y w Hy Hw]; simpl; [lra|].
  specialize (IH w Hw). nra.
Qed.

Lemma rule_integral_bound (f : R -> R) (M l r : R) :
  l < r -> (forall x, l < x < r -> Rabs (f x) <= M) ->
  Rabs (fst (quadrature_rule_spec (map f) l r)) <= M * (r - l).
Proof.
  intros Hlr Hf.
  assert (HM : 0 <= M).
  { pose proof (Hf ((l + r) / 2) ltac:(lra)). pose proof (Rabs_pos (f ((l + r) / 2))).
    lra. }
  unfold quadrature_rule_spec. cbn [fst].
  rewrite Rabs_mult, (Rabs_right ((r - l) / 2)) by lra.
  assert (H : Rabs (dot (map f (spec_points l r)) (kronrod_weights real_arith))
              <= M * 2).
  { eapply Rle_trans.
    - apply (dot_bound M); [exact HM | | apply kronrod_weights_nonneg].
      apply Forall_forall. intros v Hv. apply in_map_iff in Hv.
      destruct Hv as (x & <- & Hx). apply Hf.
      pose proof (spec_points_inside l r Hlr) as Hin.
      rewrite Forall_forall in Hin. now apply Hin.
    - pose proof kronrod_weights_sum. nra. }
  pose proof (Rabs_pos (dot (map f (spec_points l r))
                            (kronrod_weights real_arith))).
  nra.
Qed.

Lemma rule_integral_nonneg (f : R -> R) (l r : R) :
  l < r -> (forall x, l < x < r -> 0 <= f x) ->
  0 <= fst (quadrature_rule_spec (map f) l r).
Proof.
  intros Hlr Hf. unfold quadrature_rule_spec. cbn [fst].
  assert (H : 0 <= dot (map f (spec_points l r)) (kronrod_weights real_arith)).
  { apply dot_nonneg; [|apply kronrod_weights_nonneg].
    apply Forall_forall. intros v Hv. apply in_map_iff in Hv.
    destruct Hv as (x & <- & Hx). apply Hf.
    pose proof (spec_points_inside l r Hlr) as Hin.
    rewrite Forall_forall in Hin. now apply Hin. }
  nra.
Qed.

(** An entry that holds the rule's result on bounds inside [[a, b]]. *)
Lemma entry_rule {T : Type} (f : R -> R) (args : T) (a b : R)
    (x : interval real_arith) :
  rule_entry real_arith (map f) args x ->
  a <= left_of real_arith x /\
  left_of real_arith x < right_of real_arith x /\
  right_of real_arith x <= b ->
  I_of real_arith x
  = fst (quadrature_rule_spec (map f) (left_of real_arith x)
           (right_of real_arith x)).
Proof.
  unfold rule_entry. intros He (_ & Hlr & _).
  rewrite integrate_gausskronrod_real in He by exact Hlr.
  assert (H : quadrature_rule_spec (map f) (left_of real_arith x)
                 (right_of real_arith x)
               = (I_of real_arith x, err_of real_arith x)) by congruence.
  now rewrite H.
Qed.

Lemma total_bound {T : Type} (f : R -> R) (args : T) (M a b : R) intervals :
  (forall x, a < x < b -> Rabs (f x) <= M) ->
  partition_of real_arith a b intervals ->
  Forall (rule_entry real_arith (map f) args) intervals ->
  Rabs (Itotal_of real_arith intervals) <= M * (b - a).
Proof.
  intros Hf Hp He. rewrite <- (partition_width a b intervals Hp).
  apply partition_within in Hp. rewrite Itotal_of_real.
  unfold sum_of_estimates, total_width.
  induction intervals as [|x l IH]; cbn [map fold_right].
  - rewrite Rabs_R0. lra.
  - inversion Hp as [|x' l' Hx Hl]; subst.
    inversion He as [|x' l' Hex Hel]; subst.
    specialize (IH Hl Hel).
    eapply Rle_trans; [apply Rabs_triang|].
    assert (Rabs (I_of real_arith x) <= M * width (bounds real_arith x)).
    { rewrite (entry_rule f args a b x Hex Hx). unfold width, bounds. simpl.
      apply rule_integral_bound; [tauto|]. intros y Hy. apply Hf. lra. }
    nra.
Qed.

Lemma total_nonneg {T : Type} (f : R -> R) (args : T) (a b : R) intervals :
  (forall x, a < x < b -> 0 <= f x) ->
  partition_of real_arith a b intervals ->
  Forall (rule_entry real_arith (map f) args) intervals ->
  0 <= Itotal_of real_arith intervals.
Proof.
  intros Hf Hp He. apply partition_within in Hp. rewrite Itotal_of_real.
  unfold sum_of_estimates.
  induction intervals as [|x l IH]; cbn [map fold_right]; [lra|].
  inversion Hp as [|x' l' Hx Hl]; subst.
  inversion He as [|x' l' Hex Hel]; subst.
  specialize (IH Hl Hel).
  assert (0 <= I_of real_arith x).
  { rewrite (entry_rule f args a b x Hex Hx).
    apply rule_integral_nonneg; [tauto|]. intros y Hy. apply Hf. lra. }
  lra.
Qed.

(** The list of a run of [integrate] that returns a pair. *)
Lemma real_returned_list {T : Type} (f : R -> R) (a b : R) (args : T)
    minintervals limit tol turns v e :
  a < b -> (1 <= minintervals)%Z ->
  integrate real_arith turns f a b args minintervals limit tol
  = Some (Ok (Tuple v e)) ->
  exists intervals,
    partition_of real_arith a b intervals /\
    Forall (rule_entry real_arith (map f) args) intervals /\
    v = Itotal_of real_arith intervals /\
    e = total_err real_arith intervals.
Proof.
  intros Hab Hm H. unfold integrate in H.
  destruct (initial_partition f a b args minintervals Hab Hm)
    as (i0 & Hi & _ & Hp).
  rewrite Hi in H. apply while_true_reaches in H.
  destruct H as (l & Hr & Hl).
  apply loop_body_tuple in Hl. destruct Hl as (_ & _ & -> & ->).
  exists l. repeat split.
  - eapply loop_reaches_partition; eassumption.
  - eapply loop_reaches_entries; [exact Hr|]. eapply initial_entries; exact Hi.
Qed.

End Bounds.

(** *** Evaluation points in binary64 *)

Lemma float_ltb_not_eqb (x y : float) :
  PrimFloat.ltb x y = true -> PrimFloat.eqb x y = false.
Proof.
  rewrite ltb_spec, eqb_spec. unfold SFltb, SFeqb.
  destruct (SFcompare (Prim2SF x) (Prim2SF y)) as [[]|]; auto; discriminate.
Qed.

(** ** Further properties of the code

    Properties read off the code, beyond those of the specification: the
    exceptions, the number of intervals and what a returned pair is, for every
    arithmetic; what binary64 adds; the rule as a map of the integrand and
    the tables, in real arithmetic; the script under [__main__]. *)

(** X1.  The exceptions of [integrate], for every arithmetic and every
    integrand that, at each call, returns a float or raises.  A call of
    [integrate] ends with an exception of the integrand only if the
    integrand raised it at some point, and only with [minintervals >= 1].
    Apart from these it raises nothing but: [ValueError], from
    [np.linspace], exactly when [minintervals < -1]; [ZeroDivisionError],
    from [err/Itotal] with the integer [0] that [sum] gives for no
    interval, exactly when [minintervals] is [0] or [-1];
    [AssertionError], from the rule's [assert b > a], only with
    [minintervals >= 1].  [intervals.pop()] never raises [IndexError].
    With an integrand that returns at every point, the call does what
    [integrate] of the embedding with a float-valued integrand does.  With
    [lambda x: 1.0/x] on [[-1, 1]] and the default options the seventh
    evaluation point is [0.0] and the call raises the
    [ZeroDivisionError] of the integrand. *)
Theorem integrate_exceptions (A : Arith) (E T : Type)
    (f : num A -> Raising.answer E (num A))
    (a b : num A) (args : T) (minintervals limit : Z) (tol : num A) :
  (forall turns e,
     Raising.integrate A E turns f a b args minintervals limit tol
     = Some (Raising.Propagates e) ->
     1 <= minintervals /\ exists x, f x = Raising.Raises e) /\
  (forall turns e,
     Raising.integrate A E turns f a b args minintervals limit tol
     = Some (Raising.Fails e) ->
     (e = ValueError /\ minintervals < -1) \/
     (e = ZeroDivisionError /\ -1 <= minintervals <= 0) \/
     (e = AssertionError /\ 1 <= minintervals)) /\
  (minintervals < -1 ->
   forall turns,
     Raising.integrate A E turns f a b args minintervals limit tol
     = Some (Raising.Fails ValueError)) /\
  (-1 <= minintervals <= 0 ->
   forall turns,
     Raising.integrate A E (S turns) f a b args minintervals limit tol
     = Some (Raising.Fails ZeroDivisionError)) /\
  (forall g : num A -> num A,
     (forall x, f x = Raising.Returns (g x)) ->
     forall turns,
       Raising.integrate A E turns f a b args minintervals limit tol
       = option_map Raising.lift
           (integrate A turns g a b args minintervals limit tol)) /\
  (forall turns,
     Raising.integrate (binary64 pow_exact) exn turns reciprocal_raising
       (-1)%float 1%float tt default_minintervals default_limit
       (default_tol (binary64 pow_exact))
     = Some (Raising.Propagates ZeroDivisionError)).
Proof.
  assert (Hneg : minintervals < -1 ->
            forall turns,
              Raising.integrate A E turns f a b args minintervals limit tol
              = Some (Raising.Fails ValueError)).
  { intros Hm turns. unfold Raising.integrate, Raising.initial_intervals.
    rewrite linspace_negative by lia. reflexivity. }
  assert (Hnone : -1 <= minintervals <= 0 ->
            forall turns,
              Raising.integrate A E (S turns) f a b args minintervals limit tol
              = Some (Raising.Fails ZeroDivisionError)).
  { intros Hm turns. unfold Raising.integrate.
    rewrite raising_initial_none by exact Hm. reflexivity. }
  assert (Hsim := fun turns =>
            integrate_follows A E f (Raising.returning (lit A 0) f)
              (returning_spec A f (lit A 0))
              (T := T) a b args minintervals limit tol turns).
  split; [|split; [|split; [exact Hneg|split; [exact Hnone|split]]]].
  - intros turns e H. split.
    + assert (Hm : minintervals < -1 \/ -1 <= minintervals <= 0 \/
                   1 <= minintervals) by lia.
      destruct Hm as [Hm|[Hm|Hm]]; [| |exact Hm].
      * rewrite (Hneg Hm) in H. discriminate.
      * unfold Raising.integrate in H.
        rewrite raising_initial_none in H by exact Hm.
        destruct turns; discriminate.
    + destruct (Hsim turns) as [(e' & x & Hx & Hr)|Hr]; rewrite Hr in H.
      * inversion H; subst. now exists x.
      * destruct (integrate A turns (Raising.returning (lit A 0) f) a b args
                    minintervals limit tol) as [[r|e0]|]; discriminate.
  - intros turns e H.
    destruct (Hsim turns) as [(e' & x & Hx & Hr)|Hr]; rewrite Hr in H;
      [discriminate|].
    apply (integrate_raise_cases A (Raising.returning (lit A 0) f) a b args
             minintervals limit tol turns).
    destruct (integrate A turns (Raising.returning (lit A 0) f) a b args
                minintervals limit tol) as [[r|e0]|]; try discriminate.
    simpl in H. now inversion H.
  - intros g Hg turns.
    destruct (integrate_follows A E f g
                (fun x v Hx => ltac:(rewrite Hg in Hx; now inversion Hx))
                (T := T) a b args minintervals limit tol turns)
      as [(e' & x & Hx & _)|Hr]; [|exact Hr].
    rewrite Hg in Hx. discriminate.
  - intros turns. reflexivity.
Qed.

(** X3.  The number of intervals, for every arithmetic.  The seeded list
    holds [max(0, minintervals)] intervals; no list the loop reaches holds
    fewer, or more than [max(minintervals, limit)]; and when a pass returns
    [False], the list holds exactly [max(minintervals, limit)] intervals. *)
Theorem interval_count (A : Arith) (T : Type) (f : num A -> num A)
    (a b : num A) (args : T) (minintervals limit : Z) (tol : num A)
    (intervals0 intervals : list (interval A)) :
  initial_intervals A f a b args minintervals = Ok intervals0 ->
  loop_reaches A (map f) args limit tol intervals0 intervals ->
  Z.of_nat (length intervals0) = Z.max 0 minintervals /\
  Z.max 0 minintervals <= Z.of_nat (length intervals)
    <= Z.max (Z.max 0 minintervals) limit /\
  (loop_body A (map f) args limit tol intervals = Ok (Return PyFalse) ->
   Z.of_nat (length intervals) = Z.max minintervals limit).
Proof.
  intros Hi Hr. apply initial_intervals_length in Hi.
  assert (H0 : Z.of_nat (length intervals0) = Z.max 0 minintervals) by lia.
  apply loop_reaches_length in Hr.
  split; [exact H0|]. split.
  - destruct Hr as [->|(_ & Hlt & Hle)]; lia.
  - intros Hb. apply loop_body_false in Hb. destruct Hb as (Hne & _ & Hge).
    assert (length intervals <> 0)%nat by (now destruct intervals).
    destruct Hr as [->|(_ & Hlt & Hle)]; lia.
Qed.

Lemma interval_count_witness :
  exists intervals0,
    initial_intervals real_arith (fun x => x) 0%R 1%R tt 2 = Ok intervals0 /\
    Z.of_nat (length intervals0) = Z.max 0 2.
Proof.
  destruct (initial_partition (fun x => x) 0%R 1%R tt 2) as (i0 & Hinit & _);
    [lra | lia |].
  exists i0. split; [exact Hinit|].
  exact (proj1 (interval_count real_arith unit (fun x => x) 0%R 1%R tt 2 200
                  (default_tol real_arith) i0 i0 Hinit
                  (reaches_first _ _ _ _ _ _))).
Defined.

(** X4.  What a returned pair is, for every arithmetic: when [integrate]
    returns [(v, e)] there is a list of intervals that is, in some order, a
    chain laid end to end from the first sample of [np.linspace] to [b],
    each entry [(err, left, right, I)] of which holds what
    [integrate_gausskronrod] returns on [[left, right]], and of which [v] is
    the sum of the [I], [e] the root of the sum of the [err ** 2], and for
    which [abs(e/v) < tol] holds. *)
Theorem integrate_postcondition (A : Arith) (T : Type) (f : num A -> num A)
    (a b : num A) (args : T) (minintervals limit : Z) (tol : num A)
    (turns : nat) (v e : num A) :
  integrate A turns f a b args minintervals limit tol = Some (Ok (Tuple v e)) ->
  exists first rest intervals,
    linspace A a b (minintervals + 1) = Ok (first :: rest) /\
    partition_of A first b intervals /\
    Forall (rule_entry A (map f) args) intervals /\
    v = Itotal_of A intervals /\
    e = total_err A intervals /\
    ltb A (absf A (div A e v)) tol = true.
Proof.
  unfold integrate. intros H.
  destruct (initial_intervals A f a b args minintervals) as [i0|e'] eqn:Hi;
    [|discriminate].
  apply while_true_reaches in H. destruct H as (l & Hr & Hl).
  apply loop_body_tuple in Hl. destruct Hl as (Hne & Ht & -> & ->).
  assert (Hm : 1 <= minintervals).
  { pose proof (initial_intervals_length A f a b args minintervals i0 Hi) as Hlen.
    assert (H0 : i0 <> [])
      by (destruct (loop_reaches_length A _ _ _ _ _ _ Hr) as [->|[H0 _]];
          assumption).
    destruct i0; [now elim H0 | simpl in Hlen; lia]. }
  destruct (initial_chain A f a b args minintervals i0 Hm Hi)
    as (first & rest & Hlin & Hp).
  exists first, rest, l. repeat split; try assumption.
  - eapply loop_reaches_partition; eassumption.
  - eapply loop_reaches_entries; [exact Hr|]. eapply initial_entries; exact Hi.
Qed.

Lemma integrate_postcondition_witness :
  exists v e first rest intervals,
    integrate (binary64 pow_exact) 1 (fun x => x) 0%float 1%float tt 1 200
              (default_tol (binary64 pow_exact)) = Some (Ok (Tuple v e)) /\
    linspace (binary64 pow_exact) 0%float 1%float (1 + 1) = Ok (first :: rest) /\
    partition_of (binary64 pow_exact) first 1%float intervals /\
    v = Itotal_of (binary64 pow_exact) intervals /\
    e = total_err (binary64 pow_exact) intervals.
Proof.
  assert (H : exists v e,
             integrate (binary64 pow_exact) 1 (fun x => x) 0%float 1%float tt
                       1 200 (default_tol (binary64 pow_exact))
             = Some (Ok (Tuple v e)))
    by (vm_compute; eexists; eexists; reflexivity).
  destruct H as (v & e & H).
  destruct (integrate_postcondition (binary64 pow_exact) unit (fun x => x)
              0%float 1%float tt 1 200 (default_tol (binary64 pow_exact))
              1 v e H)
    as (first & rest & intervals & Hl & Hp & _ & Hv & He & _).
  exists v, e, first, rest, intervals. auto.
Defined.

(** X5.  A pair returned in binary64, for every [pow] of the C library:
    when [integrate] returns [(v, e)], then [abs(e/v) < tol] holds, [tol] is
    above zero (so no call with [tol <= 0] or [tol] NaN returns a pair), the
    error estimate [e] is finite and the value [v] is not NaN.  And a pass
    over a list one of whose [I] entries is NaN does not return a pair: the
    sum of the [I] is NaN, and so is [err/Itotal]. *)
Theorem returned_pair_binary64 (libm_pow : float -> float -> float)
    (T : Type) (args : T) (limit : Z) (tol : float) :
  (forall (f : float -> float) (a b : float) (minintervals : Z) (turns : nat)
          (v e : float),
     integrate (binary64 libm_pow) turns f a b args minintervals limit tol
       = Some (Ok (Tuple v e)) ->
     PrimFloat.ltb (PrimFloat.abs (PrimFloat.div e v)) tol = true /\
     PrimFloat.ltb PrimFloat.zero tol = true /\
     PrimFloat.is_finite e = true /\
     PrimFloat.is_nan v = false) /\
  (forall (fv : list float -> list float)
          (intervals : list (interval (binary64 libm_pow)))
          (x : interval (binary64 libm_pow)),
     In x intervals ->
     PrimFloat.is_nan (I_of (binary64 libm_pow) x) = true ->
     tolerance_test (binary64 libm_pow) tol intervals = false /\
     forall v e,
       loop_body (binary64 libm_pow) fv args limit tol intervals
       <> Ok (Return (Tuple v e))).
Proof.
  split.
  - intros f a b minintervals turns v e H. unfold integrate in H.
    destruct (initial_intervals (binary64 libm_pow) f a b args minintervals)
      as [intervals0|]; [|discriminate].
    apply while_true_tuple in H. destruct H as (intervals & H).
    apply loop_body_tuple in H. destruct H as (_ & Ht & -> & ->).
    unfold tolerance_test in Ht. cbn [ltb absf div binary64] in Ht.
    split; [exact Ht|]. now apply float_below_tol.
  - intros fv intervals x Hin Hx.
    assert (Ht : tolerance_test (binary64 libm_pow) tol intervals = false).
    { unfold tolerance_test. cbn [ltb absf div binary64].
      apply float_div_by_nan_not_below.
      unfold Itotal_of, py_sum. cbn [add lit binary64 num].
      apply (fold_add_nan_in _ _ (I_of (binary64 libm_pow) x)); [|exact Hx].
      now apply in_map. }
    split; [exact Ht|].
    intros v e H. apply loop_body_tuple in H. destruct H as (_ & H & _).
    congruence.
Qed.

(** X6.  The assertion [b > a] inside the loop.  For every arithmetic: a
    pass that comes to bisect an interval [(left, right)] whose midpoint
    [left + (right-left)/2] is not above [left], or not below [right],
    raises [AssertionError].  In real arithmetic the midpoint of an interval
    with [left < right] lies strictly between the two.  In binary64 it need
    not: [1 < 1 + 2^-52], and the midpoint of the two is [1].  So a call with
    [a < b] can raise [AssertionError]: with the zero integrand on
    [[0, 1]] and the default options no pass converges, the interval next
    to [1] is halved in every pass, and the 54th pass raises. *)
Theorem bisection_assertion :
  (forall (A : Arith) (T : Type) fv (args : T) limit tol rest e l r i,
     tolerance_test A tol (rest ++ [(e, l, r, i)]) = false ->
     Z.of_nat (length (rest ++ [(e, l, r, i)])) < limit ->
     ltb A l (midpoint A l r) = false \/ ltb A (midpoint A l r) r = false ->
     loop_body A fv args limit tol (rest ++ [(e, l, r, i)])
     = Raise AssertionError) /\
  (forall l r : R,
     (l < r)%R ->
     ltb real_arith l (midpoint real_arith l r) = true /\
     ltb real_arith (midpoint real_arith l r) r = true) /\
  (forall libm_pow,
     ltb (binary64 libm_pow) 1%float 0x1.0000000000001p+0%float = true /\
     midpoint (binary64 libm_pow) 1%float 0x1.0000000000001p+0%float
     = 1%float /\
     ltb (binary64 libm_pow) 1%float
         (midpoint (binary64 libm_pow) 1%float 0x1.0000000000001p+0%float)
     = false) /\
  (ltb (binary64 pow_exact) 0%float 1%float = true /\
   integrate (binary64 pow_exact) 53 (fun _ => PrimFloat.zero) 0%float 1%float
             tt default_minintervals default_limit
             (default_tol (binary64 pow_exact)) = None /\
   forall turns, (54 <= turns)%nat ->
     integrate (binary64 pow_exact) turns (fun _ => PrimFloat.zero)
               0%float 1%float tt default_minintervals default_limit
               (default_tol (binary64 pow_exact))
     = Some (Raise AssertionError)).
Proof.
  split; [|split; [|split]].
  - intros A T fv args limit tol rest e l r i Ht Hlen Hm.
    destruct (rest ++ [(e, l, r, i)]) as [|x l0] eqn:E;
      [now destruct rest|].
    rewrite loop_body_nonempty, Ht.
    destruct (Z.geb_spec (Z.of_nat (length (x :: l0))) limit) as [Hge|_];
      [lia|].
    rewrite <- E, bisect_worst_assert by exact Hm. reflexivity.
  - intros l r H. apply midpoint_real in H. real_ops.
    split; apply Rltb_true; tauto.
  - intros libm_pow. repeat split; vm_compute; reflexivity.
  - split; [reflexivity|]. split; [vm_compute; reflexivity|].
    intros turns Ht. unfold integrate.
    destruct (initial_intervals (binary64 pow_exact) (fun _ => PrimFloat.zero)
                0%float 1%float tt default_minintervals) as [i0|e0] eqn:Hi.
    + apply (while_true_more (binary64 pow_exact) _ _ _ _ 54%nat); [|exact Ht].
      revert Hi. vm_compute. intros Hi. inversion Hi; subst. reflexivity.
    + revert Hi. vm_compute. discriminate.
Qed.

(** X7.  In real arithmetic the loop raises nothing: with [a < b] and
    [minintervals >= 1], [integrate] returns a pair or [False] within
    [max(0, limit - minintervals) + 1] passes, whatever the integrand, the
    limit and the tolerance are.  (The halves of an interval with
    [left < right] pass the assertion, and the list is never empty.) *)
Theorem real_integrate_returns (T : Type) (f : R -> R) (a b : R) (args : T)
    (minintervals limit : Z) (tol : R) (turns : nat) :
  (a < b)%R -> 1 <= minintervals ->
  (Z.to_nat (Z.max 0 (limit - minintervals)) + 1 <= turns)%nat ->
  exists r,
    integrate real_arith turns f a b args minintervals limit tol = Some (Ok r).
Proof.
  intros Hab Hm Ht. unfold integrate.
  destruct (initial_partition f a b args minintervals Hab Hm)
    as (i0 & Hi & _ & _).
  rewrite Hi.
  pose proof (initial_intervals_length real_arith f a b args minintervals i0 Hi)
    as Hlen.
  destruct (while_true_enough real_arith (map f) args limit tol turns i0)
    as [[r|e] Hr]; [rewrite Hlen; lia | eauto |].
  exfalso. apply while_true_reaches in Hr. destruct Hr as (l & Hr & Hl).
  destruct (real_loop_body_ok (map f) args limit tol l) as [s Hs].
  - destruct (loop_reaches_length real_arith _ _ _ _ _ _ Hr) as [->|(_ & H & _)];
      intros ->; simpl in *; lia.
  - eapply loop_reaches_entries; [exact Hr|]. eapply initial_entries; exact Hi.
  - congruence.
Qed.

Lemma real_integrate_returns_witness :
  exists r,
    integrate real_arith 200 (fun x => x) 0%R 1%R tt 1 200
              (default_tol real_arith) = Some (Ok r).
Proof.
  apply (real_integrate_returns unit (fun x => x) 0%R 1%R tt 1 200
           (default_tol real_arith) 200); [lra | lia | lia].
Defined.

(** X8.  Where the integrand is evaluated, for an integrand that returns
    floats.  In real arithmetic it is evaluated strictly inside [[a, b]]
    only: with [a < b], every one of the fifteen points of
    [integrate_gausskronrod] lies strictly between [a] and [b], and two
    integrands that take the same values strictly inside the interval give
    the same result, from [integrate_gausskronrod] and, with
    [minintervals >= 1], from [integrate], whatever they do at [a] and [b]
    and outside.  In binary64 this does not hold: on [[1, 1 + 2^-51]] the
    points round onto [a] and [b], both are among the evaluation points, and
    the integrand that is [1] at [b] and [0] elsewhere does not give the
    result of the zero integrand; a call of [integrate] on [[0, 1]] with
    the default options comes to such intervals, and returns a pair for the
    integrand that is [1] at [1] and [0] elsewhere, where it raises
    [AssertionError] for the zero integrand. *)
Theorem integrand_inside_only :
  (forall (T : Type) (f g : R -> R) (a b : R) (args : T)
          (minintervals limit : Z) (tol : R),
     (a < b)%R -> 1 <= minintervals ->
     (forall x : R, (a < x < b)%R -> f x = g x) ->
     Forall (fun x => (a < x < b)%R)
       (map (fun z => add real_arith
                        (mul real_arith (lit real_arith (1 # 2))
                           (add real_arith b a))
                        (mul real_arith z
                           (mul real_arith (lit real_arith (1 # 2))
                              (sub real_arith b a))))
            (gausskronrod_nodes real_arith)) /\
     integrate_gausskronrod real_arith (map f) a b args
     = integrate_gausskronrod real_arith (map g) a b args /\
     forall turns,
       integrate real_arith turns f a b args minintervals limit tol
       = integrate real_arith turns g a b args minintervals limit tol) /\
  (let A := binary64 pow_exact in
   let a := 1%float in
   let b := 0x1.0000000000002p+0%float in
   let zi :=
     map (fun z => add A (mul A (lit A (1 # 2)) (add A b a))
                         (mul A z (mul A (lit A (1 # 2)) (sub A b a))))
         (gausskronrod_nodes A) in
   ltb A a b = true /\
   In a zi /\ In b zi /\
   (forall x : float,
      ltb A a x = true -> ltb A x b = true ->
      indicator b x = PrimFloat.zero) /\
   integrate_gausskronrod A (map (fun _ => PrimFloat.zero)) a b tt
   = Ok (PrimFloat.zero, PrimFloat.zero) /\
   (exists v e : float,
      integrate_gausskronrod A (map (indicator b)) a b tt = Ok (v, e) /\
      PrimFloat.ltb 0 v = true)) /\
  (let A := binary64 pow_exact in
   (forall x : float,
      ltb A 0%float x = true -> ltb A x 1%float = true ->
      indicator 1%float x = PrimFloat.zero) /\
   integrate A 54 (fun _ => PrimFloat.zero) 0%float 1%float tt
     default_minintervals default_limit (default_tol A)
   = Some (Raise AssertionError) /\
   exists v e : float,
     integrate A 54 (indicator 1%float) 0%float 1%float tt
       default_minintervals default_limit (default_tol A)
     = Some (Ok (Tuple v e))).
Proof.
  split; [|split].
  - intros T f g a b args minintervals limit tol Hab Hm Hfg. split; [|split].
    + rewrite eval_points_real. now apply spec_points_inside.
    + apply (rule_local f g a b a b args);
        [apply Rle_refl | apply Rle_refl | exact Hfg].
    + intros turns. unfold integrate.
      rewrite <- (initial_local f g a b args minintervals Hab Hm Hfg).
      destruct (initial_partition f a b args minintervals Hab Hm)
        as (i0 & Hi & _ & Hp).
      rewrite Hi. now apply (while_true_local f g a b).
  - cbv zeta. split; [vm_compute; reflexivity|].
    split; [right; left; vm_compute; reflexivity|].
    split; [left; vm_compute; reflexivity|].
    split; [intros x _ Hx; unfold indicator;
            now rewrite (float_ltb_not_eqb _ _ Hx)|].
    split; [vm_compute; reflexivity|].
    destruct (integrate_gausskronrod (binary64 pow_exact)
                (map (indicator 0x1.0000000000002p+0%float)) 1%float
                0x1.0000000000002p+0%float tt) as [[v e]|] eqn:H;
      [|vm_compute in H; discriminate].
    exists v, e. split; [reflexivity|].
    vm_compute in H. inversion H; subst. vm_compute. reflexivity.
  - cbv zeta.
    split; [intros x _ Hx; unfold indicator;
            now rewrite (float_ltb_not_eqb _ _ Hx)|].
    split; [vm_compute; reflexivity|].
    destruct (integrate (binary64 pow_exact) 54 (indicator 1%float) 0%float
                1%float tt default_minintervals default_limit
                (default_tol (binary64 pow_exact)))
      as [[[v e|]|]|] eqn:H; try (vm_compute in H; discriminate).
    now exists v, e.
Qed.

Lemma integrand_inside_only_witness :
  integrate_gausskronrod real_arith (map (fun x => x)) 0%R 1%R tt
  = integrate_gausskronrod real_arith
      (map (fun x => if Rle_dec x 0 then 5%R else x)) 0%R 1%R tt.
Proof.
  apply (proj1 integrand_inside_only unit (fun x => x)
           (fun x => if Rle_dec x 0 then 5%R else x) 0%R 1%R tt 1 200
           (default_tol real_arith)); [lra | lia |].
  intros x Hx. destruct (Rle_dec x 0); [lra | reflexivity].
Defined.

(** X9.  The change of variable of the docstring,
    [x = (b-a)/2 (z+1) + a], holds of the rule itself in real arithmetic:
    for [a < b], what [integrate_gausskronrod] returns on [[a, b]] is
    [(b-a)/2] times what it returns on [[-1, 1]] for the integrand
    [z |-> f((b-a)/2 (z+1) + a)], the integral and the error estimate
    alike; on [[-1, 1]] the evaluation points are the nodes of the table. *)
Theorem rule_change_of_variable (T : Type) (f : R -> R) (a b : R) (args : T) :
  (a < b)%R ->
  spec_points (-1) 1 = gausskronrod_nodes real_arith /\
  exists I0 E0 : R,
    integrate_gausskronrod real_arith
      (map (fun z => f ((b - a) / 2 * (z + 1) + a)%R)) (-1)%R 1%R args
    = Ok (I0, E0) /\
    integrate_gausskronrod real_arith (map f) a b args
    = Ok ((b - a) / 2 * I0, (b - a) / 2 * E0)%R.
Proof.
  intros Hab. split; [apply spec_points_reference|].
  rewrite !integrate_gausskronrod_real by lra.
  eexists. eexists. split; [reflexivity|].
  unfold quadrature_rule_spec.
  rewrite (spec_points_affine a b), map_map.
  f_equal. f_equal; field.
Qed.

Lemma rule_change_of_variable_witness :
  exists I0 E0 : R,
    integrate_gausskronrod real_arith
      (map (fun z => ((3 - 1) / 2 * (z + 1) + 1)%R)) (-1)%R 1%R tt
    = Ok (I0, E0) /\
    integrate_gausskronrod real_arith (map (fun x => x)) 1%R 3%R tt
    = Ok ((3 - 1) / 2 * I0, (3 - 1) / 2 * E0)%R.
Proof.
  apply (rule_change_of_variable unit (fun x => x) 1%R 3%R tt). lra.
Defined.

(** X10.  In real arithmetic the integral estimate of the rule is linear in
    the integrand, and the error estimate is homogeneous of degree [1.5]:
    for [a < b], the integrand [alpha*f + beta*g] gives the integral
    [alpha*If + beta*Ig], and the integrand [alpha*f] gives the error
    estimate [|alpha|**1.5 * Ef].  For [alpha > 0] that factor is
    [alpha * sqrt(alpha)]: the ratio [err/I] that [integrate] tests against
    [tol] changes by [sqrt(alpha)] when the integrand is scaled by
    [alpha]. *)
Theorem rule_linear_homogeneous (T : Type) (f g : R -> R) (alpha beta a b : R)
    (args : T) :
  (a < b)%R ->
  exists If Ef Ig Eg E : R,
    integrate_gausskronrod real_arith (map f) a b args = Ok (If, Ef) /\
    integrate_gausskronrod real_arith (map g) a b args = Ok (Ig, Eg) /\
    integrate_gausskronrod real_arith
      (map (fun x => alpha * f x + beta * g x)%R) a b args
    = Ok (alpha * If + beta * Ig, E)%R /\
    integrate_gausskronrod real_arith (map (fun x => alpha * f x)%R) a b args
    = Ok (alpha * If, Rpow alpha (3 / 2) * Ef)%R /\
    Rpow alpha (3 / 2) = Rpow (Rabs alpha) (3 / 2) /\
    ((0 < alpha)%R -> Rpow alpha (3 / 2) = (alpha * R_sqrt.sqrt alpha)%R).
Proof.
  intros Hab. rewrite !integrate_gausskronrod_real by exact Hab.
  exists (fst (quadrature_rule_spec (map f) a b)),
         (snd (quadrature_rule_spec (map f) a b)),
         (fst (quadrature_rule_spec (map g) a b)),
         (snd (quadrature_rule_spec (map g) a b)),
         (snd (quadrature_rule_spec
                 (map (fun x => alpha * f x + beta * g x)%R) a b)).
  rewrite <- !surjective_pairing.
  split; [reflexivity|]. split; [reflexivity|]. split; [|split; [|split]].
  - unfold quadrature_rule_spec. cbn [fst snd].
    rewrite dot_map_linear. f_equal. f_equal. lra.
  - now rewrite rule_scale.
  - symmetry. apply Rpow_abs.
  - apply Rpow_three_halves.
Qed.

Lemma rule_linear_homogeneous_witness :
  exists If Ef Ig Eg E : R,
    integrate_gausskronrod real_arith (map (fun x => x)) 0%R 1%R tt
    = Ok (If, Ef) /\
    integrate_gausskronrod real_arith (map (fun x => x * x)%R) 0%R 1%R tt
    = Ok (Ig, Eg) /\
    integrate_gausskronrod real_arith
      (map (fun x => 4 * x + 3 * (x * x))%R) 0%R 1%R tt
    = Ok (4 * If + 3 * Ig, E)%R /\
    integrate_gausskronrod real_arith (map (fun x => 4 * x)%R) 0%R 1%R tt
    = Ok (4 * If, Rpow 4 (3 / 2) * Ef)%R.
Proof.
  destruct (rule_linear_homogeneous unit (fun x => x) (fun x => x * x)%R
              4%R 3%R 0%R 1%R tt)
    as (If & Ef & Ig & Eg & E & H1 & H2 & H3 & H4 & _); [lra|].
  exists If, Ef, Ig, Eg, E. auto.
Defined.

(** X11.  The rule is symmetric about the middle of the interval, in real
    arithmetic: the nodes come in pairs [z], [-z] of one weight, so for
    [a < b] the integrand [x |-> f(a+b-x)] gives the same integral and the
    same error estimate as [f]; and an integrand that is odd about the
    middle, [f(a+b-x) = -f(x)], gives the integral [0] with the error
    estimate [0]. *)
Theorem rule_reflection (T : Type) (f : R -> R) (a b : R) (args : T) :
  (a < b)%R ->
  integrate_gausskronrod real_arith (map (fun x => f (a + b - x)%R)) a b args
  = integrate_gausskronrod real_arith (map f) a b args /\
  ((forall x : R, f (a + b - x)%R = (- f x)%R) ->
   integrate_gausskronrod real_arith (map f) a b args = Ok (0%R, 0%R)).
Proof.
  intros Hab. rewrite !integrate_gausskronrod_real by exact Hab. split.
  - now rewrite rule_reflect.
  - intros Hodd. destruct (rule_odd f a b Hodd) as [HK HG].
    unfold quadrature_rule_spec. rewrite HK, HG.
    f_equal. f_equal; [lra|].
    replace (200 * Rabs (0 - 0))%R with 0%R
      by (rewrite Rminus_diag, Rabs_R0; lra).
    rewrite Rpow_zero. lra.
Qed.

Lemma rule_reflection_witness :
  integrate_gausskronrod real_arith (map (fun x => (2 * x - 1)%R)) 0%R 1%R tt
  = Ok (0%R, 0%R).
Proof.
  apply (rule_reflection unit (fun x => (2 * x - 1)%R) 0%R 1%R tt); [lra|].
  intros x. lra.
Defined.

(** X12.  The tables are those of the Gauss-Kronrod pair (7, 15), to the
    fifteen decimal places they are written with.  In real arithmetic, for
    [a < b] and a polynomial [p] of degree at most [23] with coefficients
    [c], the integral that [integrate_gausskronrod] returns for the
    integrand [p(2(x-a)/(b-a) - 1)] is the exact one, [(b-a)/2] times the
    integral of [p] over [[-1, 1]], to within [10^-14 (b-a)/2] times the
    sum of the [|c_k|]; for a polynomial of degree at most [13], which the
    seven-point rule integrates as well, the error estimate is at most
    [(b-a)/2 (4 10^-12 sum |c_k|)^1.5].  Degree [24] is not integrated
    exactly: for [x^24] on [[-1, 1]] the integral returned exceeds [2/25] by
    more than [5 10^-9]. *)
Theorem rule_exact_on_polynomials :
  (forall (T : Type) (c : list R) (a b : R) (args : T),
     (a < b)%R -> (length c <= 24)%nat ->
     exists I E : R,
       integrate_gausskronrod real_arith
         (map (fun x => poly c (2 * (x - a) / (b - a) - 1)%R)) a b args
       = Ok (I, E) /\
       (Rabs (I - (b - a) / 2 * poly_integral c)
        <= (b - a) / 2 * (/ 100000000000000 * norm1 c))%R /\
       ((length c <= 14)%nat ->
        (0 <= E
         <= (b - a) / 2 * Rpow (/ 250000000000 * norm1 c) (3 / 2))%R)) /\
  (exists I E : R,
     integrate_gausskronrod real_arith (map (fun x => x ^ 24)%R) (-1)%R 1%R tt
     = Ok (I, E) /\
     (5 / 1000000000 < I - 2 / 25)%R).
Proof.
  split.
  - intros T c a b args Hab Hc.
    rewrite integrate_gausskronrod_real by exact Hab.
    eexists. eexists. split; [reflexivity|].
    rewrite (poly_points c a b Hab).
    destruct (poly_dots c) as [HK HG]. specialize (HK Hc).
    set (K := dot (map (poly c) (gausskronrod_nodes real_arith))
                  (kronrod_weights real_arith)) in *.
    set (G := dot (firstn 7 (map (poly c) (gausskronrod_nodes real_arith)))
                  (gauss_weights real_arith)) in *.
    assert (Hh : (0 < (b - a) / 2)%R) by lra.
    split.
    + replace (K * ((b - a) / 2) - (b - a) / 2 * poly_integral c)%R
        with ((b - a) / 2 * (K - poly_integral c))%R by lra.
      rewrite Rabs_mult, (Rabs_right ((b - a) / 2)) by lra.
      apply Rmult_le_compat_l; [lra | exact HK].
    + intros Hc'. specialize (HG Hc').
      pose proof (Rpow_nonneg (200 * Rabs (G - K)) (3 / 2)) as H0.
      assert (Hle : (Rpow (200 * Rabs (G - K)) (3 / 2)
                     <= Rpow (/ 250000000000 * norm1 c) (3 / 2))%R).
      { apply Rpow_le; [lra|]. pose proof (Rabs_pos (G - K)). split; [lra|].
        replace (G - K)%R
          with ((G - poly_integral c) + - (K - poly_integral c))%R by lra.
        pose proof (Rabs_triang (G - poly_integral c) (- (K - poly_integral c)))
          as Ht.
        rewrite Rabs_Ropp in Ht. lra. }
      split; [nra|]. rewrite Rmult_comm. apply Rmult_le_compat_l; [lra | exact Hle].
  - rewrite integrate_gausskronrod_real by lra.
    eexists. eexists. split; [reflexivity|].
    rewrite spec_points_reference.
    unfold gausskronrod_nodes, kronrod_weights. cbn [lit real_arith].
    rewrite dot_scaled.
    change 1000000000000000%R with (IZR 1000000000000000). rewrite pow_IZR.
    replace ((1 - -1) / 2)%R with 1%R by lra. rewrite Rmult_1_r.
    apply (above_from_Z _ _ 2 25 5 1000000000); vm_compute; reflexivity.
Qed.

Lemma rule_exact_on_polynomials_witness :
  exists I E : R,
    integrate_gausskronrod real_arith
      (map (fun x => poly [1; 0; 3] (2 * (x - 0) / (2 - 0) - 1))%R) 0%R 2%R tt
    = Ok (I, E) /\
    (Rabs (I - (2 - 0) / 2 * poly_integral [1; 0; 3])
     <= (2 - 0) / 2 * (/ 100000000000000 * norm1 [1; 0; 3]))%R.
Proof.
  destruct (proj1 rule_exact_on_polynomials unit [1; 0; 3]%R 0%R 2%R tt)
    as (I & E & H & HI & _); [lra | simpl; lia |].
  exists I, E. split; assumption.
Defined.

(** X13.  The script under [__main__] ends within 200 passes of the loop
    of [integrate], whatever [sin], [cos], [pow] and [quad] compute, in one
    of four ways: it prints two lines, [quad]'s and [integrate]'s; or
    [integrate] returns [False], and the script prints [quad]'s line and
    dies of the [TypeError] of unpacking [False]; or [integrate] raises
    [AssertionError] (no other exception is possible), and the script dies
    of it with nothing printed, [quad]'s line included; or [expected] is
    zero and the script dies of [ZeroDivisionError] with nothing printed. *)
Theorem script_outcome (libm_pow : float -> float -> float)
    (sin cos : float -> float)
    (quad : (float -> float) -> float -> float -> float * float)
    (turns : nat) :
  (200 <= turns)%nat ->
  let run := integrate (binary64 libm_pow) turns (Script.f sin) Script.a
               Script.b tt default_minintervals default_limit
               (default_tol (binary64 libm_pow)) in
  let first := Script.line sin cos (fst (quad (Script.f sin) Script.a Script.b))
                 (snd (quad (Script.f sin) Script.a Script.b)) in
  let main := Script.main libm_pow sin cos quad turns in
  (exists v e,
     run = Some (Ok (Tuple v e)) /\
     PrimFloat.eqb (Script.expected sin cos) 0 = false /\
     main = Some ([first; Script.line sin cos v e], None)) \/
  (run = Some (Ok PyFalse) /\
   PrimFloat.eqb (Script.expected sin cos) 0 = false /\
   main = Some ([first], Some TypeError)) \/
  (run = Some (Raise AssertionError) /\
   main = Some ([], Some (Uncaught AssertionError))) \/
  ((exists r, run = Some (Ok r)) /\
   PrimFloat.eqb (Script.expected sin cos) 0 = true /\
   main = Some ([], Some (Uncaught ZeroDivisionError))).
Proof.
  intros Ht run first main.
  destruct (integrate_enough (binary64 libm_pow) (Script.f sin) Script.a
              Script.b tt default_minintervals default_limit
              (default_tol (binary64 libm_pow)) turns) as [o Ho].
  { unfold default_minintervals. lia. }
  { unfold default_minintervals, default_limit. simpl. lia. }
  fold run in Ho. subst main first. unfold Script.main.
  fold run. rewrite Ho.
  destruct o as [[v e|]|e].
  - destruct (quad (Script.f sin) Script.a Script.b) as [result esterror].
    cbn [fst snd].
    destruct (PrimFloat.eqb (Script.expected sin cos) 0) eqn:He.
    + right. right. right. eauto.
    + left. exists v, e. auto.
  - destruct (quad (Script.f sin) Script.a Script.b) as [result esterror].
    cbn [fst snd].
    destruct (PrimFloat.eqb (Script.expected sin cos) 0) eqn:He.
    + right. right. right. eauto.
    + right. left. auto.
  - right. right. left.
    assert (e = AssertionError) as ->; [|auto].
    apply (integrate_raise_assert (binary64 libm_pow) (Script.f sin) Script.a
             Script.b tt default_minintervals default_limit
             (default_tol (binary64 libm_pow)) turns);
      [unfold default_minintervals; lia | exact Ho].
Qed.

Lemma script_outcome_witness :
  exists lines status,
    Script.main pow_exact (fun x => x) (fun _ => 1%float)
                (fun _ _ _ => (0%float, 0%float)) 200
    = Some (lines, status).
Proof.
  destruct (script_outcome pow_exact (fun x => x) (fun _ => 1%float)
              (fun _ _ _ => (0%float, 0%float)) 200 ltac:(lia))
    as [(v & e & _ & _ & H)|[(_ & _ & H)|[(_ & H)|(_ & _ & H)]]];
    rewrite H; eauto.
Defined.

(** X14.  [pop] takes the greatest tuple, so that among the intervals of
    the largest error estimate the one with the largest left end is split.
    For every arithmetic whose [<] and [==] are the order and equality of a
    real key on the numbers that compare, and every run whose interval
    lists hold only such numbers: no entry of a list the loop reaches is
    above the popped one in the order of the tuples.  In real arithmetic:
    every entry has a smaller error estimate than the popped one, or the
    same and a left end that is not larger. *)
Theorem pop_takes_greatest_tuple :
  (forall (A : Arith) (key : num A -> R) (T : Type) (f : num A -> num A)
          (a b : num A) (args : T) (minintervals limit : Z) (tol : num A)
          (intervals0 intervals rest : list (interval A)) (x : interval A),
     ordered_by A key ->
     initial_intervals A f a b args minintervals = Ok intervals0 ->
     (forall l, loop_reaches A (map f) args limit tol intervals0 l ->
                Forall (comparable_tuple A) l) ->
     loop_reaches A (map f) args limit tol intervals0 intervals ->
     pop A intervals = Ok (x, rest) ->
     Forall (fun y => tuple_lt A x y = false) intervals) /\
  (forall (T : Type) (f : R -> R) (a b : R) (args : T)
          (minintervals limit : Z) (tol : R)
          (intervals0 intervals rest : list (interval real_arith))
          (x : interval real_arith),
     initial_intervals real_arith f a b args minintervals = Ok intervals0 ->
     loop_reaches real_arith (map f) args limit tol intervals0 intervals ->
     pop real_arith intervals = Ok (x, rest) ->
     Forall (fun y =>
               (err_of real_arith y < err_of real_arith x)%R \/
               (err_of real_arith y = err_of real_arith x /\
                (left_of real_arith y <= left_of real_arith x)%R))
            intervals).
Proof.
  assert (General :
    forall (A : Arith) (key : num A -> R) (T : Type) (f : num A -> num A)
           (a b : num A) (args : T) (minintervals limit : Z) (tol : num A)
           (intervals0 intervals rest : list (interval A)) (x : interval A),
      ordered_by A key ->
      initial_intervals A f a b args minintervals = Ok intervals0 ->
      (forall l, loop_reaches A (map f) args limit tol intervals0 l ->
                 Forall (comparable_tuple A) l) ->
      loop_reaches A (map f) args limit tol intervals0 intervals ->
      pop A intervals = Ok (x, rest) ->
      Forall (fun y => tuple_lt A x y = false) intervals).
  { intros A key T f a b args minintervals limit tol intervals0 intervals rest
           x Hord Hinit Hclean Hreach Hpop.
    apply (pop_greatest A key intervals x rest Hord); auto.
    eapply (reached_ascending A key); eassumption. }
  split; [exact General|].
  intros T f a b args minintervals limit tol intervals0 intervals rest x
         Hinit Hreach Hpop.
  pose proof (General real_arith (fun x => x) T f a b args minintervals limit
                tol intervals0 intervals rest x real_ordered Hinit
                (fun l _ => real_clean l) Hreach Hpop) as H.
  eapply Forall_impl; [|exact H].
  intros [[[e2 l2] r2] i2]. destruct x as [[[e1 l1] r1] i1].
  cbn [err_of left_of tuple_lt]. real_ops. unfold Reqb, Rltb.
  destruct (Req_dec_T e1 e2) as [He|He]; cbn [negb].
  - destruct (Req_dec_T l1 l2) as [Hl|Hl]; cbn [negb].
    + intros _. right. split; [congruence | lra].
    + destruct (Rlt_dec l1 l2); [discriminate|]. intros _. right.
      split; [congruence | lra].
  - destruct (Rlt_dec e1 e2); [discriminate|]. intros _. left. lra.
Qed.

Lemma pop_takes_greatest_tuple_witness :
  exists intervals0 x rest,
    initial_intervals real_arith (fun x => x) 0%R 1%R tt 2 = Ok intervals0 /\
    pop real_arith intervals0 = Ok (x, rest) /\
    Forall (fun y => tuple_lt real_arith x y = false) intervals0.
Proof.
  destruct (initial_partition (fun x => x) 0%R 1%R tt 2) as (i0 & Hinit & _);
    [lra | lia |].
  pose proof (initial_intervals_length real_arith _ _ _ _ _ _ Hinit) as Hlen.
  destruct (pop real_arith i0) as [[x rest]|e] eqn:Hp.
  - exists i0, x, rest. split; [exact Hinit|]. split; [exact Hp|].
    exact (proj1 pop_takes_greatest_tuple real_arith (fun x => x) unit
             (fun x => x) 0%R 1%R tt 2 200 (default_tol real_arith) i0 i0 rest x
             real_ordered Hinit (fun l _ => real_clean l)
             (reaches_first _ _ _ _ _ _) Hp).
  - apply pop_empty in Hp. subst i0. simpl in Hlen. lia.
Defined.

(** X15.  An interval whose error estimate does not compare is put last
    and split next.  For every arithmetic, [bisect.insort] appends a tuple
    that is below no tuple, and [pop] then returns it.  In binary64 a tuple
    whose error estimate is NaN is such a tuple; so when a pass bisects an
    interval and the estimate of the right half is NaN, that half is the
    last entry of the new list, the one the next pass splits. *)
Theorem nan_estimate_goes_last :
  (forall (A : Arith) (a : list (interval A)) (x : interval A),
     (forall y, tuple_lt A x y = false) ->
     insort A a x = a ++ [x] /\ pop A (insort A a x) = Ok (x, a)) /\
  (forall (libm_pow : float -> float -> float) (e l r i : float)
          (y : interval (binary64 libm_pow)),
     PrimFloat.is_nan e = true ->
     tuple_lt (binary64 libm_pow) (e, l, r, i) y = false) /\
  (forall (libm_pow : float -> float -> float) (T : Type)
          (fv : list float -> list float) (args : T)
          (intervals intervals' : list (interval (binary64 libm_pow))),
     bisect_worst (binary64 libm_pow) fv args intervals = Ok intervals' ->
     exists rest e l r i I1 err1 I2 err2,
       intervals = rest ++ [(e, l, r, i)] /\
       integrate_gausskronrod (binary64 libm_pow) fv
         (midpoint (binary64 libm_pow) l r) r args = Ok (I2, err2) /\
       (PrimFloat.is_nan err2 = true ->
        pop (binary64 libm_pow) intervals'
        = Ok ((err2, midpoint (binary64 libm_pow) l r, r, I2),
              insort (binary64 libm_pow) rest
                (err1, l, midpoint (binary64 libm_pow) l r, I1)))).
Proof.
  assert (General :
    forall (A : Arith) (a : list (interval A)) (x : interval A),
      (forall y, tuple_lt A x y = false) ->
      insort A a x = a ++ [x] /\ pop A (insort A a x) = Ok (x, a)).
  { intros A a x Hx. rewrite (insort_last A a x Hx).
    split; [reflexivity | now apply pop_spec]. }
  split; [exact General|]. split.
  - intros. now apply nan_tuple_not_below.
  - intros libm_pow T fv args intervals intervals' H.
    apply bisect_worst_spec in H.
    destruct H as (rest & e & l & r & i & I1 & err1 & I2 & err2 & -> & H1 & H2 & ->).
    exists rest, e, l, r, i, I1, err1, I2, err2.
    split; [reflexivity|]. split; [exact H2|].
    intros Hnan. apply General. intros y. now apply nan_tuple_not_below.
Qed.

(** X16.  Raising the limit changes no result but [False], for every
    arithmetic: when [integrate] returns a pair or raises with some
    [limit], it does the same, after as many passes, with every larger
    limit; so a call that returns [False] with a limit returns [False]
    with every smaller one as well, if it comes to an end. *)
Theorem raising_limit_keeps_result (A : Arith) (T : Type) (f : num A -> num A)
    (a b : num A) (args : T) (minintervals limit limit' : Z) (tol : num A)
    (turns : nat) :
  limit <= limit' ->
  (forall o,
     integrate A turns f a b args minintervals limit tol = Some o ->
     o <> Ok PyFalse ->
     integrate A turns f a b args minintervals limit' tol = Some o) /\
  (forall o,
     integrate A turns f a b args minintervals limit' tol = Some (Ok PyFalse) ->
     integrate A turns f a b args minintervals limit tol = Some o ->
     o = Ok PyFalse).
Proof.
  intros Hl.
  assert (Hup : forall o,
            integrate A turns f a b args minintervals limit tol = Some o ->
            o <> Ok PyFalse ->
            integrate A turns f a b args minintervals limit' tol = Some o).
  { intros o H Ho. unfold integrate in *.
    destruct (initial_intervals A f a b args minintervals) as [i0|e];
      [|exact H].
    now apply (while_true_limit A (map f) args limit limit'). }
  split; [exact Hup|].
  intros o H' H.
  destruct o as [[v e|]|e]; try reflexivity;
    rewrite (Hup _ H) in H' by discriminate; discriminate.
Qed.

Lemma raising_limit_keeps_result_witness :
  integrate (binary64 pow_exact) 1 (fun x => x) 0%float 1%float tt 1 200
            (default_tol (binary64 pow_exact))
  = integrate (binary64 pow_exact) 1 (fun x => x) 0%float 1%float tt 1 1
              (default_tol (binary64 pow_exact)).
Proof.
  destruct (integrate (binary64 pow_exact) 1 (fun x => x) 0%float 1%float tt
              1 1 (default_tol (binary64 pow_exact))) as [o|] eqn:H;
    [|revert H; vm_compute; discriminate].
  apply (proj1 (raising_limit_keeps_result (binary64 pow_exact) unit
                  (fun x => x) 0%float 1%float tt 1 1 200
                  (default_tol (binary64 pow_exact)) 1 ltac:(lia)) o H).
  revert H. vm_compute. intros H. inversion H. discriminate.
Defined.

(** X17.  The integral returned is bounded by the integrand, in real
    arithmetic: the weights of the fifteen-point rule are positive and add
    up to no more than [2].  For [a < b]: when [|f| <= M] strictly inside
    [[a, b]], the integral that [integrate_gausskronrod] returns, and with
    [minintervals >= 1] the integral [Itotal] of every pair that
    [integrate] returns, is at most [M (b - a)] in absolute value; and when
    [f >= 0] strictly inside [[a, b]], they are not negative. *)
Theorem integral_bounded_by_integrand (T : Type) (f : R -> R) (a b : R)
    (args : T) (minintervals limit : Z) (tol : R) :
  (a < b)%R -> 1 <= minintervals ->
  (forall M : R,
     (forall x : R, (a < x < b)%R -> (Rabs (f x) <= M)%R) ->
     (exists I E : R,
        integrate_gausskronrod real_arith (map f) a b args = Ok (I, E) /\
        (Rabs I <= M * (b - a))%R) /\
     (forall turns v e,
        integrate real_arith turns f a b args minintervals limit tol
        = Some (Ok (Tuple v e)) ->
        (Rabs v <= M * (b - a))%R)) /\
  ((forall x : R, (a < x < b)%R -> (0 <= f x)%R) ->
   (exists I E : R,
      integrate_gausskronrod real_arith (map f) a b args = Ok (I, E) /\
      (0 <= I)%R) /\
   (forall turns v e,
      integrate real_arith turns f a b args minintervals limit tol
      = Some (Ok (Tuple v e)) ->
      (0 <= v)%R)).
Proof.
  intros Hab Hm. split.
  - intros M Hf. split.
    + rewrite integrate_gausskronrod_real by exact Hab.
      eexists. eexists. split; [apply f_equal, surjective_pairing|].
      now apply rule_integral_bound.
    + intros turns v e H.
      destruct (real_returned_list f a b args minintervals limit tol turns v e
                  Hab Hm H) as (l & Hp & He & -> & _).
      now apply (total_bound f args M a b l).
  - intros Hf. split.
    + rewrite integrate_gausskronrod_real by exact Hab.
      eexists. eexists. split; [apply f_equal, surjective_pairing|].
      now apply rule_integral_nonneg.
    + intros turns v e H.
      destruct (real_returned_list f a b args minintervals limit tol turns v e
                  Hab Hm H) as (l & Hp & He & -> & _).
      now apply (total_nonneg f args a b l).
Qed.

Lemma integral_bounded_by_integrand_witness :
  exists I E : R,
    integrate_gausskronrod real_arith (map (fun x => x)) 0%R 1%R tt
    = Ok (I, E) /\ (0 <= I)%R.
Proof.
  apply (proj2 (integral_bounded_by_integrand unit (fun x => x) 0%R 1%R tt
                  1 200 (default_tol real_arith) ltac:(lra) ltac:(lia))).
  intros x Hx. lra.
Defined.
